(** * edk2toollib.database: the table-generator orchestrator and the
      instanced-INF resolution generator

    A shallow embedding of
      - [edk2toollib/database/edk2_db.py]               (class [Edk2DB])
      - [edk2toollib/database/tables/base_table.py]     (class [TableGenerator])
      - [edk2toollib/database/tables/instanced_inf_table.py]
                                                        (class [InstancedInfTable])
    Python dictionaries with string keys are [gmap string _]; Python lists are
    [list]; exceptions are values of [exn] carried by the result type [res]. *)

From Stdlib Require Import Ascii String.
From stdpp Require Import gmap strings list.

Local Open Scope string_scope.
Local Open Scope list_scope.
Local Open Scope nat_scope.

(** ** Python values: exceptions, results, strings *)

Module Py.

(** The exception classes the modelled code raises or lets through. *)
Inductive exn : Type :=
| KeyError (key : string)
| ValueError (msg : string)
| TypeError (msg : string)
| IndexError (msg : string)
| RuntimeError (msg : string)
| NotImplementedError
| OperationalError (msg : string)
| ExternalError (msg : string).

(** The outcome of running a piece of Python: a value, a raised exception,
    or (for the fuel-indexed recursion only) exhausted fuel. *)
Inductive res (A : Type) : Type :=
| Ok (a : A)
| Raise (e : exn)
| OutOfFuel.
Arguments Ok {A} a.
Arguments Raise {A} e.
Arguments OutOfFuel {A}.

#[global] Instance res_ret : MRet res := λ A a, Ok a.

#[global] Instance res_bind : MBind res := λ A B k m,
  match m with
  | Ok a => k a
  | Raise e => Raise e
  | OutOfFuel => OutOfFuel
  end.

(** [d[key]] on a dictionary: [KeyError] when the key is absent. *)
Definition getitem {V} (d : gmap string V) (key : string) : res V :=
  match d !! key with
  | Some v => Ok v
  | None => Raise (KeyError key)
  end.

(** [str.split(sep)] for a one-character separator. *)
Fixpoint split (sep : ascii) (s : string) : list string :=
  match s with
  | EmptyString => [""]
  | String c s' =>
      if decide (c = sep) then "" :: split sep s'
      else match split sep s' with
           | [] => [String c ""]
           | w :: ws => String c w :: ws
           end
  end.

(** Whether character [c] occurs in [s]. *)
Fixpoint occurs (c : ascii) (s : string) : bool :=
  match s with
  | EmptyString => false
  | String d s' => if decide (d = c) then true else occurs c s'
  end.

(** [str.lower()] and [str.upper()], on ASCII letters. *)
Definition lower_char (c : ascii) : ascii :=
  let n := nat_of_ascii c in
  if (65 <=? n)%nat && (n <=? 90)%nat then ascii_of_nat (n + 32) else c.

Definition upper_char (c : ascii) : ascii :=
  let n := nat_of_ascii c in
  if (97 <=? n)%nat && (n <=? 122)%nat then ascii_of_nat (n - 32) else c.

Fixpoint lower (s : string) : string :=
  match s with
  | EmptyString => EmptyString
  | String c s' => String (lower_char c) (lower s')
  end.

Fixpoint upper (s : string) : string :=
  match s with
  | EmptyString => EmptyString
  | String c s' => String (upper_char c) (upper s')
  end.

(** [xs[0]] on a list. *)
Definition first (xs : list string) : res string :=
  match xs with
  | x :: _ => Ok x
  | [] => Raise (IndexError "list index out of range")
  end.

(** A computation that may raise and mutates a state of type [S]; when it
    raises, the state reached so far is kept. *)
Definition st (S A : Type) : Type := S → res A * S.

#[global] Instance st_ret {S} : MRet (st S) := λ A a s, (Ok a, s).

#[global] Instance st_bind {S} : MBind (st S) := λ A B k m s,
  match m s with
  | (Ok a, s') => k a s'
  | (Raise e, s') => (Raise e, s')
  | (OutOfFuel, s') => (OutOfFuel, s')
  end.

Definition lift {S A} (m : res A) : st S A := λ s, (m, s).

(** The outcome of a call into code outside this package: it returns or
    raises. *)
Definition call {A} (r : exn + A) : res A :=
  match r with
  | inr a => Ok a
  | inl e => Raise e
  end.

(** [for x in xs: body(x)] *)
Fixpoint for_each {S A} (xs : list A) (body : A → st S unit) : st S unit :=
  match xs with
  | [] => mret tt
  | x :: xs' => body x ≫= λ _, for_each xs' body
  end.

(** [row[0]] on the result of [fetchone()]. *)
Definition subscript0 {A} (row : option A) : res A :=
  match row with
  | Some a => Ok a
  | None => Raise (TypeError "'NoneType' object is not subscriptable")
  end.

End Py.

Export Py.

(** ** The platform-description view consumed by the generator *)

(** The per-component override block of [DscParser.Components].  In Python it
    is one dictionary: lower-cased library-class names map to an INF path and
    the upper-case key ["NULL"] maps to the list of NULL-class instances.  The
    two kinds of keys are kept in two fields; [_parse_inf_recursively] only
    ever looks up lower-cased class names, which cannot be ["NULL"]. *)
Record override_dict : Type := {
  ov_classes : gmap string string;
  ov_NULL : option (list string)
}.

Section LibToInstance.

(** [self.dsc], the active platform description. *)
Variable dsc : string.

(** [arch, module = tuple(scope.split("."))] *)
Definition unpack_scope (scope : string) : res (string * string) :=
  match split "." scope with
  | [arch; module] => Ok (arch, module)
  | [] => Raise (ValueError "not enough values to unpack (expected 2, got 0)")
  | [_] => Raise (ValueError "not enough values to unpack (expected 2, got 1)")
  | _ => Raise (ValueError "too many values to unpack (expected 2)")
  end.

Definition cannot_find (library_class_name scope : string) : string :=
  "Cannot find library class [" +:+ library_class_name +:+ "] for scope ["
    +:+ scope +:+ "] when evaluating " +:+ dsc.

Definition _lib_to_instance (library_class_name scope : string)
    (library_dict : gmap string string) (override_dict : override_dict)
    : res string :=
  '(arch, module) ← unpack_scope scope;
  match ov_classes override_dict !! library_class_name with
  | Some inst => Ok inst
  | None =>
  match library_dict !! (arch +:+ "." +:+ module +:+ "." +:+ library_class_name) with
  | Some inst => Ok inst
  | None =>
  match library_dict !! ("common." +:+ module +:+ "." +:+ library_class_name) with
  | Some inst => Ok inst
  | None =>
  match library_dict !! (arch +:+ "." +:+ library_class_name) with
  | Some inst => Ok inst
  | None =>
  match library_dict !! ("common." +:+ library_class_name) with
  | Some inst => Ok inst
  | None => Raise (RuntimeError (cannot_find library_class_name scope))
  end end end end end.

End LibToInstance.


(** ** The module-description and platform-description views *)

(** What [InfParser] exposes after [ParseFile]: the key/value dictionary, the
    architecture-filtered library-class lines, the sources and the PCDs. *)
Record InfParser : Type := {
  Dict : gmap string string;
  get_libraries : list string → list string;
  Sources : list string;
  PcdsUsed : list string
}.

(** What [DscParser] exposes after [ParseFile]: the declared components, each
    [(inf, scope, overrides)], and the scoped library-class map. *)
Record DscParser : Type := {
  Components : list (string * string * override_dict);
  ScopedLibraryDict : gmap string string
}.

(** The collaborators outside this package: the two parsers, [pathlib.Path]
    of the host platform and [Edk2Path]. *)
Record Workspace : Type := {
  InfP : string → exn + InfParser;
  DscP : gmap string string → string → exn + DscParser;
  as_posix : string → string;
  path_name : string → string;
  is_absolute : string → bool;
  GetEdk2RelativePathFromAbsolutePath : string → option string
}.

(** The dictionary appended by [_parse_inf_recursively].  ["PATH"] and
    ["COMPONENT"] hold a string or [None]. *)
Record entry : Type := {
  DSC : string;
  PATH : option string;
  GUID : string;
  NAME : string;
  COMPONENT : option string;
  MODULE_TYPE : string;
  ARCH : string;
  SOURCES_USED : list string;
  LIBRARIES_USED : list string;
  PROTOCOLS_USED : list string;
  GUIDS_USED : list string;
  PPIS_USED : list string;
  PCDS_USED : list string
}.

Definition set_COMPONENT (c : option string) (e : entry) : entry :=
  {| DSC := DSC e; PATH := PATH e; GUID := GUID e; NAME := NAME e;
     COMPONENT := c; MODULE_TYPE := MODULE_TYPE e; ARCH := ARCH e;
     SOURCES_USED := SOURCES_USED e; LIBRARIES_USED := LIBRARIES_USED e;
     PROTOCOLS_USED := PROTOCOLS_USED e; GUIDS_USED := GUIDS_USED e;
     PPIS_USED := PPIS_USED e; PCDS_USED := PCDS_USED e |}.

Definition set_PATH (p : option string) (e : entry) : entry :=
  {| DSC := DSC e; PATH := p; GUID := GUID e; NAME := NAME e;
     COMPONENT := COMPONENT e; MODULE_TYPE := MODULE_TYPE e; ARCH := ARCH e;
     SOURCES_USED := SOURCES_USED e; LIBRARIES_USED := LIBRARIES_USED e;
     PROTOCOLS_USED := PROTOCOLS_USED e; GUIDS_USED := GUIDS_USED e;
     PPIS_USED := PPIS_USED e; PCDS_USED := PCDS_USED e |}.

(** ** [InstancedInfTable]: construction and the in-memory row list *)

Record InstancedInfTable : Type := {
  self_env : gmap string string;
  self_dsc : string;
  self_fdf : string;
  self_arch : list string;
  self_target : string
}.

(** [InstancedInfTable.__init__], applied to its keyword arguments. *)
Definition __init__ (kwargs : gmap string (gmap string string))
    : res InstancedInfTable :=
  env ← getitem kwargs "env";
  dsc ← getitem env "ACTIVE_PLATFORM";
  let fdf := default "" (env !! "FLASH_DEFINITION") in
  target_arch ← getitem env "TARGET_ARCH";
  let arch := split " " target_arch in
  target ← getitem env "TARGET";
  Ok {| self_env := env; self_dsc := dsc; self_fdf := fdf;
        self_arch := arch; self_target := target |}.

Section InstancedInf.

Variable ws : Workspace.
Variable self : InstancedInfTable.

(** Lines 159-165: the library instances of one INF in one component. *)
Definition resolve_library (scope : string) (library_dict : gmap string string)
    (override_dict : override_dict) (lib : string) : res string :=
  cls ← first (split " " lib);
  _lib_to_instance (self_dsc self) (lower cls) scope library_dict override_dict.

Definition library_instances_of (inf : string) (infp : InfParser)
    (library_dict : gmap string string) (override_dict : override_dict)
    (scope : string) : res (list string) :=
  resolved ← mapM (resolve_library scope library_dict override_dict)
                  (get_libraries infp (self_arch self));
  nulls ← match ov_NULL override_dict with
          | Some l => Ok l
          | None => Raise (KeyError "NULL")
          end;
  Ok (resolved ++ filter (λ null_lib, null_lib ≠ inf) nulls).

(** Lines 174-188: the record of one INF. *)
Definition make_entry (inf component : string) (infp : InfParser)
    (scope : string) (library_instances : list string) : res entry :=
  base_name ← getitem (Dict infp) "BASE_NAME";
  module_type ← getitem (Dict infp) "MODULE_TYPE";
  arch ← first (split "." scope);
  Ok {| DSC := path_name ws (self_dsc self);
        PATH := Some (as_posix ws inf);
        GUID := default "" (Dict infp !! "FILE_GUID");
        NAME := base_name;
        COMPONENT := Some (as_posix ws component);
        MODULE_TYPE := module_type;
        ARCH := upper arch;
        SOURCES_USED := map (as_posix ws) (Sources infp);
        LIBRARIES_USED := map (as_posix ws) library_instances;
        PROTOCOLS_USED := [];
        GUIDS_USED := [];
        PPIS_USED := [];
        PCDS_USED := PcdsUsed infp |}.

(** Lines 168-171: the loop over the not yet visited library instances.
    [filter] is lazy, so membership in [visited] is tested when the loop
    reaches the library, after the earlier iterations have extended it. *)
Fixpoint visit_libraries
    (recurse : string → list string → res (list entry * list string))
    (library_instances : list string) (to_return : list entry)
    (visited : list string) : res (list entry * list string) :=
  match library_instances with
  | [] => Ok (to_return, visited)
  | library :: rest =>
      if decide (library ∈ visited)
      then visit_libraries recurse rest to_return visited
      else '(rows, visited) ← recurse library visited;
           visit_libraries recurse rest (to_return ++ rows) visited
  end.

(** [_parse_inf_recursively]; the mutable list [visited] is threaded through
    and returned.  [fuel] bounds the depth of the recursion. *)
Fixpoint _parse_inf_recursively (fuel : nat) (inf component : string)
    (library_dict : gmap string string) (override_dict : override_dict)
    (scope : string) (visited : list string)
    : res (list entry * list string) :=
  match fuel with
  | O => OutOfFuel
  | S fuel =>
      let visited := visited ++ [inf] in
      infp ← call (InfP ws inf);
      library_instances ←
        library_instances_of inf infp library_dict override_dict scope;
      '(to_return, visited) ←
        visit_libraries
          (λ library visited,
             _parse_inf_recursively fuel library component library_dict
               override_dict scope visited)
          library_instances [] visited;
      e ← make_entry inf component infp scope library_instances;
      Ok (to_return ++ [e], visited)
  end.

(** A recursion depth no component tree exceeds: the root plus every INF
    path the two dictionaries can resolve to. *)
Definition enough_fuel (library_dict : gmap string string)
    (override_dict : override_dict) : nat :=
  S (length (map_to_list library_dict)
     + length (map_to_list (ov_classes override_dict))
     + length (default [] (ov_NULL override_dict))).

(** Lines 126-127: the scope of a component gets its module type. *)
Definition component_scope (infp : InfParser) (scope : string) : string :=
  match Dict infp !! "MODULE_TYPE" with
  | Some module_type => scope +:+ lower ("." +:+ module_type)
  | None => scope
  end.

(** Lines 116-129: the loop over the declared components. *)
Fixpoint build_components (library_dict : gmap string string)
    (components : list (string * string * override_dict))
    (inf_entries : list entry) : res (list entry) :=
  match components with
  | [] => Ok inf_entries
  | (inf, scope, overrides) :: rest =>
      infp ← call (InfP ws inf);
      if decide (is_Some (Dict infp !! "LIBRARY_CLASS"))
      then build_components library_dict rest inf_entries
      else
        let scope := component_scope infp scope in
        '(rows, _) ← _parse_inf_recursively
                        (enough_fuel library_dict overrides)
                        inf inf library_dict overrides scope [];
        build_components library_dict rest (inf_entries ++ rows)
  end.

(** Lines 132-134. *)
Definition move_entry (e : entry) : entry :=
  if decide (PATH e = COMPONENT e) then set_COMPONENT None e else e.

Definition _build_inf_table (dscp : DscParser) : res (list entry) :=
  inf_entries ← build_components (ScopedLibraryDict dscp) (Components dscp) [];
  Ok (map move_entry inf_entries).

(** Lines 91-93. *)
Definition relativize (e : entry) : res entry :=
  match PATH e with
  | Some p =>
      if is_absolute ws p
      then Ok (set_PATH (GetEdk2RelativePathFromAbsolutePath ws p) e)
      else Ok e
  | None => Raise (TypeError "expected str, bytes or os.PathLike object, not NoneType")
  end.

End InstancedInf.


(** ** The relational store *)

Inductive sqlval : Type :=
| SNull
| SInt (n : Z)
| SText (s : string).

#[global] Instance sqlval_eq_dec : EqDecision sqlval.
Proof. solve_decision. Defined.

Record junction_row : Type := {
  table1 : string; key1 : sqlval; table2 : string; key2 : sqlval
}.

Record environment_row : Type := { env_id : Z; env_date : Z }.

Record instanced_inf_row : Type := {
  col_id : Z;
  col_env : Z;
  col_dsc : string;
  col_path : option string;
  col_name : string;
  col_arch : string;
  col_component : option string
}.

(** The tables this package reads and writes; a table that has not been
    created is [None].  [instanced_inf_seq] is the AUTOINCREMENT counter of
    [instanced_inf]; [other_tables] holds the tables of other generators. *)
Record Store : Type := {
  environment : option (list environment_row);
  instanced_inf : option (list instanced_inf_row);
  instanced_inf_seq : Z;
  junction : option (list junction_row);
  other_tables : gmap string (list (list sqlval))
}.

Abbreviation db := (st Store).

Definition set_junction (j : option (list junction_row)) (s : Store) : Store :=
  {| environment := environment s; instanced_inf := instanced_inf s;
     instanced_inf_seq := instanced_inf_seq s; junction := j;
     other_tables := other_tables s |}.

Definition set_instanced_inf (t : option (list instanced_inf_row)) (n : Z)
    (s : Store) : Store :=
  {| environment := environment s; instanced_inf := t;
     instanced_inf_seq := n; junction := junction s;
     other_tables := other_tables s |}.

(** [execute(CREATE_JUNCTION_TABLE)] *)
Definition CREATE_JUNCTION_TABLE : db unit := λ s,
  match junction s with
  | Some _ => (Ok tt, s)
  | None => (Ok tt, set_junction (Some []) s)
  end.

(** [execute(CREATE_INSTANCED_INF_TABLE)] *)
Definition CREATE_INSTANCED_INF_TABLE : db unit := λ s,
  match instanced_inf s with
  | Some _ => (Ok tt, s)
  | None => (Ok tt, set_instanced_inf (Some []) (instanced_inf_seq s) s)
  end.

(** The last rowid sqlite gives out: the largest 64-bit signed integer. *)
Definition MAX_ROWID : Z := 9223372036854775807%Z.

(** The largest id in [instanced_inf], 0 when the table has no row. *)
Fixpoint last_rowid (rows : list instanced_inf_row) : Z :=
  match rows with
  | [] => 0%Z
  | r :: rest =>
      match rest with
      | [] => col_id r
      | _ :: _ => Z.max (col_id r) (last_rowid rest)
      end
  end.

(** [execute(INSERT_INSTANCED_INF_ROW, (env, dsc, path, name, arch, component))]:
    the column [id] is [INTEGER PRIMARY KEY AUTOINCREMENT], so the new id is
    one more than the larger of the largest id in the table and the table's
    counter, and there is none once either has reached the last rowid. *)
Definition INSERT_INSTANCED_INF_ROW (env : Z) (dsc : string)
    (path : option string) (name arch : string) (component : option string)
    : db unit := λ s,
  match instanced_inf s with
  | Some rows =>
      let last := Z.max (last_rowid rows) (instanced_inf_seq s) in
      if (MAX_ROWID <=? last)%Z
      then (Raise (OperationalError "database or disk is full"), s)
      else
        let n := (last + 1)%Z in
        (Ok tt,
         set_instanced_inf
           (Some (rows ++ [{| col_id := n; col_env := env; col_dsc := dsc;
                              col_path := path; col_name := name;
                              col_arch := arch; col_component := component |}]))
           n s)
  | None => (Raise (OperationalError "no such table: instanced_inf"), s)
  end.

(** [execute(INSERT_JUNCTION_ROW, (table1, key1, table2, key2))] *)
Definition INSERT_JUNCTION_ROW (t1 : string) (k1 : sqlval) (t2 : string)
    (k2 : sqlval) : db unit := λ s,
  match junction s with
  | Some rows =>
      (Ok tt,
       set_junction
         (Some (rows ++ [{| table1 := t1; key1 := k1; table2 := t2; key2 := k2 |}]))
         s)
  | None => (Raise (OperationalError "no such table: junction"), s)
  end.

(** [WHERE env = ? and path = ? and dsc = ?]; a NULL never compares equal. *)
Definition row_matches (env : Z) (path : option string) (dsc : string)
    (r : instanced_inf_row) : Prop :=
  col_env r = env ∧ is_Some path ∧ col_path r = path ∧ col_dsc r = dsc.

#[global] Instance row_matches_dec env path dsc r :
  Decision (row_matches env path dsc r).
Proof. unfold row_matches. apply _. Defined.

(** [execute(GET_ROW_ID, (env, path, dsc)).fetchone()]: the first matching
    row in rowid order, or [None]. *)
Definition GET_ROW_ID (env : Z) (path : option string) (dsc : string)
    : db (option Z) := λ s,
  match instanced_inf s with
  | Some rows =>
      (Ok (col_id <$> head (filter (row_matches env path dsc) rows)), s)
  | None => (Raise (OperationalError "no such table: instanced_inf"), s)
  end.

(** The row [ORDER BY date DESC LIMIT 1] keeps; of several rows with the
    latest date, the first in rowid order. *)
Definition latest (rows : list environment_row) : option environment_row :=
  foldl (λ best r,
           match best with
           | None => Some r
           | Some b => if (env_date b <? env_date r)%Z then Some r else Some b
           end) None rows.

(** [execute("SELECT id FROM environment ORDER BY date DESC LIMIT 1").fetchone()] *)
Definition SELECT_LATEST_ENVIRONMENT : db (option Z) := λ s,
  match environment s with
  | Some rows => (Ok (env_id <$> latest rows), s)
  | None => (Raise (OperationalError "no such table: environment"), s)
  end.

(** ** [TableGenerator] and [InstancedInfTable] as one *)

(** The generator interface of [base_table.py]; [class_name] is
    [parser.__class__.__name__]. *)
Record TableGenerator : Type := {
  class_name : string;
  create_tables : db unit;
  parse : db unit
}.

(** The base class itself: both methods raise. *)
Definition TableGenerator_base : TableGenerator :=
  {| class_name := "TableGenerator";
     create_tables := lift (Raise NotImplementedError);
     parse := lift (Raise NotImplementedError) |}.

Section InstancedInfParse.

Variable ws : Workspace.
Variable self : InstancedInfTable.

(** Lines 98-102. *)
Definition add_instanced_inf_entries (env : Z) (inf_entries : list entry)
    : db unit :=
  for_each inf_entries (λ e,
    INSERT_INSTANCED_INF_ROW env (DSC e) (PATH e) (NAME e) (ARCH e)
      (COMPONENT e)).

(** Lines 105-111. *)
Definition add_junction_entries (env : Z) (inf_entries : list entry)
    : db unit :=
  for_each inf_entries (λ e,
    row ← GET_ROW_ID env (PATH e) (DSC e);
    inf_id ← lift (subscript0 row);
    _ ← for_each (SOURCES_USED e) (λ source,
          INSERT_JUNCTION_ROW "instanced_inf" (SInt inf_id)
            "source" (SText source));
    for_each (LIBRARIES_USED e) (λ library,
      row ← GET_ROW_ID env (Some library) (DSC e);
      used_inf_id ← lift (subscript0 row);
      INSERT_JUNCTION_ROW "instanced_inf" (SInt inf_id)
        "instanced_inf" (SInt used_inf_id))).

(** [InstancedInfTable.parse] *)
Definition InstancedInfTable_parse : db unit :=
  dscp ← lift (call (DscP ws (self_env self) (self_dsc self)));
  inf_entries ← lift (_build_inf_table ws self dscp);
  inf_entries ← lift (mapM (relativize ws) inf_entries);
  row ← SELECT_LATEST_ENVIRONMENT;
  env ← lift (subscript0 row);
  _ ← add_instanced_inf_entries env inf_entries;
  add_junction_entries env inf_entries.

Definition InstancedInfTable_generator : TableGenerator :=
  {| class_name := "InstancedInfTable";
     create_tables := CREATE_INSTANCED_INF_TABLE;
     parse := InstancedInfTable_parse |}.

End InstancedInfParse.

(** ** [Edk2DB] *)

(** The sqlite3 connection: what is stored in the file ([committed]) and what
    the connection sees, with its uncommitted writes ([current]).  Every
    statement acts on [current]; [committed] changes at a commit only (that
    sqlite applies a schema statement at once when no transaction is open is
    not modelled). *)
Record Connection : Type := {
  committed : Store;
  current : Store;
  closed : bool
}.

Record Edk2DB : Type := {
  _parsers : list TableGenerator;
  connection : Connection
}.

(** Running statements through the connection or one of its cursors. *)
Definition on_connection {A} (m : db A) : st Edk2DB A := λ o,
  let '(r, s) := m (current (connection o)) in
  (r, {| _parsers := _parsers o;
         connection := {| committed := committed (connection o);
                          current := s;
                          closed := closed (connection o) |} |}).

(** [self.connection.commit()] *)
Definition commit : st Edk2DB unit := λ o,
  (Ok tt, {| _parsers := _parsers o;
             connection := {| committed := current (connection o);
                              current := current (connection o);
                              closed := closed (connection o) |} |}).

(** [self.connection.close()]: uncommitted writes are lost. *)
Definition close : st Edk2DB unit := λ o,
  (Ok tt, {| _parsers := _parsers o;
             connection := {| committed := committed (connection o);
                              current := committed (connection o);
                              closed := true |} |}).

(** [Edk2DB.__init__] on a database file holding [file]. *)
Definition Edk2DB_init (file : Store) : Edk2DB :=
  {| _parsers := [];
     connection := {| committed := file; current := file; closed := false |} |}.

(** [Edk2DB.register] *)
Definition register (parsers : list TableGenerator) (o : Edk2DB) : Edk2DB :=
  {| _parsers := _parsers o ++ parsers; connection := connection o |}.

(** [Edk2DB.clear_parsers] *)
Definition clear_parsers (o : Edk2DB) : Edk2DB :=
  {| _parsers := []; connection := connection o |}.

(** [Edk2DB.parse] *)
Definition Edk2DB_parse : st Edk2DB unit := λ o,
  (_ ← on_connection CREATE_JUNCTION_TABLE;
   _ ← for_each (_parsers o) (λ parser,
         on_connection (create_tables parser));
   for_each (_parsers o) (λ parser,
     _ ← on_connection (parse parser);
     commit)) o.

(** [Edk2DB.__exit__] *)
Definition __exit__ : st Edk2DB unit :=
  _ ← commit; close.

(** [with db: body(db)]: [__exit__] runs whether or not the body raised, and
    an exception of the body propagates. *)
Definition with_Edk2DB {A} (body : st Edk2DB A) : st Edk2DB A := λ o,
  let '(r, o') := body o in
  (r, (__exit__ o').2).

(** ** Vocabulary for the orchestrator *)

(** The calls [Edk2DB.parse] makes, one after the other. *)
Inductive step : Type :=
| EnsureJunction
| CreateTables (parser : TableGenerator)
| Populate (parser : TableGenerator)
| Commit.

Definition run_step (x : step) : st Edk2DB unit :=
  match x with
  | EnsureJunction => on_connection CREATE_JUNCTION_TABLE
  | CreateTables parser => on_connection (create_tables parser)
  | Populate parser => on_connection (parse parser)
  | Commit => commit
  end.

(** The order of the calls for the registered generators [parsers]. *)
Definition schedule (parsers : list TableGenerator) : list step :=
  [EnsureJunction]
  ++ map CreateTables parsers
  ++ flat_map (λ parser, [Populate parser; Commit]) parsers.

(** The schema pass of [Edk2DB.parse]: lines 86-90. *)
Definition schema_pass (parsers : list TableGenerator) : st Edk2DB unit :=
  _ ← on_connection CREATE_JUNCTION_TABLE;
  for_each parsers (λ parser, on_connection (create_tables parser)).

(** The population pass of [Edk2DB.parse]: lines 93-97. *)
Definition populate_pass (parsers : list TableGenerator) : st Edk2DB unit :=
  for_each parsers (λ parser, _ ← on_connection (parse parser); commit).

(** ** Vocabulary for the traversal of one component *)

Section Traversal.

Variable ws : Workspace.
Variable self : InstancedInfTable.
Variable component : string.
Variable library_dict : gmap string string.
Variable overrides : override_dict.
Variable scope : string.

(** The library instances [_parse_inf_recursively] computes for INF [n]. *)
Definition node_libraries (n : string) : res (list string) :=
  infp ← call (InfP ws n);
  library_instances_of self n infp library_dict overrides scope.

(** The record [_parse_inf_recursively] appends for INF [n]. *)
Definition node_record (n : string) : res entry :=
  infp ← call (InfP ws n);
  library_instances ←
    library_instances_of self n infp library_dict overrides scope;
  make_entry ws self n component infp scope library_instances.

(** Every INF path a library class or a NULL override can stand for. *)
Definition resolvable : list string :=
  (map_to_list library_dict).*2 ++ (map_to_list (ov_classes overrides)).*2
    ++ default [] (ov_NULL overrides).

(** How many resolvable paths are not in [visited]. *)
Definition unvisited (visited : list string) : nat :=
  length (filter (λ u, u ∉ visited) resolvable).

(** From [visited], the INFs [nodes] were expanded in this order, giving
    [rows] and leaving the visited list [visited']. *)
Definition traversal (visited nodes : list string) (rows : list entry)
    (visited' : list string) : Prop :=
  visited' ≡ₚ visited ++ nodes ∧
  NoDup nodes ∧
  (∀ n, n ∈ nodes → n ∉ visited) ∧
  Forall2 (λ n r, node_record n = Ok r) nodes rows ∧
  (∀ n libs l, n ∈ nodes → node_libraries n = Ok libs → l ∈ libs →
     l ∈ visited').

End Traversal.


(** ** Vocabulary for the row list of a platform description *)

(** Whether the INF of a [Components] entry declares a library class: the
    entries [_build_inf_table] passes over. *)
Definition declares_library_class (ws : Workspace) (inf : string) : bool :=
  match InfP ws inf with
  | inr infp => bool_decide (is_Some (Dict infp !! "LIBRARY_CLASS"))
  | inl _ => false
  end.

(** The rows [rows] are, component after component, the traversals of the
    components that do not declare a library class; [groups] keeps for each
    of them its path and its own rows. *)
Inductive built (ws : Workspace) (self : InstancedInfTable)
    (library_dict : gmap string string)
    : list (string * string * override_dict) →
      list (string * list entry) → Prop :=
| built_nil : built ws self library_dict [] []
| built_skip inf scope overrides rest groups :
    declares_library_class ws inf = true →
    built ws self library_dict rest groups →
    built ws self library_dict ((inf, scope, overrides) :: rest) groups
| built_component inf scope overrides rest groups infp rows visited :
    InfP ws inf = inr infp →
    declares_library_class ws inf = false →
    _parse_inf_recursively ws self (enough_fuel library_dict overrides)
      inf inf library_dict overrides (component_scope infp scope) []
      = Ok (rows, visited) →
    built ws self library_dict rest groups →
    built ws self library_dict ((inf, scope, overrides) :: rest)
      ((inf, rows) :: groups).

(** Every INF path the platform description mentions. *)
Definition dsc_paths (dscp : DscParser) : list string :=
  (Components dscp).*1.*1
  ++ (map_to_list (ScopedLibraryDict dscp)).*2
  ++ flat_map (λ c : string * string * override_dict,
                 (map_to_list (ov_classes c.2)).*2 ++ default [] (ov_NULL c.2))
       (Components dscp).

(** Rows whose component field is null. *)
Definition component_rows (rows : list entry) : list entry :=
  filter (λ e, COMPONENT e = None) rows.


(** ** Vocabulary for what [InstancedInfTable.parse] persists *)

(** The row [INSERT_INSTANCED_INF_ROW] writes for [e] under id [n]. *)
Definition to_row (env n : Z) (e : entry) : instanced_inf_row :=
  {| col_id := n; col_env := env; col_dsc := DSC e; col_path := PATH e;
     col_name := NAME e; col_arch := ARCH e; col_component := COMPONENT e |}.

(** The rows written for [entries] when the AUTOINCREMENT counter is [seq]. *)
Fixpoint inserted (env seq : Z) (entries : list entry)
    : list instanced_inf_row :=
  match entries with
  | [] => []
  | e :: rest => to_row env (seq + 1) e :: inserted env (seq + 1) rest
  end.

(** What lines 91-93 make of an entry whose path is a string. *)
Definition relativized (ws : Workspace) (e : entry) : entry :=
  match PATH e with
  | Some p =>
      if is_absolute ws p
      then set_PATH (GetEdk2RelativePathFromAbsolutePath ws p) e
      else e
  | None => e
  end.

(** The rows of table [rows] that [GET_ROW_ID] selects from. *)
Definition matching_rows (rows : list instanced_inf_row) (env : Z)
    (path : option string) (dsc : string) : list instanced_inf_row :=
  filter (row_matches env path dsc) rows.

(** The id [GET_ROW_ID ... .fetchone()[0]] yields on table [rows]. *)
Definition lookup_id (rows : list instanced_inf_row) (env : Z)
    (path : option string) (dsc : string) : res Z :=
  subscript0 (col_id <$> head (matching_rows rows env path dsc)).

(** The junction rows lines 106-111 write for [e] on table [rows]. *)
Definition source_edges (inf_id : Z) (e : entry) : list junction_row :=
  map (λ source, {| table1 := "instanced_inf"; key1 := SInt inf_id;
                    table2 := "source"; key2 := SText source |})
      (SOURCES_USED e).

Definition library_edges (rows : list instanced_inf_row) (env inf_id : Z)
    (e : entry) : res (list junction_row) :=
  mapM (λ library,
          used_inf_id ← lookup_id rows env (Some library) (DSC e);
          Ok {| table1 := "instanced_inf"; key1 := SInt inf_id;
                table2 := "instanced_inf"; key2 := SInt used_inf_id |})
       (LIBRARIES_USED e).

Definition edges_of (rows : list instanced_inf_row) (env : Z) (e : entry)
    : res (list junction_row) :=
  inf_id ← lookup_id rows env (PATH e) (DSC e);
  libs ← library_edges rows env inf_id e;
  Ok (source_edges inf_id e ++ libs).

(** INF [n] is in the dependency tree below [root]. *)
Inductive reach (ws : Workspace) (self : InstancedInfTable)
    (library_dict : gmap string string) (overrides : override_dict)
    (scope : string) (root : string) : string → Prop :=
| reach_root : reach ws self library_dict overrides scope root root
| reach_library n libs l :
    reach ws self library_dict overrides scope root n →
    node_libraries ws self library_dict overrides scope n = Ok libs →
    l ∈ libs →
    reach ws self library_dict overrides scope root l.

(** ** A small workspace to run the generator on *)

Module Demo.

(** POSIX flavour of the path operations, on paths already in normal form,
    with the workspace rooted at [/ws/]. *)
Definition basename (p : string) : string := default p (last (split "/" p)).

Definition starts_with_slash (p : string) : bool :=
  match p with
  | String "/" _ => true
  | _ => false
  end.

Definition strip_ws (p : string) : option string :=
  match p with
  | String "/" (String "w" (String "s" (String "/" rest))) => Some rest
  | _ => None
  end.

Definition inf_file (fields : list (string * string)) (libs sources : list string)
    : InfParser :=
  {| Dict := list_to_map fields; get_libraries := λ _, libs;
     Sources := sources; PcdsUsed := [] |}.

Definition workspace (files : list (string * InfParser)) (dscp : DscParser)
    : Workspace :=
  {| InfP := λ p, match (list_to_map files : gmap string InfParser) !! p with
                  | Some i => inr i
                  | None => inl (ExternalError p)
                  end;
     DscP := λ _ _, inr dscp;
     as_posix := λ p, p;
     path_name := basename;
     is_absolute := starts_with_slash;
     GetEdk2RelativePathFromAbsolutePath := strip_ws |}.

Definition no_overrides : override_dict :=
  {| ov_classes := ∅; ov_NULL := Some [] |}.

Definition table : InstancedInfTable :=
  {| self_env := list_to_map [("ACTIVE_PLATFORM", "Pkg/Test.dsc");
                              ("TARGET_ARCH", "IA32"); ("TARGET", "DEBUG")];
     self_dsc := "Pkg/Test.dsc"; self_fdf := ""; self_arch := ["IA32"];
     self_target := "DEBUG" |}.

(** A store in which the environment recorder has written one row and the
    orchestrator has created the tables. *)
Definition fresh_store : Store :=
  {| environment := Some [{| env_id := 1; env_date := 100 |}];
     instanced_inf := Some []; instanced_inf_seq := 0;
     junction := Some []; other_tables := ∅ |}.

Definition driver (name : string) (libs : list string) : InfParser :=
  inf_file [("BASE_NAME", name); ("MODULE_TYPE", "DXE_DRIVER")] libs [].

Definition library (name cls : string) (libs : list string) : InfParser :=
  inf_file [("BASE_NAME", name); ("MODULE_TYPE", "BASE");
            ("LIBRARY_CLASS", cls)] libs [].

(** One component whose two libraries both need a third one. *)
Definition diamond_files : list (string * InfParser) :=
  [("Pkg/Comp.inf", driver "Comp" ["ClsA"; "ClsB"]);
   ("Pkg/LibA.inf", library "LibA" "ClsA" ["ClsD"]);
   ("Pkg/LibB.inf", library "LibB" "ClsB" ["ClsD"]);
   ("Pkg/LibD.inf", library "LibD" "ClsD" [])].

Definition diamond_dsc : DscParser :=
  {| Components := [("Pkg/Comp.inf", "ia32", no_overrides)];
     ScopedLibraryDict :=
       list_to_map [("common.clsa", "Pkg/LibA.inf");
                    ("common.clsb", "Pkg/LibB.inf");
                    ("common.clsd", "Pkg/LibD.inf")] |}.

Definition diamond : Workspace := workspace diamond_files diamond_dsc.

(** A platform description that lists a driver and, as a component of its
    own, a library instance. *)
Definition library_component_files : list (string * InfParser) :=
  [("Pkg/Comp1.inf", driver "Comp1" []);
   ("Pkg/Lib1.inf", library "Lib1" "TestCls" [])].

Definition library_component_dsc : DscParser :=
  {| Components := [("Pkg/Comp1.inf", "ia32", no_overrides);
                    ("Pkg/Lib1.inf", "ia32", no_overrides)];
     ScopedLibraryDict := list_to_map [("common.testcls", "Pkg/Lib1.inf")] |}.

Definition library_component : Workspace :=
  workspace library_component_files library_component_dsc.

(** A generator that writes one junction row and then raises. *)
Definition Failing : TableGenerator :=
  {| class_name := "Failing";
     create_tables := mret tt;
     parse :=
       _ ← INSERT_JUNCTION_ROW "failing" (SInt 1) "failing" (SInt 2);
       lift (Raise (RuntimeError "failed")) |}.

(** A generator that writes one junction row. *)
Definition Succeeding : TableGenerator :=
  {| class_name := "Succeeding";
     create_tables := mret tt;
     parse := INSERT_JUNCTION_ROW "succeeding" (SInt 1) "succeeding" (SInt 2) |}.

Definition empty_store : Store :=
  {| environment := None; instanced_inf := None; instanced_inf_seq := 0;
     junction := None; other_tables := ∅ |}.

(** A component declared by its absolute path, with one library. *)
Definition absolute_component_files : list (string * InfParser) :=
  [("/ws/Pkg/Comp.inf", driver "Comp" ["ClsA"]);
   ("Pkg/LibA.inf", library "LibA" "ClsA" [])].

Definition absolute_component_dsc : DscParser :=
  {| Components := [("/ws/Pkg/Comp.inf", "ia32", no_overrides)];
     ScopedLibraryDict := list_to_map [("common.clsa", "Pkg/LibA.inf")] |}.

Definition absolute_component : Workspace :=
  workspace absolute_component_files absolute_component_dsc.

(** Two components that link the same library instance. *)
Definition shared_library_files : list (string * InfParser) :=
  [("Pkg/Comp1.inf", driver "Comp1" ["ClsA"]);
   ("Pkg/Comp2.inf", driver "Comp2" ["ClsA"]);
   ("Pkg/LibA.inf", library "LibA" "ClsA" [])].

Definition shared_library_dsc : DscParser :=
  {| Components := [("Pkg/Comp1.inf", "ia32", no_overrides);
                    ("Pkg/Comp2.inf", "ia32", no_overrides)];
     ScopedLibraryDict := list_to_map [("common.clsa", "Pkg/LibA.inf")] |}.

Definition shared_library : Workspace :=
  workspace shared_library_files shared_library_dsc.

(** A driver that needs a library class nothing is mapped to. *)
Definition missing_library_files : list (string * InfParser) :=
  [("Pkg/TestDriver1.inf",
    inf_file [("BASE_NAME", "TestDriver1"); ("MODULE_TYPE", "PEIM")]
      ["TestCls"] [])].

Definition missing_library_dsc : DscParser :=
  {| Components := [("Pkg/TestDriver1.inf", "x64", no_overrides)];
     ScopedLibraryDict := ∅ |}.

Definition missing_library : Workspace :=
  workspace missing_library_files missing_library_dsc.

End Demo.

(** ** Vocabulary for the effect of a generator on the store *)




(** What the next id of [instanced_inf] is one more than, and that the ids
    of the next [k] rows are there to be given out. *)
Definition last_id (s : Store) : Z :=
  Z.max (last_rowid (default [] (instanced_inf s))) (instanced_inf_seq s).

Definition room_for (k : nat) (s : Store) : Prop :=
  (last_id s + Z.of_nat k ≤ MAX_ROWID)%Z.

(** The counter of [instanced_inf] after [k] rows have been added. *)
Definition counter_after (s : Store) (k : nat) : Z :=
  match k with
  | O => instanced_inf_seq s
  | S _ => (last_id s + Z.of_nat k)%Z
  end.

(** The two tables [InstancedInfTable.parse] writes to exist. *)
Definition tables_exist (s : Store) : Prop :=
  is_Some (instanced_inf s) ∧ is_Some (junction s).

(** What a lookup that finds no row makes of [fetchone()[0]]. *)
Definition none_not_subscriptable : exn :=
  TypeError "'NoneType' object is not subscriptable".

(** ** [InstancedFvTable] *)

(** What [FdfParser] exposes after [ParseFile]: for every firmware volume,
    in the order of the dictionary [FVs], its name and [FVs[fv]["Infs"]]. *)
Record FdfParser : Type := {
  FVs : list (string * list string)
}.

(** The collaborators of [InstancedFvTable]: those of [InstancedInfTable],
    the FDF parser, and [str(Path(p))] of the host platform. *)
Record FdfWorkspace : Type := {
  fdf_workspace : Workspace;
  FdfP : gmap string string → string → exn + FdfParser;
  path_str : string → string
}.

Record InstancedFvTable : Type := {
  fv_env : gmap string string;
  fv_dsc : string;
  fv_fdf : string;
  fv_arch : list string;
  fv_target : string
}.

(** [InstancedFvTable.__init__], applied to its keyword arguments. *)
Definition InstancedFvTable_init (kwargs : gmap string (gmap string string))
    : res InstancedFvTable :=
  env ← getitem kwargs "env";
  dsc ← getitem env "ACTIVE_PLATFORM";
  fdf ← getitem env "FLASH_DEFINITION";
  target_arch ← getitem env "TARGET_ARCH";
  let arch := split " " target_arch in
  target ← getitem env "TARGET";
  Ok {| fv_env := env; fv_dsc := dsc; fv_fdf := fdf; fv_arch := arch;
        fv_target := target |}.

(** What follows the first [sep] in [s], if there is one. *)
Fixpoint after_first (sep : ascii) (s : string) : option string :=
  match s with
  | EmptyString => None
  | String c s' => if decide (c = sep) then Some s' else after_first sep s'
  end.

(** [s.split(sep, 1)[-1]] for a one-character separator. *)
Definition split_once_last (sep : ascii) (s : string) : string :=
  default s (after_first sep s).

(** Lines 66-70 of [instanced_fv_table.py]: the path recorded for one entry
    of [Infs]. *)
Definition fv_inf (w : FdfWorkspace) (inf : string) : res string :=
  let inf :=
    if String.prefix "ruleoverride" (lower inf)
    then split_once_last " " inf else inf in
  inf ← (if is_absolute (fdf_workspace w) inf
         then match GetEdk2RelativePathFromAbsolutePath (fdf_workspace w) inf
              with
              | Some rel => Ok (path_str w rel)
              | None =>
                  Raise (TypeError
                    "expected str, bytes or os.PathLike object, not NoneType")
              end
         else Ok inf);
  Ok (as_posix (fdf_workspace w) inf).

Definition set_other_tables (t : gmap string (list (list sqlval)))
    (s : Store) : Store :=
  {| environment := environment s; instanced_inf := instanced_inf s;
     instanced_inf_seq := instanced_inf_seq s; junction := junction s;
     other_tables := t |}.

(** The AUTOINCREMENT counters of the tables kept in [other_tables] are the
    rows [(name, seq)] of sqlite's table [sqlite_sequence]. *)
Fixpoint sequence_lookup (name : string) (rows : list (list sqlval))
    : option Z :=
  match rows with
  | [] => None
  | [SText n; SInt k] :: rest =>
      if decide (n = name) then Some k else sequence_lookup name rest
  | _ :: rest => sequence_lookup name rest
  end.

Fixpoint sequence_update (name : string) (k : Z) (rows : list (list sqlval))
    : list (list sqlval) :=
  match rows with
  | [] => [[SText name; SInt k]]
  | [SText n; SInt k'] :: rest =>
      if decide (n = name) then [SText n; SInt k] :: rest
      else [SText n; SInt k'] :: sequence_update name k rest
  | r :: rest => r :: sequence_update name k rest
  end.

(** The id column of a row. *)
Definition rowid (row : list sqlval) : Z :=
  match row with
  | SInt n :: _ => n
  | _ => 0
  end.

Definition largest_rowid (rows : list (list sqlval)) : Z :=
  foldr (λ row m, Z.max (rowid row) m) 0%Z rows.

(** [execute(CREATE_INSTANCED_FV_TABLE)] *)
Definition CREATE_INSTANCED_FV_TABLE : db unit := λ s,
  match other_tables s !! "instanced_fv" with
  | Some _ => (Ok tt, s)
  | None => (Ok tt, set_other_tables (<["instanced_fv" := []]> (other_tables s)) s)
  end.

(** [execute(INSERT_INSTANCED_FV_ROW, (env, fv_name, fdf, path))] followed by
    [lastrowid]: the new id is one more than the larger of the largest id in
    the table and the table's counter, and there is none once either has
    reached the last rowid. *)
Definition INSERT_INSTANCED_FV_ROW (env : Z) (fv_name fdf path : string)
    : db Z := λ s,
  match other_tables s !! "instanced_fv" with
  | Some rows =>
      let sequences := default [] (other_tables s !! "sqlite_sequence") in
      let last := Z.max (largest_rowid rows)
                    (default 0%Z (sequence_lookup "instanced_fv" sequences)) in
      if (MAX_ROWID <=? last)%Z
      then (Raise (OperationalError "database or disk is full"), s)
      else
        let n := (1 + last)%Z in
        (Ok n,
         set_other_tables
           (<["sqlite_sequence" := sequence_update "instanced_fv" n sequences]>
              (<["instanced_fv" :=
                   rows ++ [[SInt n; SInt env; SText fv_name; SText fdf;
                             SText path]]]> (other_tables s)))
           s)
  | None => (Raise (OperationalError "no such table: instanced_fv"), s)
  end.

Section InstancedFv.

Variable w : FdfWorkspace.
Variable self : InstancedFvTable.

(** Lines 62-75: one firmware volume. *)
Definition add_fv (env : Z) (fv : string * list string) : db unit :=
  inf_list ← lift (mapM (fv_inf w) fv.2);
  fv_id ← INSERT_INSTANCED_FV_ROW env fv.1
            (path_name (fdf_workspace w) (fv_fdf self)) (fv_fdf self);
  for_each inf_list (λ inf,
    INSERT_JUNCTION_ROW "instanced_fv" (SInt fv_id) "inf" (SText inf)).

(** [InstancedFvTable.parse] *)
Definition InstancedFvTable_parse : db unit :=
  fdfp ← lift (call (FdfP w (fv_env self) (fv_fdf self)));
  row ← SELECT_LATEST_ENVIRONMENT;
  env ← lift (subscript0 row);
  for_each (FVs fdfp) (add_fv env).

Definition InstancedFvTable_generator : TableGenerator :=
  {| class_name := "InstancedFvTable";
     create_tables := CREATE_INSTANCED_FV_TABLE;
     parse := InstancedFvTable_parse |}.

End InstancedFv.

(** The junction rows written for a firmware volume with row id [fv_id] and
    recorded paths [infs]. *)
Definition fv_edges (fv_id : Z) (infs : list string) : list junction_row :=
  map (λ inf, {| table1 := "instanced_fv"; key1 := SInt fv_id;
                 table2 := "inf"; key2 := SText inf |}) infs.

(** The rows of [instanced_fv]. *)
Definition fv_rows (s : Store) : list (list sqlval) :=
  default [] (other_tables s !! "instanced_fv").

(** What the next id of [instanced_fv] is one more than, and that the ids
    of the next [k] rows are there to be given out. *)
Definition last_fv_id (s : Store) : Z :=
  Z.max (largest_rowid (default [] (other_tables s !! "instanced_fv")))
    (default 0%Z (sequence_lookup "instanced_fv"
                    (default [] (other_tables s !! "sqlite_sequence")))).

Definition room_for_fv (k : nat) (s : Store) : Prop :=
  (last_fv_id s + Z.of_nat k ≤ MAX_ROWID)%Z.

(** The row [INSERT_INSTANCED_FV_ROW] writes under id [n]. *)
Definition fv_row (env n : Z) (fv_name fdf path : string) : list sqlval :=
  [SInt n; SInt env; SText fv_name; SText fdf; SText path].

(** ** [InfTable] *)

(** [s.find(sub)]: the index of the first occurrence of [sub] in [s], or -1. *)
Fixpoint find_index (sub s : string) : option nat :=
  if String.prefix sub s then Some 0
  else match s with
       | EmptyString => None
       | String _ s' => S <$> find_index sub s'
       end.

Definition find (sub s : string) : Z :=
  match find_index sub s with
  | Some i => Z.of_nat i
  | None => (-1)%Z
  end.

(** [sub in s] *)
Definition contains (sub s : string) : bool :=
  bool_decide (is_Some (find_index sub s)).

Fixpoint string_drop (n : nat) (s : string) : string :=
  match n, s with
  | O, _ => s
  | S n', String _ s' => string_drop n' s'
  | S _, EmptyString => EmptyString
  end.

(** [s[i:]], for an index of either sign. *)
Definition slice_from (i : Z) (s : string) : string :=
  let start :=
    if (i <? 0)%Z then Z.max 0 (Z.of_nat (String.length s) + i) else i in
  string_drop (Z.to_nat start) s.

(** A submodule of the repository, as [git] reports it. *)
Record Submodule : Type := { abspath : string; submodule_name : string }.

(** What [InfTable] reads off [InfParser] after [ParseFile], besides the
    fields [InstancedInfTable] reads. *)
Record InfDocument : Type := {
  document : InfParser;
  document_Path : string;
  LibraryClass : string;
  SupportedPhases : list string;
  Binaries : list string;
  LibrariesUsed : list string;
  ProtocolsUsed : list string;
  GuidsUsed : list string;
  PpisUsed : list string
}.

(** The collaborators of [InfTable]: the path operations of the workspace,
    the INF parser, [Edk2Path.GetContainingPackage], the files
    [ws.glob("**/*.inf")] yields and whether one is under [ws / "Build"],
    and the submodules of [git.Repo(ws)], [None] when the workspace is not
    a repository. *)
Record InfWorkspace : Type := {
  inf_workspace : Workspace;
  ParseFile : string → exn + InfDocument;
  GetContainingPackage : string → option string;
  glob_inf : list string;
  under_build : string → bool;
  repo : option (list Submodule)
}.

(** The dictionary [_parse_file] returns. *)
Record inf_data : Type := {
  data_GUID : string;
  data_LIBRARY_CLASS : string;
  data_PATH : string;
  data_PHASES : list string;
  data_SOURCES_USED : list string;
  data_BINARIES_USED : list string;
  data_LIBRARIES_USED : list string;
  data_PROTOCOLS_USED : list string;
  data_GUIDS_USED : list string;
  data_PPIS_USED : list string;
  data_PCDS_USED : list string;
  data_REPO : string
}.

(** Lines 98-103 of [inf_table.py]: the loop over the submodules. *)
Fixpoint containing_repo (submodules : list Submodule) (filename : string)
    : string :=
  match submodules with
  | [] => "BASE"
  | submodule :: rest =>
      if contains (abspath submodule) filename then submodule_name submodule
      else containing_repo rest filename
  end.

(** [InfTable._parse_file] *)
Definition _parse_file (w : InfWorkspace) (filename : string) : res inf_data :=
  inf_parser ← call (ParseFile w filename);
  let containing_repo :=
    match repo w with
    | Some submodules => containing_repo submodules filename
    | None => "BASE"
    end in
  let pkg := GetContainingPackage w (document_Path inf_parser) in
  let path := as_posix (inf_workspace w) (document_Path inf_parser) in
  let path :=
    match pkg with
    | Some (String c k) => slice_from (find (String c k) path) path
    | Some EmptyString | None => path
    end in
  Ok {| data_GUID := default "" (Dict (document inf_parser) !! "FILE_GUID");
        data_LIBRARY_CLASS := LibraryClass inf_parser;
        data_PATH := as_posix (inf_workspace w) path;
        data_PHASES := SupportedPhases inf_parser;
        data_SOURCES_USED := Sources (document inf_parser);
        data_BINARIES_USED := Binaries inf_parser;
        data_LIBRARIES_USED := LibrariesUsed inf_parser;
        data_PROTOCOLS_USED := ProtocolsUsed inf_parser;
        data_GUIDS_USED := GuidsUsed inf_parser;
        data_PPIS_USED := PpisUsed inf_parser;
        data_PCDS_USED := PcdsUsed (document inf_parser);
        data_REPO := containing_repo |}.

(** [execute(CREATE_INF_TABLE)] and [execute(CREATE_LIBRARY_CLASS_TABLE)] *)
Definition create_if_absent (name : string) : db unit := λ s,
  match other_tables s !! name with
  | Some _ => (Ok tt, s)
  | None => (Ok tt, set_other_tables (<[name := []]> (other_tables s)) s)
  end.

Definition CREATE_INF_TABLE : db unit := create_if_absent "inf".

Definition CREATE_LIBRARY_CLASS_TABLE : db unit :=
  create_if_absent "library_class".

(** [execute(INSERT_INF_ROW, (path, guid, library_class, repo))]: [path] is
    the primary key, and [INSERT OR REPLACE] removes the row that has it
    before the new one is added. *)
Definition INSERT_INF_ROW (path guid library_class repo : string)
    : db unit := λ s,
  match other_tables s !! "inf" with
  | Some rows =>
      (Ok tt,
       set_other_tables
         (<["inf" :=
              filter (λ row, head row ≠ Some (SText path)) rows
              ++ [[SText path; SText guid; SText library_class; SText repo]]]>
            (other_tables s))
         s)
  | None => (Raise (OperationalError "no such table: inf"), s)
  end.

(** Lines 84-92 of [inf_table.py]. *)
Definition add_inf_entries (inf_entries : list inf_data) : db unit :=
  for_each inf_entries (λ inf_entry,
    _ ← INSERT_INF_ROW (data_PATH inf_entry) (data_GUID inf_entry)
          (data_LIBRARY_CLASS inf_entry) (data_REPO inf_entry);
    _ ← for_each (data_LIBRARIES_USED inf_entry) (λ library,
          INSERT_JUNCTION_ROW "inf" (SText (data_PATH inf_entry))
            "library_class" (SText library));
    for_each (data_SOURCES_USED inf_entry) (λ source,
      INSERT_JUNCTION_ROW "inf" (SText (data_PATH inf_entry))
        "source" (SText source))).

(** [InfTable.parse].  [joblib] returns the results in the order of the
    files; the calls of [_parse_file] are made in that order here. *)
Definition InfTable_parse (w : InfWorkspace) : db unit :=
  let files := filter (λ file, under_build w file = false) (glob_inf w) in
  inf_entries ← lift (mapM (_parse_file w) files);
  add_inf_entries inf_entries.

Definition InfTable_generator (w : InfWorkspace) : TableGenerator :=
  {| class_name := "InfTable";
     create_tables := (_ ← CREATE_INF_TABLE; CREATE_LIBRARY_CLASS_TABLE);
     parse := InfTable_parse w |}.

(** The row and the junction rows written for one entry. *)
Definition inf_row (e : inf_data) : list sqlval :=
  [SText (data_PATH e); SText (data_GUID e); SText (data_LIBRARY_CLASS e);
   SText (data_REPO e)].

Definition inf_edges (e : inf_data) : list junction_row :=
  map (λ library, {| table1 := "inf"; key1 := SText (data_PATH e);
                     table2 := "library_class"; key2 := SText library |})
      (data_LIBRARIES_USED e)
  ++ map (λ source, {| table1 := "inf"; key1 := SText (data_PATH e);
                       table2 := "source"; key2 := SText source |})
       (data_SOURCES_USED e).

(** The rows of [inf]. *)
Definition inf_rows (s : Store) : list (list sqlval) :=
  default [] (other_tables s !! "inf").

(** The key of an [inf] row, and the rows after [INSERT OR REPLACE] of the
    entries one after the other. *)
Definition inf_key (e : inf_data) : option sqlval := Some (SText (data_PATH e)).

Definition replaced (rows : list (list sqlval)) (entries : list inf_data)
    : list (list sqlval) :=
  foldl (λ rows e, filter (λ row, head row ≠ inf_key e) rows ++ [inf_row e])
        rows entries.

(** The files [InfTable.parse] hands to [_parse_file]. *)
Definition files_to_parse (w : InfWorkspace) : list string :=
  filter (λ file, under_build w file = false) (glob_inf w).

(** The store after the statements of lines 84-92 of [inf_table.py] for
    [entries], run on [s]. *)
Definition with_inf_entries (entries : list inf_data) (s : Store) : Store :=
  set_junction (Some (default [] (junction s) ++ flat_map inf_edges entries))
    (set_other_tables
       (<["inf" := replaced (inf_rows s) entries]> (other_tables s)) s).

(** ** Further workspaces *)

Module Cases.

(** A library mapped by its absolute path. *)
Definition absolute_library_files : list (string * InfParser) :=
  [("Pkg/Comp.inf", Demo.driver "Comp" ["ClsA"]);
   ("/ws/Pkg/LibA.inf", Demo.library "LibA" "ClsA" [])].

Definition absolute_library_dsc : DscParser :=
  {| Components := [("Pkg/Comp.inf", "ia32", Demo.no_overrides)];
     ScopedLibraryDict := list_to_map [("common.clsa", "/ws/Pkg/LibA.inf")] |}.

Definition absolute_library : Workspace :=
  Demo.workspace absolute_library_files absolute_library_dsc.

(** A component declared by an absolute path outside the workspace. *)
Definition outside_component_files : list (string * InfParser) :=
  [("/elsewhere/Comp.inf", Demo.driver "Comp" [])].

Definition outside_component_dsc : DscParser :=
  {| Components := [("/elsewhere/Comp.inf", "ia32", Demo.no_overrides)];
     ScopedLibraryDict := ∅ |}.

Definition outside_component : Workspace :=
  Demo.workspace outside_component_files outside_component_dsc.

(** A platform description whose only component is a library instance. *)
Definition only_library_dsc : DscParser :=
  {| Components := [("Pkg/Lib1.inf", "ia32", Demo.no_overrides)];
     ScopedLibraryDict := list_to_map [("common.testcls", "Pkg/Lib1.inf")] |}.

Definition only_library : Workspace :=
  Demo.workspace Demo.library_component_files only_library_dsc.

(** A driver whose INF has no module type and needs a library class that an
    override names. *)
Definition untyped_driver : InfParser :=
  Demo.inf_file [("BASE_NAME", "Untyped")] ["ClsA"] [].

Definition with_override : override_dict :=
  {| ov_classes := {[ "clsa" := "Pkg/LibA.inf" ]}; ov_NULL := Some [] |}.

(** A component with two NULL library instances. *)
Definition null_files : list (string * InfParser) :=
  [("Pkg/Comp.inf", Demo.driver "Comp" []);
   ("Pkg/Null1.inf", Demo.library "Null1" "NULL" []);
   ("Pkg/Null2.inf", Demo.library "Null2" "NULL" [])].

Definition null_overrides : override_dict :=
  {| ov_classes := ∅; ov_NULL := Some ["Pkg/Null1.inf"; "Pkg/Null2.inf"] |}.

Definition null_dsc : DscParser :=
  {| Components := [("Pkg/Comp.inf", "ia32", null_overrides)];
     ScopedLibraryDict := ∅ |}.

Definition null_workspace : Workspace := Demo.workspace null_files null_dsc.

(** A store with three environment rows, the second being the latest. *)
Definition three_environments : list environment_row :=
  [{| env_id := 1; env_date := 100 |}; {| env_id := 2; env_date := 300 |};
   {| env_id := 3; env_date := 200 |}].

Definition three_environments_store : Store :=
  {| environment := Some three_environments;
     instanced_inf := Some []; instanced_inf_seq := 0;
     junction := Some []; other_tables := ∅ |}.

(** A store with an environment row and no table of this generator. *)
Definition no_tables_store : Store :=
  {| environment := Some [{| env_id := 1; env_date := 100 |}];
     instanced_inf := None; instanced_inf_seq := 0; junction := None;
     other_tables := ∅ |}.

(** A flash description with two firmware volumes. *)
Definition flash : FdfParser :=
  {| FVs := [("FVMAIN", ["Pkg/A.inf"; "RuleOverride=ACPITABLE Pkg/B.inf";
                         "/ws/Pkg/C.inf"]);
             ("FVSEC", ["Pkg/Sec.inf"])] |}.

Definition flash_workspace : FdfWorkspace :=
  {| fdf_workspace := Demo.diamond; FdfP := λ _ _, inr flash;
     path_str := λ p, p |}.

Definition fv_table : InstancedFvTable :=
  {| fv_env := ∅; fv_dsc := "Pkg/Test.dsc"; fv_fdf := "Pkg/Test.fdf";
     fv_arch := ["IA32"]; fv_target := "DEBUG" |}.

Definition flash_store : Store :=
  {| environment := Some [{| env_id := 1; env_date := 100 |}];
     instanced_inf := None; instanced_inf_seq := 0; junction := Some [];
     other_tables := {[ "instanced_fv" := [] ]} |}.

(** A workspace with a package of its own, a package in a submodule, a
    package under a directory whose name starts with the package's name,
    and a build output. *)
Definition inf_document (path guid cls : string) (libs sources : list string)
    : InfDocument :=
  {| document := Demo.inf_file [("FILE_GUID", guid)] libs sources;
     document_Path := path; LibraryClass := cls; SupportedPhases := [];
     Binaries := []; LibrariesUsed := libs; ProtocolsUsed := [];
     GuidsUsed := []; PpisUsed := [] |}.

Definition inf_tree_documents : list (string * InfDocument) :=
  [("/ws/Pkg/Comp.inf",
    inf_document "/ws/Pkg/Comp.inf" "guid-comp" "" ["ClsA"] ["Comp.c"]);
   ("/ws/Build/Pkg/Comp.inf",
    inf_document "/ws/Build/Pkg/Comp.inf" "guid-build" "" [] []);
   ("/ws/Sub/SubPkg/Lib.inf",
    inf_document "/ws/Sub/SubPkg/Lib.inf" "guid-lib" "ClsA" [] ["Lib.c"]);
   ("/ws/MdePkg-dev/MdePkg/Lib.inf",
    inf_document "/ws/MdePkg-dev/MdePkg/Lib.inf" "guid-mde" "ClsM" [] [])].

Definition inf_tree_package (path : string) : option string :=
  if String.prefix "/ws/Pkg/" path then Some "Pkg"
  else if String.prefix "/ws/Sub/SubPkg/" path then Some "SubPkg"
  else if String.prefix "/ws/MdePkg-dev/MdePkg/" path then Some "MdePkg"
  else None.

Definition inf_tree : InfWorkspace :=
  {| inf_workspace := Demo.diamond;
     ParseFile := λ file,
       match (list_to_map inf_tree_documents : gmap string InfDocument)
             !! file with
       | Some d => inr d
       | None => inl (ExternalError file)
       end;
     GetContainingPackage := inf_tree_package;
     glob_inf := ["/ws/Pkg/Comp.inf"; "/ws/Build/Pkg/Comp.inf";
                  "/ws/Sub/SubPkg/Lib.inf"];
     under_build := String.prefix "/ws/Build/";
     repo := Some [{| abspath := "/ws/Sub"; submodule_name := "Sub" |}] |}.

(** The same workspace with one more file, which cannot be parsed. *)
Definition broken_tree : InfWorkspace :=
  {| inf_workspace := Demo.diamond;
     ParseFile := ParseFile inf_tree;
     GetContainingPackage := inf_tree_package;
     glob_inf := ["/ws/Pkg/Comp.inf"; "/ws/Pkg/Broken.inf";
                  "/ws/Sub/SubPkg/Lib.inf"];
     under_build := String.prefix "/ws/Build/";
     repo := None |}.

(** What [_parse_file] returns for the files of [inf_tree] that are read. *)
Definition inf_tree_entries : list inf_data :=
  Eval vm_compute in
    match mapM (_parse_file inf_tree) (files_to_parse inf_tree) with
    | Ok entries => entries
    | _ => []
    end.

(** A database of an earlier run: a row of a file that is still there, with
    another GUID, and a row of a file that is gone. *)
Definition stale_store : Store :=
  {| environment := None; instanced_inf := None; instanced_inf_seq := 0;
     junction := Some [];
     other_tables :=
       {[ "inf" := [[SText "Pkg/Comp.inf"; SText "guid-old"; SText "";
                     SText "BASE"];
                    [SText "Pkg/Gone.inf"; SText "guid-gone"; SText "";
                     SText "BASE"]] ]} |}.

(** Two components declared by absolute paths that link the same library. *)
Definition two_absolute_components_files : list (string * InfParser) :=
  [("/ws/Pkg/Comp1.inf", Demo.driver "Comp1" ["ClsA"]);
   ("/ws/Pkg/Comp2.inf", Demo.driver "Comp2" ["ClsA"]);
   ("Pkg/LibA.inf", Demo.library "LibA" "ClsA" [])].

Definition two_absolute_components_dsc : DscParser :=
  {| Components := [("/ws/Pkg/Comp1.inf", "ia32", Demo.no_overrides);
                    ("/ws/Pkg/Comp2.inf", "ia32", Demo.no_overrides)];
     ScopedLibraryDict := list_to_map [("common.clsa", "Pkg/LibA.inf")] |}.

Definition two_absolute_components : Workspace :=
  Demo.workspace two_absolute_components_files two_absolute_components_dsc.

(** A store whose table [instanced_inf] has one id left to give out. *)
Definition nearly_full_store : Store :=
  {| environment := Some [{| env_id := 1; env_date := 100 |}];
     instanced_inf := Some []; instanced_inf_seq := MAX_ROWID - 1;
     junction := Some []; other_tables := ∅ |}.

End Cases.

(** * Properties *)

(** ** Splitting a scope string *)

Lemma split_dotless sep s : occurs sep s = false → split sep s = [s].
Proof.
  induction s as [|c s IH]; simpl; [done|].
  case_decide; [done|]. intros Hs. by rewrite IH.
Qed.

Lemma split_app_sep sep a b :
  occurs sep a = false →
  split sep (a +:+ String sep b) = a :: split sep b.
Proof.
  induction a as [|c a IH]; simpl.
  - intros _. by rewrite decide_True.
  - case_decide; [done|]. intros Hs. by rewrite IH.
Qed.

Lemma unpack_scope_joined arch module :
  occurs "." arch = false → occurs "." module = false →
  unpack_scope (arch +:+ "." +:+ module) = Ok (arch, module).
Proof.
  intros Ha Hm. unfold unpack_scope.
  change (arch +:+ "." +:+ module) with (arch +:+ String "." module).
  by rewrite split_app_sep, split_dotless.
Qed.

(** ** Lower-cased class names and the [NULL] key *)

Lemma lower_char_not_N c : lower_char c ≠ "N"%char.
Proof. destruct c as [[] [] [] [] [] [] [] []]; vm_compute; discriminate. Qed.

(** The class names [_parse_inf_recursively] looks up are never the key
    ["NULL"] of an override block. *)
Lemma lower_not_NULL s : lower s ≠ "NULL".
Proof.
  destruct s as [|c s]; simpl; [done|].
  intros [= Hc _]. by apply lower_char_not_N in Hc.
Qed.

(** ** Inverting the result monads *)

Lemma bind_Ok {A B} (m : res A) (k : A → res B) (b : B) :
  m ≫= k = Ok b → ∃ a, m = Ok a ∧ k a = Ok b.
Proof. destruct m as [a| |]; simpl; [eauto | done | done]. Qed.

Lemma bind_not_OutOfFuel {A B} (m : res A) (k : A → res B) :
  m ≠ OutOfFuel → (∀ a, m = Ok a → k a ≠ OutOfFuel) → m ≫= k ≠ OutOfFuel.
Proof. destruct m as [a| |]; simpl; [eauto | done | done]. Qed.

Lemma mapM_Ok {A B} (f : A → res B) (xs : list A) (ys : list B) :
  mapM f xs = Ok ys → Forall2 (λ x y, f x = Ok y) xs ys.
Proof.
  revert ys. induction xs as [|x xs IH]; simpl; intros ys Hm.
  - injection Hm as <-. constructor.
  - apply bind_Ok in Hm as (y & Hy & Hm).
    apply bind_Ok in Hm as (ys' & Hys & Hm).
    injection Hm as <-. constructor; auto.
Qed.

Lemma mapM_raise {A B} (f : A → res B) before x after e :
  Forall (λ x, ∃ y, f x = Ok y) before → f x = Raise e →
  mapM f (before ++ x :: after) = Raise e.
Proof.
  intros Hbefore Hx. induction Hbefore as [|z zs [y Hy] _ IH]; simpl.
  - by rewrite Hx.
  - rewrite Hy. simpl. by rewrite IH.
Qed.

Lemma mapM_not_OutOfFuel {A B} (f : A → res B) (xs : list A) :
  (∀ x, f x ≠ OutOfFuel) → mapM f xs ≠ OutOfFuel.
Proof.
  intros Hf. induction xs as [|x xs IH]; simpl; [done|].
  apply bind_not_OutOfFuel; [done|]. intros y _.
  apply bind_not_OutOfFuel; [done|]. by intros.
Qed.

Ltac inv_bind H :=
  repeat match type of H with
  | _ ≫= _ = Ok _ =>
      let a := fresh "a" in let Ha := fresh "Ha" in
      apply bind_Ok in H as (a & Ha & H)
  end.

(** ** C1: the priority chain of [_lib_to_instance] *)

(** C1.  In scope [ARCH.MODULETYPE] a library class resolves to the
    per-component override when there is one; otherwise to the entry of the
    scoped library map under [ARCH.MODULETYPE.class], otherwise under
    [common.MODULETYPE.class], otherwise under [ARCH.class], otherwise under
    [common.class]: the first key present wins, and each absent key falls
    through to the next one in this order. *)
Theorem C1_priority_chain (dsc arch module cls : string)
    (library_dict : gmap string string) (overrides : override_dict) :
  occurs "." arch = false → occurs "." module = false →
  let resolved :=
    _lib_to_instance dsc cls (arch +:+ "." +:+ module) library_dict overrides in
  let k1 := arch +:+ "." +:+ module +:+ "." +:+ cls in
  let k2 := "common." +:+ module +:+ "." +:+ cls in
  let k3 := arch +:+ "." +:+ cls in
  let k4 := "common." +:+ cls in
  (∀ inst, ov_classes overrides !! cls = Some inst → resolved = Ok inst) ∧
  (∀ inst, ov_classes overrides !! cls = None →
     library_dict !! k1 = Some inst → resolved = Ok inst) ∧
  (∀ inst, ov_classes overrides !! cls = None → library_dict !! k1 = None →
     library_dict !! k2 = Some inst → resolved = Ok inst) ∧
  (∀ inst, ov_classes overrides !! cls = None → library_dict !! k1 = None →
     library_dict !! k2 = None →
     library_dict !! k3 = Some inst → resolved = Ok inst) ∧
  (∀ inst, ov_classes overrides !! cls = None → library_dict !! k1 = None →
     library_dict !! k2 = None → library_dict !! k3 = None →
     library_dict !! k4 = Some inst → resolved = Ok inst).
Proof.
  intros Ha Hm. cbv zeta. unfold _lib_to_instance.
  rewrite (unpack_scope_joined arch module Ha Hm). simpl.
  repeat split; intros inst; intros; repeat (simplify_option_eq; try done).
Qed.

Lemma C1_priority_chain_witness :
  let library_dict : gmap string string :=
    list_to_map [("common.testcls", "Pkg/Lib1.inf");
                 ("ia32.testcls", "Pkg/Lib2.inf");
                 ("common.peim.testcls", "Pkg/Lib3.inf")] in
  _lib_to_instance "Pkg/Test.dsc" "testcls" "ia32.peim" library_dict
    Demo.no_overrides = Ok "Pkg/Lib3.inf".
Proof.
  intros library_dict.
  apply (proj1 (proj2 (proj2
           (C1_priority_chain "Pkg/Test.dsc" "ia32" "peim" "testcls"
              library_dict Demo.no_overrides eq_refl eq_refl))));
    reflexivity.
Defined.

(** ** The traversal of one component *)

Section TraversalFacts.

Variable ws : Workspace.
Variable self : InstancedInfTable.
Variable component : string.
Variable library_dict : gmap string string.
Variable overrides : override_dict.
Variable scope : string.

Local Abbreviation trav := (traversal ws self component library_dict overrides scope).
Local Abbreviation rec fuel :=
  (λ library visited,
     _parse_inf_recursively ws self fuel library component library_dict
       overrides scope visited).

Lemma traversal_nil visited : trav visited [] [] visited.
Proof.
  repeat split.
  - by rewrite app_nil_r.
  - constructor.
  - intros n Hn. by apply elem_of_nil in Hn.
  - constructor.
  - intros n libs l Hn. by apply elem_of_nil in Hn.
Qed.

Lemma traversal_visited_mono visited nodes rows visited' :
  trav visited nodes rows visited' → visited ⊆ visited'.
Proof.
  intros (Hp & _) x Hx. rewrite Hp. apply elem_of_app. by left.
Qed.

Lemma traversal_app v n1 r1 v1 n2 r2 v2 :
  trav v n1 r1 v1 → trav v1 n2 r2 v2 → trav v (n1 ++ n2) (r1 ++ r2) v2.
Proof.
  intros (Hp1 & Hnd1 & Hfresh1 & Hrec1 & Hcl1)
         (Hp2 & Hnd2 & Hfresh2 & Hrec2 & Hcl2).
  repeat split.
  - by rewrite Hp2, Hp1, (assoc_L (++)).
  - apply NoDup_app. repeat split; [done| |done].
    intros x Hx1 Hx2. apply (Hfresh2 x Hx2).
    rewrite Hp1. apply elem_of_app. by right.
  - intros n [Hn|Hn]%elem_of_app; [by apply Hfresh1|].
    intros Hv. apply (Hfresh2 n Hn). rewrite Hp1. apply elem_of_app. by left.
  - by apply Forall2_app.
  - intros n libs l [Hn|Hn]%elem_of_app Hlibs Hl.
    + rewrite Hp2. apply elem_of_app. left. by eapply Hcl1.
    + by eapply Hcl2.
Qed.

(** The root of a call is expanded last. *)
Lemma traversal_snoc visited inf nodes rows visited' e libs :
  inf ∉ visited →
  trav (visited ++ [inf]) nodes rows visited' →
  node_record ws self component library_dict overrides scope inf = Ok e →
  node_libraries ws self library_dict overrides scope inf = Ok libs →
  (∀ l, l ∈ libs → l ∈ visited') →
  trav visited (nodes ++ [inf]) (rows ++ [e]) visited'.
Proof.
  intros Hinf (Hp & Hnd & Hfresh & Hrec & Hcl) He Hlibs Hsub.
  repeat split.
  - rewrite Hp, <- !(assoc_L (++)).
    apply Permutation_app_head, Permutation_app_comm.
  - apply NoDup_app. repeat split; [done| |apply NoDup_singleton].
    intros x Hx ->%list_elem_of_singleton. apply (Hfresh _ Hx).
    apply elem_of_app. right. by apply list_elem_of_singleton.
  - intros n [Hn | ->%list_elem_of_singleton]%elem_of_app; [|done].
    intros Hv. apply (Hfresh n Hn). apply elem_of_app. by left.
  - apply Forall2_app; [done|]. by repeat constructor.
  - intros n libs' l [Hn| ->%list_elem_of_singleton]%elem_of_app Hl' Hl.
    + by eapply Hcl.
    + rewrite Hlibs in Hl'. injection Hl' as <-. by apply Hsub.
Qed.

(** The loop over the library instances, for a [recurse] that performs a
    traversal: the rows are appended to [to_return], and afterwards every
    library instance is visited. *)
Lemma visit_libraries_traversal
    (recurse : string → list string → res (list entry * list string))
    libs to_return visited out visited' :
  (∀ lib v rows v', lib ∉ v → recurse lib v = Ok (rows, v') →
     ∃ nodes, trav v nodes rows v' ∧ lib ∈ v') →
  visit_libraries recurse libs to_return visited = Ok (out, visited') →
  ∃ nodes rows, out = to_return ++ rows ∧ trav visited nodes rows visited' ∧
                ∀ l, l ∈ libs → l ∈ visited'.
Proof.
  intros Hrec. revert to_return visited.
  induction libs as [|lib libs IH]; simpl; intros to_return visited Hloop.
  - injection Hloop as <- <-. exists [], []. rewrite app_nil_r.
    split; [done|]. split; [apply traversal_nil|].
    intros l Hl. by apply elem_of_nil in Hl.
  - case_decide as Hin.
    + apply IH in Hloop as (nodes & rows & -> & Ht & Hsub).
      exists nodes, rows. split; [done|]. split; [done|].
      intros l [->|Hl]%elem_of_cons; [|by apply Hsub].
      by apply (traversal_visited_mono _ _ _ _ Ht).
    + apply bind_Ok in Hloop as ([rows1 v1] & Hcall & Hloop).
      apply Hrec in Hcall as (nodes1 & Ht1 & Hlib1); [|done].
      apply IH in Hloop as (nodes2 & rows2 & -> & Ht2 & Hsub).
      exists (nodes1 ++ nodes2), (rows1 ++ rows2).
      split; [by rewrite (assoc_L (++))|].
      split; [by eapply traversal_app|].
      intros l [->|Hl]%elem_of_cons; [|by apply Hsub].
      by apply (traversal_visited_mono _ _ _ _ Ht2).
Qed.

(** A successful call on an unvisited INF is a traversal that ends with the
    INF itself. *)
Lemma parse_inf_recursively_traversal fuel inf visited rows visited' :
  inf ∉ visited →
  _parse_inf_recursively ws self fuel inf component library_dict overrides
    scope visited = Ok (rows, visited') →
  ∃ nodes, trav visited (nodes ++ [inf]) rows visited' ∧ inf ∈ visited'.
Proof.
  revert inf visited rows visited'.
  induction fuel as [|fuel IH]; intros inf visited rows visited' Hinf Hrun;
    [done|].
  simpl in Hrun.
  apply bind_Ok in Hrun as (infp & Hinfp & Hrun).
  apply bind_Ok in Hrun as (libs & Hlibs & Hrun).
  apply bind_Ok in Hrun as ([to_return v1] & Hloop & Hrun).
  apply bind_Ok in Hrun as (e & He & Hrun).
  injection Hrun as <- <-.
  apply visit_libraries_traversal in Hloop as (nodes & rows & -> & Ht & Hsub).
  - exists nodes. split.
    + eapply traversal_snoc; eauto.
      * unfold node_record. rewrite Hinfp. simpl. rewrite Hlibs. done.
      * unfold node_libraries. rewrite Hinfp. done.
    + apply (traversal_visited_mono _ _ _ _ Ht).
      apply elem_of_app. right. by apply list_elem_of_singleton.
  - intros lib v rows v' Hlib Hcall.
    destruct (IH _ _ _ _ Hlib Hcall) as (nodes & Ht & Hin). eauto.
Qed.

(** *** The recursion depth is bounded *)

Local Abbreviation U := (resolvable library_dict overrides).
Local Abbreviation unvis := (unvisited library_dict overrides).

Lemma lib_to_instance_resolvable dsc cls inst :
  _lib_to_instance dsc cls scope library_dict overrides = Ok inst → inst ∈ U.
Proof.
  unfold _lib_to_instance. intros Hr.
  apply bind_Ok in Hr as ([arch module] & _ & Hr).
  unfold resolvable.
  destruct (ov_classes overrides !! cls) as [i|] eqn:Hov.
  { injection Hr as <-. apply elem_of_app. right. apply elem_of_app. left.
    apply list_elem_of_fmap. exists (cls, i). split; [done|].
    by apply elem_of_map_to_list. }
  apply elem_of_app. left.
  repeat match type of Hr with
  | match library_dict !! ?k with _ => _ end = _ =>
      let Hk := fresh "Hk" in
      destruct (library_dict !! k) as [i|] eqn:Hk;
      [ injection Hr as <-; apply list_elem_of_fmap; exists (k, i);
        split; [done|]; by apply elem_of_map_to_list | ]
  end.
  done.
Qed.

Lemma library_instances_resolvable inf infp libs :
  library_instances_of self inf infp library_dict overrides scope = Ok libs →
  ∀ l, l ∈ libs → l ∈ U.
Proof.
  unfold library_instances_of. intros Hr.
  apply bind_Ok in Hr as (resolved & Hres & Hr).
  apply bind_Ok in Hr as (nulls & Hnulls & Hr).
  injection Hr as <-.
  intros l [Hl|Hl]%elem_of_app.
  - apply mapM_Ok in Hres.
    apply list_elem_of_lookup in Hl as (i & Hi).
    destruct (Forall2_lookup_r _ _ _ _ _ Hres Hi) as (lib & _ & Hlib).
    unfold resolve_library in Hlib.
    apply bind_Ok in Hlib as (cls & _ & Hlib).
    by eapply lib_to_instance_resolvable.
  - apply list_elem_of_filter in Hl as (_ & Hl).
    unfold resolvable. apply elem_of_app. right. apply elem_of_app. right.
    destruct (ov_NULL overrides); [by injection Hnulls as ->|done].
Qed.

Lemma unvisited_mono v v' : v ⊆ v' → unvis v' ≤ unvis v.
Proof.
  intros Hsub. unfold unvisited.
  induction U as [|u us IH]; simpl; [done|].
  rewrite !filter_cons.
  destruct (decide (u ∉ v')) as [Hu'|Hu'].
  - rewrite decide_True by (intros Hu; apply Hu', Hsub, Hu). simpl. lia.
  - case_decide; simpl; lia.
Qed.

Lemma unvisited_snoc v l : l ∈ U → l ∉ v → unvis (v ++ [l]) < unvis v.
Proof.
  unfold unvisited. intros Hl Hv.
  induction U as [|u us IH]; [by apply elem_of_nil in Hl|].
  rewrite !filter_cons.
  assert (Hle : length (filter (λ x, x ∉ v ++ [l]) us)
                ≤ length (filter (λ x, x ∉ v) us)).
  { clear. induction us as [|x xs IHx]; [done|].
    rewrite !filter_cons.
    destruct (decide (x ∉ v ++ [l])) as [Hx|Hx].
    - rewrite decide_True; [simpl; lia|].
      intros Hxv. apply Hx, elem_of_app. by left.
    - case_decide; simpl; lia. }
  destruct (decide (u = l)) as [->|Hne].
  - rewrite decide_False
      by (intros Hn; apply Hn, elem_of_app; right;
          by apply list_elem_of_singleton).
    rewrite decide_True by done. simpl. lia.
  - apply elem_of_cons in Hl as [->|Hl]; [done|].
    specialize (IH Hl).
    destruct (decide (u ∉ v ++ [l])) as [Hu|Hu].
    + rewrite decide_True by set_solver. simpl. lia.
    + case_decide; simpl; lia.
Qed.

Lemma unvisited_le v : unvis v < enough_fuel library_dict overrides.
Proof.
  unfold unvisited, enough_fuel, resolvable.
  eapply Nat.le_lt_trans; [apply length_filter|].
  rewrite !length_app, !length_fmap. lia.
Qed.

Lemma visit_libraries_terminates
    (recurse : string → list string → res (list entry * list string))
    libs to_return visited :
  (∀ lib v, lib ∈ libs → lib ∉ v → visited ⊆ v →
     recurse lib v ≠ OutOfFuel) →
  (∀ lib v rows v', recurse lib v = Ok (rows, v') → v ⊆ v') →
  visit_libraries recurse libs to_return visited ≠ OutOfFuel.
Proof.
  intros Hrec Hmono. revert to_return visited Hrec.
  induction libs as [|lib libs IH]; simpl; intros to_return visited Hrec;
    [done|].
  case_decide as Hin.
  - apply IH. intros l v Hl. apply Hrec. by right.
  - apply bind_not_OutOfFuel.
    + apply Hrec; [by left|done|done].
    + intros [rows v1] Hcall. apply IH.
      intros l v Hl Hlv Hsub. apply Hrec; [by right|done|].
      etrans; [|exact Hsub]. by eapply Hmono.
Qed.

(** With more fuel than there are unvisited resolvable paths, the recursion
    returns or raises. *)
Lemma parse_inf_recursively_terminates fuel inf visited :
  inf ∉ visited → unvis (visited ++ [inf]) < fuel →
  _parse_inf_recursively ws self fuel inf component library_dict overrides
    scope visited ≠ OutOfFuel.
Proof.
  revert inf visited.
  induction fuel as [|fuel IH]; intros inf visited Hinf Hfuel; [lia|].
  simpl.
  apply bind_not_OutOfFuel; [by destruct (InfP ws inf)|]. intros infp Hinfp.
  destruct (library_instances_of self inf infp library_dict overrides scope)
    as [libs| |] eqn:Hlibs; simpl; [|done|].
  - apply bind_not_OutOfFuel.
    + apply visit_libraries_terminates.
      * intros lib v Hlib Hlv Hsub. apply IH; [done|].
        eapply Nat.lt_le_trans;
          [apply unvisited_snoc; [by eapply library_instances_resolvable|done]|].
        pose proof (unvisited_mono _ _ Hsub). lia.
      * intros lib v rows v' Hcall.
        destruct (decide (lib ∈ v)) as [Hlv|Hlv].
        -- destruct fuel as [|fuel']; [done|]. simpl in Hcall.
           inv_bind Hcall. destruct a1 as [tr v1]. inv_bind Hcall.
           injection Hcall as <- <-.
           eapply visit_libraries_traversal in Ha1
             as (nodes & rows' & _ & Ht & _).
           ++ etrans; [|by eapply traversal_visited_mono].
              intros x Hx. apply elem_of_app. by left.
           ++ intros l0 v0 r0 v0' Hl0 Hc0.
              destruct (parse_inf_recursively_traversal _ _ _ _ _ Hl0 Hc0)
                as (nodes0 & Ht0 & Hin0). eauto.
        -- destruct (parse_inf_recursively_traversal _ _ _ _ _ Hlv Hcall)
             as (nodes & Ht & _).
           by eapply traversal_visited_mono.
    + intros [to_return v1] _. simpl.
      apply bind_not_OutOfFuel; [|done].
      unfold make_entry.
      repeat (apply bind_not_OutOfFuel;
              [first [by unfold getitem; case_match
                     |by unfold first; case_match] | intros ? _]).
      done.
  - exfalso. unfold library_instances_of in Hlibs.
    destruct (mapM _ _) as [resolved| |] eqn:Hm; simpl in Hlibs; [|done|].
    + by destruct (ov_NULL overrides).
    + revert Hm. apply mapM_not_OutOfFuel. intros lib.
      unfold resolve_library.
      apply bind_not_OutOfFuel; [by unfold first; case_match|].
      intros cls _. unfold _lib_to_instance.
      apply bind_not_OutOfFuel; [by unfold unpack_scope; repeat case_match|].
      intros [arch module] _. by repeat case_match.
Qed.

(** *** Only the root and resolvable paths are visited *)

Lemma visit_libraries_visited
    (recurse : string → list string → res (list entry * list string))
    libs to_return visited out visited' :
  (∀ l, l ∈ libs → l ∈ U) →
  (∀ lib v rows v', recurse lib v = Ok (rows, v') →
     ∀ x, x ∈ v' → x ∈ v ∨ x = lib ∨ x ∈ U) →
  visit_libraries recurse libs to_return visited = Ok (out, visited') →
  ∀ x, x ∈ visited' → x ∈ visited ∨ x ∈ U.
Proof.
  intros Hlibs Hrec. revert to_return visited.
  induction libs as [|lib libs IH]; simpl; intros to_return visited Hloop.
  - injection Hloop as <- <-. auto.
  - assert (Hlibs' : ∀ l, l ∈ libs → l ∈ U) by (intros l Hl; apply Hlibs; by right).
    case_decide as Hin; [by eapply IH|].
    apply bind_Ok in Hloop as ([rows1 v1] & Hcall & Hloop).
    intros x Hx.
    destruct (IH Hlibs' _ _ Hloop x Hx) as [Hx1|HxU]; [|by right].
    destruct (Hrec _ _ _ _ Hcall x Hx1) as [Hv|[->|HxU]]; [by left| |by right].
    right. apply Hlibs. by left.
Qed.

Lemma parse_inf_recursively_visited fuel inf visited rows visited' :
  _parse_inf_recursively ws self fuel inf component library_dict overrides
    scope visited = Ok (rows, visited') →
  ∀ x, x ∈ visited' → x ∈ visited ∨ x = inf ∨ x ∈ U.
Proof.
  revert inf visited rows visited'.
  induction fuel as [|fuel IH]; intros inf visited rows visited' Hrun; [done|].
  simpl in Hrun.
  apply bind_Ok in Hrun as (infp & Hinfp & Hrun).
  apply bind_Ok in Hrun as (libs & Hlibs & Hrun).
  apply bind_Ok in Hrun as ([to_return v1] & Hloop & Hrun).
  apply bind_Ok in Hrun as (e & He & Hrun).
  injection Hrun as <- <-.
  intros x Hx.
  assert (HlibsU : ∀ l, l ∈ libs → l ∈ U)
    by (by eapply library_instances_resolvable).
  destruct (visit_libraries_visited _ _ _ _ _ _ HlibsU (λ lib v, IH lib v)
              Hloop x Hx) as [Hv|HxU]; [|auto].
  apply elem_of_app in Hv as [Hv| ->%list_elem_of_singleton]; auto.
Qed.

End TraversalFacts.

(** ** What a record says about its INF *)

Lemma node_record_fields ws self component library_dict overrides scope n r :
  node_record ws self component library_dict overrides scope n = Ok r →
  ∃ libs,
    node_libraries ws self library_dict overrides scope n = Ok libs ∧
    DSC r = path_name ws (self_dsc self) ∧
    PATH r = Some (as_posix ws n) ∧
    COMPONENT r = Some (as_posix ws component) ∧
    LIBRARIES_USED r = map (as_posix ws) libs.
Proof.
  unfold node_record, node_libraries. intros Hr.
  apply bind_Ok in Hr as (infp & Hinfp & Hr).
  apply bind_Ok in Hr as (libs & Hlibs & Hr).
  rewrite Hinfp. simpl. rewrite Hlibs.
  unfold make_entry in Hr. inv_bind Hr. injection Hr as <-.
  by exists libs.
Qed.

Lemma records_PATH ws self component library_dict overrides scope nodes rows :
  Forall2 (λ n r, node_record ws self component library_dict overrides scope n
                  = Ok r) nodes rows →
  map PATH rows = map (λ n, Some (as_posix ws n)) nodes.
Proof.
  induction 1 as [|n r nodes rows Hr _ IH]; [done|]. simpl.
  apply node_record_fields in Hr as (libs & _ & _ & -> & _). by rewrite IH.
Qed.

(** ** C3: one record per visited module *)

(** C3.  The traversal of one component, started by [_build_inf_table] with a
    fresh visited list, returns or raises; when it returns, its rows are the
    records of a duplicate-free list of INF paths, which are exactly the paths
    left in the visited list.  The list contains the component and, with every
    INF, all library instances that INF resolves to: a library needed by two
    different libraries of the tree is expanded once and has one record.
    The paths of the rows are pairwise different as long as no two of the
    INF paths have the same posix form. *)
Theorem C3_one_record_per_visited_module (ws : Workspace)
    (self : InstancedInfTable) (inf : string)
    (library_dict : gmap string string) (overrides : override_dict)
    (scope : string) :
  _parse_inf_recursively ws self (enough_fuel library_dict overrides) inf inf
    library_dict overrides scope [] ≠ OutOfFuel ∧
  ∀ fuel rows visited,
    _parse_inf_recursively ws self fuel inf inf library_dict overrides scope []
      = Ok (rows, visited) →
    ∃ nodes,
      NoDup nodes ∧ nodes ≡ₚ visited ∧ inf ∈ nodes ∧
      Forall2 (λ n r, node_record ws self inf library_dict overrides scope n
                      = Ok r) nodes rows ∧
      (∀ n libs l, n ∈ nodes →
         node_libraries ws self library_dict overrides scope n = Ok libs →
         l ∈ libs → l ∈ nodes) ∧
      ((∀ a b, a ∈ nodes → b ∈ nodes → as_posix ws a = as_posix ws b → a = b) →
         NoDup (map PATH rows)).
Proof.
  split.
  - apply parse_inf_recursively_terminates; [apply not_elem_of_nil|].
    apply unvisited_le.
  - intros fuel rows visited Hrun.
    apply parse_inf_recursively_traversal in Hrun
      as (nodes & (Hp & Hnd & _ & Hrec & Hcl) & _); [|apply not_elem_of_nil].
    simpl in Hp. exists (nodes ++ [inf]).
    split; [done|]. split; [done|].
    split; [apply elem_of_app; right; by apply list_elem_of_singleton|].
    split; [done|]. split.
    + intros n libs l Hn Hlibs Hl. rewrite <- Hp. by eapply Hcl.
    + intros Hinj. rewrite (records_PATH _ _ _ _ _ _ _ _ Hrec).
      apply NoDup_fmap_2_strong; [|done].
      intros a b Ha Hb [=]. by apply Hinj.
Qed.

Lemma C3_one_record_per_visited_module_witness :
  ∃ nodes,
    NoDup nodes ∧
    nodes ≡ₚ ["Pkg/Comp.inf"; "Pkg/LibA.inf"; "Pkg/LibD.inf"; "Pkg/LibB.inf"] ∧
    length nodes = 4.
Proof.
  destruct (proj2 (C3_one_record_per_visited_module Demo.diamond Demo.table
                     "Pkg/Comp.inf" (ScopedLibraryDict Demo.diamond_dsc)
                     Demo.no_overrides "ia32.dxe_driver")
              4 _ _ eq_refl)
    as (nodes & Hnd & Hp & _ & Hrows & _).
  exists nodes. split; [done|]. split; [done|].
  apply Forall2_length in Hrows. exact Hrows.
Defined.

(** ** The row list of a platform description *)

Lemma build_components_built ws self library_dict components inf_entries out :
  build_components ws self library_dict components inf_entries = Ok out →
  ∃ groups, built ws self library_dict components groups ∧
            out = inf_entries ++ concat groups.*2.
Proof.
  revert inf_entries.
  induction components as [|[[inf scope] overrides] rest IH];
    intros inf_entries Hb; cbn [build_components] in Hb.
  - injection Hb as <-. exists []. split; [constructor|]. by rewrite app_nil_r.
  - apply bind_Ok in Hb as (infp & Hinfp & Hb).
    destruct (InfP ws inf) as [e|infp'] eqn:Hparse; [done|].
    injection Hinfp as ->.
    case_decide as Hlib.
    + apply IH in Hb as (groups & Hg & ->). exists groups. split; [|done].
      apply built_skip; [|done]. unfold declares_library_class.
      rewrite Hparse. by apply bool_decide_eq_true.
    + apply bind_Ok in Hb as ([rows visited] & Hrun & Hb).
      apply IH in Hb as (groups & Hg & ->).
      exists ((inf, rows) :: groups). split.
      * eapply built_component; eauto. unfold declares_library_class.
        rewrite Hparse. by apply bool_decide_eq_false.
      * simpl. by rewrite (assoc_L (++)).
Qed.

Lemma built_length ws self library_dict components groups :
  built ws self library_dict components groups →
  length groups
  = length (filter (λ c : string * string * override_dict,
                      declares_library_class ws c.1.1 = false) components).
Proof.
  induction 1 as [|inf scope ov rest groups Hlib _ IH
                  |inf scope ov rest groups infp rows visited _ Hlib _ _ IH].
  - done.
  - rewrite filter_cons, decide_False by (simpl; by rewrite Hlib). done.
  - rewrite filter_cons, decide_True by done. simpl. by rewrite IH.
Qed.

(** The rows of one component: the component's own record comes last, and,
    when posix forms tell the paths of the platform description apart, it is
    the only one whose path equals its component field. *)
Lemma component_group ws self library_dict overrides scope inf rows visited fuel :
  _parse_inf_recursively ws self fuel inf inf library_dict overrides scope []
    = Ok (rows, visited) →
  ∃ libs own,
    rows = libs ++ [own] ∧
    PATH own = COMPONENT own ∧
    Forall (λ e, COMPONENT e = Some (as_posix ws inf) ∧ is_Some (PATH e))
      rows ∧
    ((∀ a b, a ∈ inf :: resolvable library_dict overrides →
             b ∈ inf :: resolvable library_dict overrides →
             as_posix ws a = as_posix ws b → a = b) →
     Forall (λ e, PATH e ≠ COMPONENT e) libs).
Proof.
  intros Hrun.
  pose proof (parse_inf_recursively_visited _ _ _ _ _ _ _ _ _ _ _ Hrun) as Hvis.
  apply parse_inf_recursively_traversal in Hrun
    as (nodes & (Hp & Hnd & _ & Hrec & _) & _); [|apply not_elem_of_nil].
  apply Forall2_app_inv_l in Hrec as (libs & own' & Hlibs & Hown & ->).
  apply Forall2_cons_inv_l in Hown as (own & nil' & Hown & Hnil & ->).
  apply Forall2_nil_inv_l in Hnil as ->.
  exists libs, own. split; [done|].
  pose proof Hown as Hown'.
  apply node_record_fields in Hown' as (? & _ & _ & HP & HC & _).
  split; [congruence|]. split.
  - apply Forall_app. split.
    + apply Forall_forall. intros e He.
      apply list_elem_of_lookup in He as (i & Hi).
      destruct (Forall2_lookup_r _ _ _ _ _ Hlibs Hi) as (n & _ & Hn).
      apply node_record_fields in Hn as (? & _ & _ & -> & -> & _). eauto.
    + repeat constructor; [done|]. rewrite HP. eauto.
  - intros Hinj. apply Forall_forall. intros e He.
    apply list_elem_of_lookup in He as (i & Hi).
    destruct (Forall2_lookup_r _ _ _ _ _ Hlibs Hi) as (n & Hni & Hn).
    apply node_record_fields in Hn as (? & _ & _ & -> & -> & _).
    intros [= Heq].
    assert (Hnn : n ∈ nodes) by (eapply list_elem_of_lookup_2; eauto).
    apply NoDup_app in Hnd as (_ & Hdisj & _).
    apply (Hdisj n Hnn). apply list_elem_of_singleton.
    apply Hinj; [|by left|done].
    destruct (Hvis n) as [Hv|[->|HU]].
    + rewrite Hp. simpl. apply elem_of_app. by left.
    + by apply elem_of_nil in Hv.
    + by left.
    + by right.
Qed.

Lemma resolvable_dsc_paths dscp inf scope overrides :
  (inf, scope, overrides) ∈ Components dscp →
  ∀ a, a ∈ inf :: resolvable (ScopedLibraryDict dscp) overrides →
       a ∈ dsc_paths dscp.
Proof.
  intros Hc a Ha. unfold dsc_paths.
  apply elem_of_cons in Ha as [->|Ha].
  - apply elem_of_app. left.
    apply list_elem_of_fmap. exists (inf, scope). split; [done|].
    apply list_elem_of_fmap. by exists (inf, scope, overrides).
  - apply elem_of_app. right. unfold resolvable in Ha.
    apply elem_of_app in Ha as [Ha|Ha]; apply elem_of_app; [by left|right].
    apply list_elem_of_In, in_flat_map. exists (inf, scope, overrides).
    split; by apply list_elem_of_In.
Qed.

Lemma component_rows_app rows1 rows2 :
  component_rows (rows1 ++ rows2) = component_rows rows1 ++ component_rows rows2.
Proof. apply filter_app. Qed.

Lemma move_entry_ne e : PATH e ≠ COMPONENT e → move_entry e = e.
Proof. intros Hne. unfold move_entry. by rewrite decide_False. Qed.

Lemma move_entry_eq e :
  PATH e = COMPONENT e → move_entry e = set_COMPONENT None e.
Proof. intros Heq. unfold move_entry. by rewrite decide_True. Qed.

Lemma component_rows_libraries ws inf libs :
  Forall (λ e, COMPONENT e = Some (as_posix ws inf) ∧ is_Some (PATH e)) libs →
  Forall (λ e, PATH e ≠ COMPONENT e) libs →
  component_rows (map move_entry libs) = [].
Proof.
  induction libs as [|e libs IH]; [done|].
  intros [[Hc _] Hcs]%Forall_cons [Hne Hnes]%Forall_cons. simpl.
  unfold component_rows in *. rewrite move_entry_ne by done.
  rewrite filter_cons_False by (by rewrite Hc). by apply IH.
Qed.

Lemma built_component_rows ws self dscp components groups :
  (∀ a b, a ∈ dsc_paths dscp → b ∈ dsc_paths dscp →
          as_posix ws a = as_posix ws b → a = b) →
  (∀ c, c ∈ components → c ∈ Components dscp) →
  built ws self (ScopedLibraryDict dscp) components groups →
  length (component_rows (map move_entry (concat groups.*2))) = length groups.
Proof.
  intros Hinj Hsub Hb.
  induction Hb as [|inf scope ov rest groups Hlib _ IH
                   |inf scope ov rest groups infp rows visited _ Hlib Hrun _ IH].
  - done.
  - apply IH. intros c Hc. apply Hsub. by right.
  - rewrite fmap_cons. cbn [concat length snd].
    rewrite map_app, component_rows_app, length_app.
    rewrite IH by (intros c Hc; apply Hsub; by right).
    apply component_group in Hrun as (libs & own & -> & Hown & Hall & Hlibs).
    apply Forall_app in Hall as (Hall & _).
    rewrite map_app, component_rows_app.
    rewrite (component_rows_libraries ws inf) by
      (try done; apply Hlibs; intros a b Ha Hb';
       apply Hinj; eapply resolvable_dsc_paths; eauto; apply Hsub; by left).
    simpl. unfold component_rows. rewrite move_entry_eq by done.
    by rewrite filter_cons_True.
Qed.

Lemma build_components_terminates ws self library_dict components inf_entries :
  build_components ws self library_dict components inf_entries ≠ OutOfFuel.
Proof.
  revert inf_entries.
  induction components as [|[[inf scope] overrides] rest IH];
    intros inf_entries; cbn [build_components]; [done|].
  apply bind_not_OutOfFuel; [by destruct (InfP ws inf)|]. intros infp _.
  case_decide; [done|].
  apply bind_not_OutOfFuel.
  - apply parse_inf_recursively_terminates; [apply not_elem_of_nil|].
    apply unvisited_le.
  - by intros [rows visited] _.
Qed.

(** [_build_inf_table] returns a row list or raises. *)
Lemma build_inf_table_terminates ws self dscp :
  _build_inf_table ws self dscp ≠ OutOfFuel.
Proof.
  unfold _build_inf_table.
  apply bind_not_OutOfFuel; [apply build_components_terminates|done].
Qed.

(** ** C6: the rows of the components themselves *)

(** C6 (as the code has it).  Every row of [_build_inf_table] is the record
    the traversal produced, with its component field set to null exactly when
    it equalled the row's path.  The rows with a null component field are as
    many as the declared components whose INF does not declare a library
    class (a [Components] entry that does is passed over and has no rows),
    as long as no two INF paths of the platform description have the same
    posix form. *)
Theorem C6_component_rows (ws : Workspace) (self : InstancedInfTable)
    (dscp : DscParser) (rows : list entry) :
  _build_inf_table ws self dscp = Ok rows →
  (∃ raw,
     build_components ws self (ScopedLibraryDict dscp) (Components dscp) []
       = Ok raw ∧
     Forall2 (λ e r, (PATH e = COMPONENT e → r = set_COMPONENT None e) ∧
                     (PATH e ≠ COMPONENT e → r = e)) raw rows) ∧
  Forall (λ r, PATH r ≠ COMPONENT r) rows ∧
  ((∀ a b, a ∈ dsc_paths dscp → b ∈ dsc_paths dscp →
           as_posix ws a = as_posix ws b → a = b) →
   length (component_rows rows)
   = length (filter (λ c : string * string * override_dict,
                       declares_library_class ws c.1.1 = false)
               (Components dscp))).
Proof.
  unfold _build_inf_table. intros Hb.
  apply bind_Ok in Hb as (raw & Hraw & Hb). injection Hb as <-.
  pose proof Hraw as Hraw'.
  apply build_components_built in Hraw' as (groups & Hg & Heq).
  simpl in Heq. subst raw.
  split; [|split].
  - eexists. split; [done|].
    apply Forall2_fmap_r, Forall_Forall2_diag, Forall_forall.
    intros e _. split; intros Hpc;
      [by apply move_entry_eq|by apply move_entry_ne].
  - apply Forall_fmap, Forall_forall. intros e He. simpl.
    assert (Hsome : is_Some (PATH e)).
    { clear Hraw. induction Hg as [| |inf scope ov rest groups infp rs vis
                                    _ _ Hrun _ IH]; [by apply elem_of_nil in He|auto|].
      simpl in He. apply elem_of_app in He as [He|He]; [|auto].
      apply component_group in Hrun as (_ & _ & _ & _ & Hall & _).
      by apply (proj1 (Forall_forall _ _) Hall e He). }
    unfold move_entry. case_decide as Hpc; [|done].
    simpl. destruct Hsome as [p Hp]. by rewrite Hp.
  - intros Hinj.
    rewrite (built_component_rows ws self dscp _ _ Hinj (λ c Hc, Hc) Hg).
    by eapply built_length.
Qed.

Lemma C6_component_rows_witness :
  ∃ rows, _build_inf_table Demo.diamond Demo.table Demo.diamond_dsc = Ok rows ∧
          length (component_rows rows) = 1.
Proof.
  eexists. split; [reflexivity|].
  refine (proj2 (proj2 (C6_component_rows Demo.diamond Demo.table
                          Demo.diamond_dsc _ eq_refl)) _).
  intros a b Ha Hb Heq. exact Heq.
Defined.

(** C6, as stated, fails: the platform description below declares two
    components, neither under a conditional, and the row list has one row
    with a null component field, because the second component is a library
    instance. *)
Lemma C6_counterexample :
  ∃ rows,
    _build_inf_table Demo.library_component Demo.table
      Demo.library_component_dsc = Ok rows ∧
    length (Components Demo.library_component_dsc) = 2 ∧
    length (component_rows rows) = 1.
Proof.
  eexists. split; [vm_compute; reflexivity|]. split; vm_compute; reflexivity.
Qed.

(** ** Inverting the state monad *)

Lemma st_bind_Ok {S A B} (m : st S A) (k : A → st S B) (s s' : S) (b : B) :
  (m ≫= k) s = (Ok b, s') → ∃ a s1, m s = (Ok a, s1) ∧ k a s1 = (Ok b, s').
Proof.
  unfold mbind, st_bind. destruct (m s) as [[a| |] s1]; [eauto|done|done].
Qed.

Lemma st_bind_run {S A B} (m : st S A) (k : A → st S B) (s s1 : S) (a : A) :
  m s = (Ok a, s1) → (m ≫= k) s = k a s1.
Proof. unfold mbind, st_bind. by intros ->. Qed.

Lemma st_bind_raise {S A B} (m : st S A) (k : A → st S B) (s s1 : S) e :
  m s = (Raise e, s1) → (m ≫= k) s = (Raise e, s1).
Proof. unfold mbind, st_bind. by intros ->. Qed.

Lemma for_each_app {S A} (xs ys : list A) (body : A → st S unit) (s : S) :
  for_each (xs ++ ys) body s = (for_each xs body ≫= λ _, for_each ys body) s.
Proof.
  revert s. induction xs as [|x xs IH]; intros s; simpl; [done|].
  unfold mbind, st_bind in *. destruct (body x s) as [[[]| |] s1]; [|done|done].
  apply IH.
Qed.

(** ** C9: the order of the calls of [Edk2DB.parse] *)

Lemma schema_pass_schedule parsers o :
  schema_pass parsers o
  = for_each (EnsureJunction :: map CreateTables parsers) run_step o.
Proof.
  unfold schema_pass. simpl. unfold mbind, st_bind.
  destruct (on_connection CREATE_JUNCTION_TABLE o) as [[[]| |] o1]; [|done|done].
  revert o1. induction parsers as [|p ps IH]; intros o1; simpl; [done|].
  unfold mbind, st_bind.
  destruct (on_connection (create_tables p) o1) as [[[]| |] o2]; [|done|done].
  apply IH.
Qed.

Lemma populate_pass_schedule parsers o :
  populate_pass parsers o
  = for_each (flat_map (λ parser, [Populate parser; Commit]) parsers) run_step o.
Proof.
  unfold populate_pass.
  revert o. induction parsers as [|p ps IH]; intros o; simpl; [done|].
  unfold mbind, st_bind.
  destruct (on_connection (parse p) o) as [[[]| |] o1]; [|done|done].
  simpl. apply IH.
Qed.

Lemma Edk2DB_parse_passes o :
  Edk2DB_parse o
  = (schema_pass (_parsers o) ≫= λ _, populate_pass (_parsers o)) o.
Proof.
  unfold Edk2DB_parse, schema_pass, populate_pass, mbind, st_bind.
  by destruct (on_connection CREATE_JUNCTION_TABLE o) as [[[]| |] o1].
Qed.

(** C9.  [Edk2DB.parse] runs exactly the calls of [schedule], one after the
    other and stopping at the first that raises: first the junction table is
    created if absent, then [create_tables] of every registered generator in
    registration order, then for every registered generator in registration
    order its [parse] followed at once by a commit of the connection. *)
Theorem C9_parse_schedule (o : Edk2DB) :
  Edk2DB_parse o = for_each (schedule (_parsers o)) run_step o ∧
  (∀ parsers file,
     _parsers (register parsers (Edk2DB_init file)) = parsers) ∧
  is_Some (junction (current (connection
                      (on_connection CREATE_JUNCTION_TABLE o).2))).
Proof.
  split; [|split].
  - rewrite Edk2DB_parse_passes. unfold schedule.
    change ([EnsureJunction] ++ map CreateTables (_parsers o) ++ ?l)
      with ((EnsureJunction :: map CreateTables (_parsers o)) ++ l).
    rewrite for_each_app. unfold mbind, st_bind.
    rewrite schema_pass_schedule.
    destruct (for_each _ run_step o) as [[[]| |] o1]; [|done|done].
    apply populate_pass_schedule.
  - done.
  - unfold on_connection, CREATE_JUNCTION_TABLE.
    destruct (junction (current (connection o))) eqn:Hj; simpl; by rewrite ?Hj.
Qed.

(** ** C7: a generator that raises *)

Lemma populate_pass_raises before p after o o2 e s3 :
  populate_pass before o = (Ok tt, o2) →
  parse p (current (connection o2)) = (Raise e, s3) →
  populate_pass (before ++ p :: after) o
  = (Raise e,
     {| _parsers := _parsers o2;
        connection := {| committed := committed (connection o2);
                         current := s3;
                         closed := closed (connection o2) |} |}).
Proof.
  intros Hbefore Hp. unfold populate_pass in *.
  rewrite for_each_app. rewrite (st_bind_run _ _ _ _ _ Hbefore). simpl.
  apply st_bind_raise. apply st_bind_raise.
  unfold on_connection. by rewrite Hp.
Qed.

(** C7 (as the code has it).  When the schema pass and the generators
    registered before [p] succeed and [p.parse] raises [e], [Edk2DB.parse]
    raises [e]; the committed store is still what the last commit of an
    earlier generator left, and the writes [p] made before raising are
    pending on the connection, not committed by [Edk2DB.parse].  Leaving the
    [with] block then raises [e] too, but [__exit__] commits first: the
    pending writes of the failing generator become the committed store. *)
Theorem C7_failing_generator (o o1 o2 : Edk2DB)
    (before after : list TableGenerator) (p : TableGenerator)
    (e : exn) (s3 : Store) :
  _parsers o = before ++ p :: after →
  schema_pass (_parsers o) o = (Ok tt, o1) →
  populate_pass before o1 = (Ok tt, o2) →
  parse p (current (connection o2)) = (Raise e, s3) →
  ∃ o3 o4,
    Edk2DB_parse o = (Raise e, o3) ∧
    committed (connection o3) = committed (connection o2) ∧
    current (connection o3) = s3 ∧
    with_Edk2DB Edk2DB_parse o = (Raise e, o4) ∧
    committed (connection o4) = s3.
Proof.
  intros Hps Hschema Hbefore Hp.
  eexists _, _. rewrite Edk2DB_parse_passes.
  unfold with_Edk2DB. rewrite Edk2DB_parse_passes.
  rewrite (st_bind_run _ _ _ _ _ Hschema), Hps.
  rewrite (populate_pass_raises _ _ _ _ _ _ _ Hbefore Hp).
  repeat split.
Qed.

Lemma C7_failing_generator_witness :
  ∃ o3 o4,
    Edk2DB_parse (register [Demo.Succeeding; Demo.Failing]
                    (Edk2DB_init Demo.empty_store))
    = (Raise (RuntimeError "failed"), o3) ∧
    junction (committed (connection o3))
    = Some [{| table1 := "succeeding"; key1 := SInt 1;
               table2 := "succeeding"; key2 := SInt 2 |}] ∧
    with_Edk2DB Edk2DB_parse
      (register [Demo.Succeeding; Demo.Failing] (Edk2DB_init Demo.empty_store))
    = (Raise (RuntimeError "failed"), o4) ∧
    junction (committed (connection o4))
    = Some [{| table1 := "succeeding"; key1 := SInt 1;
               table2 := "succeeding"; key2 := SInt 2 |};
            {| table1 := "failing"; key1 := SInt 1;
               table2 := "failing"; key2 := SInt 2 |}].
Proof.
  destruct (C7_failing_generator
              (register [Demo.Succeeding; Demo.Failing]
                 (Edk2DB_init Demo.empty_store))
              _ _ [Demo.Succeeding] [] Demo.Failing _ _
              eq_refl eq_refl eq_refl eq_refl)
    as (o3 & o4 & H3 & Hc3 & _ & H4 & Hc4).
  exists o3, o4. rewrite Hc3, Hc4. repeat split; assumption.
Defined.

(** C7, as stated, fails: the second generator below writes a junction row
    and raises; [Edk2DB.parse] leaves that row uncommitted, but when the
    [with] block is left because of the error the row is in the committed
    store. *)
Lemma C7_counterexample :
  let o := register [Demo.Succeeding; Demo.Failing]
             (Edk2DB_init Demo.empty_store) in
  let failing_row := {| table1 := "failing"; key1 := SInt 1;
                        table2 := "failing"; key2 := SInt 2 |} in
  (Edk2DB_parse o).1 = Raise (RuntimeError "failed") ∧
  (∀ rows, junction (committed (connection (Edk2DB_parse o).2)) = Some rows →
           failing_row ∉ rows) ∧
  (with_Edk2DB Edk2DB_parse o).1 = Raise (RuntimeError "failed") ∧
  (∃ rows,
     junction (committed (connection (with_Edk2DB Edk2DB_parse o).2))
     = Some rows ∧ failing_row ∈ rows).
Proof.
  cbv zeta. split; [vm_compute; reflexivity|].
  split; [|split; [vm_compute; reflexivity|]].
  - intros rows Hrows. vm_compute in Hrows. injection Hrows as <-.
    intros Hin. apply list_elem_of_singleton in Hin. discriminate Hin.
  - eexists. split; [vm_compute; reflexivity|]. right. left.
Qed.

(** ** C8: the keys [InstancedInfTable.__init__] requires *)

(** C8.  Constructing the generator from an environment that lacks
    [ACTIVE_PLATFORM], [TARGET_ARCH] or [TARGET] raises a [KeyError] for the
    first of them that is missing, so no generator object exists on which
    [parse] could run; when the three are present the construction succeeds
    whether or not [FLASH_DEFINITION] is there, with the empty string in its
    place when it is not. *)
Theorem C8_init_required_keys (env : gmap string string) :
  let constructed := __init__ {[ "env" := env ]} in
  (env !! "ACTIVE_PLATFORM" = None →
     constructed = Raise (KeyError "ACTIVE_PLATFORM")) ∧
  (is_Some (env !! "ACTIVE_PLATFORM") → env !! "TARGET_ARCH" = None →
     constructed = Raise (KeyError "TARGET_ARCH")) ∧
  (is_Some (env !! "ACTIVE_PLATFORM") → is_Some (env !! "TARGET_ARCH") →
     env !! "TARGET" = None → constructed = Raise (KeyError "TARGET")) ∧
  (∀ dsc target_arch target,
     env !! "ACTIVE_PLATFORM" = Some dsc →
     env !! "TARGET_ARCH" = Some target_arch →
     env !! "TARGET" = Some target →
     constructed
     = Ok {| self_env := env; self_dsc := dsc;
             self_fdf := default "" (env !! "FLASH_DEFINITION");
             self_arch := split " " target_arch; self_target := target |} ∧
     (env !! "FLASH_DEFINITION" = None →
        ∃ t, constructed = Ok t ∧ self_fdf t = "")).
Proof.
  cbv zeta. unfold __init__, getitem.
  rewrite lookup_singleton_eq. simpl.
  split; [by intros ->|].
  split; [by intros [dsc ->] ->|].
  split; [by intros [dsc ->] [target_arch ->] ->|].
  intros dsc target_arch target -> -> ->. simpl. split; [done|].
  intros ->. by eexists.
Qed.

Lemma C8_init_required_keys_witness :
  __init__ {[ "env" := {[ "ACTIVE_PLATFORM" := "Test.dsc" ]} ]}
  = Raise (KeyError "TARGET_ARCH").
Proof.
  apply (proj1 (proj2 (C8_init_required_keys
                         {[ "ACTIVE_PLATFORM" := "Test.dsc" ]})));
    [by eexists|reflexivity].
Defined.

(** ** The statements of [InstancedInfTable.parse] *)

Lemma last_rowid_cons r rows :
  last_rowid (r :: rows)
  = match rows with
    | [] => col_id r
    | _ :: _ => Z.max (col_id r) (last_rowid rows)
    end.
Proof. reflexivity. Qed.

Lemma last_rowid_elem rows r : r ∈ rows → (col_id r ≤ last_rowid rows)%Z.
Proof.
  induction rows as [|r0 rows IH]; intros Hin; [by apply elem_of_nil in Hin|].
  rewrite last_rowid_cons. apply elem_of_cons in Hin as [->|Hin].
  - destruct rows; lia.
  - specialize (IH Hin). destruct rows; [by apply elem_of_nil in Hin|lia].
Qed.

Lemma last_rowid_snoc rows r :
  (last_rowid rows ≤ col_id r)%Z → last_rowid (rows ++ [r]) = col_id r.
Proof.
  induction rows as [|r0 rows IH]; intros Hle; [done|].
  rewrite last_rowid_cons in Hle.
  change ((r0 :: rows) ++ [r]) with (r0 :: (rows ++ [r])).
  rewrite last_rowid_cons.
  destruct rows as [|r1 rows]; [simpl; lia|].
  rewrite IH by lia.
  change ((r1 :: rows) ++ [r]) with (r1 :: (rows ++ [r])). cbv iota. lia.
Qed.

Lemma INSERT_INSTANCED_INF_ROW_run env dsc path name arch component s rows0 :
  instanced_inf s = Some rows0 →
  room_for 1 s →
  let row := {| col_id := last_id s + 1; col_env := env; col_dsc := dsc;
                col_path := path; col_name := name; col_arch := arch;
                col_component := component |} in
  let s1 := set_instanced_inf (Some (rows0 ++ [row])) (last_id s + 1) s in
  INSERT_INSTANCED_INF_ROW env dsc path name arch component s = (Ok tt, s1) ∧
  last_id s1 = (last_id s + 1)%Z.
Proof.
  intros Hs Hroom row s1. unfold INSERT_INSTANCED_INF_ROW.
  unfold room_for in Hroom. subst row s1. unfold last_id in *.
  rewrite Hs in *. simpl in *.
  destruct (Z.leb_spec MAX_ROWID
              (Z.max (last_rowid rows0) (instanced_inf_seq s))); [lia|].
  split; [done|]. rewrite last_rowid_snoc; simpl; lia.
Qed.

Lemma add_instanced_inf_entries_run env entries s rows0 :
  instanced_inf s = Some rows0 →
  room_for (length entries) s →
  add_instanced_inf_entries env entries s
  = (Ok tt,
     set_instanced_inf
       (Some (rows0 ++ inserted env (last_id s) entries))
       (counter_after s (length entries)) s).
Proof.
  unfold add_instanced_inf_entries.
  revert s rows0.
  induction entries as [|e es IH]; intros s rows0 Hs Hroom.
  - simpl. rewrite app_nil_r. destruct s; simpl in *. by subst.
  - cbn [for_each length]. unfold room_for in Hroom. cbn [length] in Hroom.
    destruct (INSERT_INSTANCED_INF_ROW_run env (DSC e) (PATH e) (NAME e)
                (ARCH e) (COMPONENT e) s rows0 Hs) as [Hrun Hlast];
      [unfold room_for; lia|].
    set (s1 := set_instanced_inf _ _ s) in *.
    rewrite (st_bind_run _ _ _ _ _ Hrun).
    erewrite IH; [|reflexivity|unfold room_for; rewrite Hlast; lia].
    assert (Hc : counter_after s1 (length es)
                 = counter_after s (S (length es))).
    { unfold counter_after. destruct es as [|e1 es]; simpl length.
      - subst s1. simpl. lia.
      - rewrite Hlast. lia. }
    rewrite Hc, Hlast. subst s1. unfold set_instanced_inf. simpl.
    by rewrite <- (assoc_L (++)).
Qed.

Lemma add_instanced_inf_entries_Ok env entries s s1 rows0 :
  instanced_inf s = Some rows0 →
  add_instanced_inf_entries env entries s = (Ok tt, s1) →
  ∃ rows seq', s1 = set_instanced_inf (Some rows) seq' s.
Proof.
  unfold add_instanced_inf_entries. revert s rows0.
  induction entries as [|e es IH]; intros s rows0 Hs Hrun.
  - simpl in Hrun. injection Hrun as <-.
    exists rows0, (instanced_inf_seq s). destruct s; simpl in *. by subst.
  - cbn [for_each] in Hrun.
    apply st_bind_Ok in Hrun as ([] & s2 & Hins & Hrun).
    unfold INSERT_INSTANCED_INF_ROW in Hins. rewrite Hs in Hins.
    destruct (MAX_ROWID <=? _)%Z; [done|]. injection Hins as <-.
    eapply IH in Hrun as (rows & seq' & ->); [|reflexivity].
    by exists rows, seq'.
Qed.

(** The junction loop writes to the junction table only. *)
Lemma add_junction_entries_frame env entries s :
  ∃ j, (add_junction_entries env entries s).2 = set_junction j s.
Proof.
  assert (Hid : ∀ s0 : Store, s0 = set_junction (junction s0) s0)
    by (by intros []).
  assert (Href : ∃ j, s = set_junction j s) by eauto.
  destruct Href as [j0 Hj0].
  enough (Hgen : ∀ s1 j1, s1 = set_junction j1 s →
            ∃ j, (add_junction_entries env entries s1).2 = set_junction j s)
    by (by eapply Hgen).
  clear j0 Hj0. unfold add_junction_entries.
  assert (Hinsert : ∀ t1 k1 t2 k2 s1 j1, s1 = set_junction j1 s →
            ∃ j, (INSERT_JUNCTION_ROW t1 k1 t2 k2 s1).2 = set_junction j s).
  { intros t1 k1 t2 k2 s1 j1 ->. unfold INSERT_JUNCTION_ROW.
    destruct (junction (set_junction j1 s)); simpl; eauto. }
  assert (Hloop : ∀ {A} (xs : list A) (body : A → db unit),
            (∀ x s1 j1, s1 = set_junction j1 s →
               ∃ j, (body x s1).2 = set_junction j s) →
            ∀ s1 j1, s1 = set_junction j1 s →
              ∃ j, (for_each xs body s1).2 = set_junction j s).
  { intros A xs body Hbody. induction xs as [|x xs IHxs]; intros s1 j1 Hs1.
    - simpl. eauto.
    - simpl. unfold mbind, st_bind.
      destruct (Hbody x s1 j1 Hs1) as [j2 Hj2].
      destruct (body x s1) as [[[]| |] s2]; simpl in Hj2; [|eauto|eauto].
      by eapply IHxs. }
  assert (Hget : ∀ path dsc s1, (GET_ROW_ID env path dsc s1).2 = s1).
  { intros path dsc s1. unfold GET_ROW_ID. by destruct (instanced_inf s1). }
  apply Hloop. intros e s1 j1 Hs1.
  unfold mbind, st_bind.
  pose proof (Hget (PATH e) (DSC e) s1) as Hg1.
  destruct (GET_ROW_ID env (PATH e) (DSC e) s1) as [[row| |] s1'];
    simpl in Hg1; subst s1'; [|eauto|eauto].
  unfold lift at 1. destruct (subscript0 row) as [inf_id| |]; [|eauto|eauto].
  destruct (Hloop _ (SOURCES_USED e)
              (λ source, INSERT_JUNCTION_ROW "instanced_inf" (SInt inf_id)
                           "source" (SText source))
              (λ x, Hinsert _ _ _ _) s1 j1 Hs1) as [j2 Hj2].
  destruct (for_each (SOURCES_USED e) _ s1) as [[[]| |] s2]; simpl in Hj2;
    [|eauto|eauto].
  eapply Hloop; [|exact Hj2]. intros library s3 j3 Hs3.
  pose proof (Hget (Some library) (DSC e) s3) as Hg3.
  destruct (GET_ROW_ID env (Some library) (DSC e) s3) as [[row3| |] s3'];
    simpl in Hg3; subst s3'; [|eauto|eauto].
  unfold lift at 1. destruct (subscript0 row3) as [used| |]; [|eauto|eauto].
  by eapply Hinsert.
Qed.

Lemma set_junction_twice j j' s :
  set_junction j (set_junction j' s) = set_junction j s.
Proof. done. Qed.

Lemma lookup_run env path dsc s rows {B} (k : Z → db B) s' b :
  instanced_inf s = Some rows →
  (row ← GET_ROW_ID env path dsc; used_inf_id ← lift (subscript0 row);
   k used_inf_id) s = (Ok b, s') →
  ∃ used, lookup_id rows env path dsc = Ok used ∧ k used s = (Ok b, s').
Proof.
  intros Hs Hrun.
  apply st_bind_Ok in Hrun as (row & s0 & Hget & Hrun).
  apply st_bind_Ok in Hrun as (id & s1 & Hsub & Hrun).
  unfold GET_ROW_ID in Hget. rewrite Hs in Hget. injection Hget as <- <-.
  unfold lift in Hsub. injection Hsub as Hsub <-.
  exists id. by split.
Qed.

Lemma source_loop_run inf_id e s j0 :
  junction s = Some j0 →
  for_each (SOURCES_USED e)
    (λ source, INSERT_JUNCTION_ROW "instanced_inf" (SInt inf_id)
                 "source" (SText source)) s
  = (Ok tt, set_junction (Some (j0 ++ source_edges inf_id e)) s).
Proof.
  unfold source_edges. generalize (SOURCES_USED e) as sources.
  intros sources. revert s j0.
  induction sources as [|x xs IH]; intros s j0 Hj; simpl.
  - rewrite app_nil_r. destruct s; simpl in *. by subst.
  - unfold mbind, st_bind. unfold INSERT_JUNCTION_ROW at 1. rewrite Hj.
    erewrite IH by done. by rewrite set_junction_twice, <- (assoc_L (++)).
Qed.

Lemma library_loop_Ok rows env inf_id e s s' j0 :
  instanced_inf s = Some rows → junction s = Some j0 →
  for_each (LIBRARIES_USED e)
    (λ library,
       row ← GET_ROW_ID env (Some library) (DSC e);
       used_inf_id ← lift (subscript0 row);
       INSERT_JUNCTION_ROW "instanced_inf" (SInt inf_id)
         "instanced_inf" (SInt used_inf_id)) s = (Ok tt, s') →
  ∃ libs, library_edges rows env inf_id e = Ok libs ∧
          s' = set_junction (Some (j0 ++ libs)) s.
Proof.
  unfold library_edges. generalize (LIBRARIES_USED e) as libraries.
  intros libraries. revert s j0.
  induction libraries as [|l ls IH]; intros s j0 Hrows Hj Hrun; simpl in *.
  - injection Hrun as <-. exists []. split; [done|].
    rewrite app_nil_r. destruct s; simpl in *. by subst.
  - apply st_bind_Ok in Hrun as ([] & s1 & Hbody & Hrun).
    assert (Hlook : ∃ used,
              lookup_id rows env (Some l) (DSC e) = Ok used ∧
              s1 = set_junction
                     (Some (j0 ++ [{| table1 := "instanced_inf";
                                      key1 := SInt inf_id;
                                      table2 := "instanced_inf";
                                      key2 := SInt used |}])) s).
    { eapply lookup_run in Hbody as (used & Hget & Hins); [|done].
      exists used. split; [done|].
      unfold INSERT_JUNCTION_ROW in Hins. rewrite Hj in Hins.
      by injection Hins as <-. }
    destruct Hlook as (used & Hused & ->).
    eapply IH in Hrun as (libs & Hlibs & ->); [|done|reflexivity].
    rewrite Hused. simpl. rewrite Hlibs. simpl. eexists. split; [done|].
    by rewrite set_junction_twice, <- (assoc_L (++)).
Qed.

Lemma add_junction_entries_Ok env entries s s' rows j0 :
  instanced_inf s = Some rows → junction s = Some j0 →
  add_junction_entries env entries s = (Ok tt, s') →
  ∃ edges, Forall2 (λ e x, edges_of rows env e = Ok x) entries edges ∧
           s' = set_junction (Some (j0 ++ concat edges)) s.
Proof.
  unfold add_junction_entries. revert s j0.
  induction entries as [|e es IH]; intros s j0 Hrows Hj Hrun; simpl in *.
  - injection Hrun as <-. exists []. split; [constructor|].
    rewrite app_nil_r. destruct s; simpl in *. by subst.
  - apply st_bind_Ok in Hrun as ([] & s1 & Hbody & Hrun).
    assert (Hedges : ∃ x, edges_of rows env e = Ok x ∧
                          s1 = set_junction (Some (j0 ++ x)) s).
    { eapply lookup_run in Hbody as (inf_id & Hget & Hbody); [|done].
      apply st_bind_Ok in Hbody as ([] & s2 & Hsrc & Hlib).
      rewrite (source_loop_run _ _ _ _ Hj) in Hsrc. injection Hsrc as <-.
      eapply library_loop_Ok in Hlib as (libs & Hlibs & ->);
        [|done|reflexivity].
      unfold edges_of. rewrite Hget. simpl. rewrite Hlibs. simpl.
      eexists. split; [done|].
      by rewrite set_junction_twice, <- (assoc_L (++)). }
    destruct Hedges as (x & Hx & ->).
    eapply IH in Hrun as (edges & Hedges & ->); [|done|reflexivity].
    exists (x :: edges). split; [by constructor|].
    simpl. by rewrite set_junction_twice, <- (assoc_L (++)).
Qed.

(** ** The entries [InstancedInfTable.parse] works on *)

Lemma move_entry_fields e :
  PATH (move_entry e) = PATH e ∧ DSC (move_entry e) = DSC e ∧
  LIBRARIES_USED (move_entry e) = LIBRARIES_USED e ∧
  (COMPONENT (move_entry e) = None ∨ COMPONENT (move_entry e) = COMPONENT e).
Proof. unfold move_entry. case_decide; simpl; auto. Qed.

Lemma relativized_fields ws e :
  DSC (relativized ws e) = DSC e ∧
  COMPONENT (relativized ws e) = COMPONENT e ∧
  LIBRARIES_USED (relativized ws e) = LIBRARIES_USED e ∧
  NAME (relativized ws e) = NAME e ∧ ARCH (relativized ws e) = ARCH e ∧
  (∀ p, PATH e = Some p →
     PATH (relativized ws e)
     = if is_absolute ws p then GetEdk2RelativePathFromAbsolutePath ws p
       else Some p).
Proof.
  unfold relativized. destruct (PATH e) as [p|] eqn:Hp.
  - destruct (is_absolute ws p) eqn:Habs; simpl; repeat split; try done;
      intros q [= <-]; by rewrite Habs.
  - repeat split; done.
Qed.

Lemma relativize_all ws entries :
  Forall (λ e, is_Some (PATH e)) entries →
  mapM (relativize ws) entries = Ok (map (relativized ws) entries).
Proof.
  induction 1 as [|e es [p Hp] _ IH]; simpl; [done|].
  rewrite IH. unfold relativize, relativized. rewrite Hp.
  by destruct (is_absolute ws p).
Qed.

(** What the records of one component say. *)
Lemma component_group_entries ws self library_dict overrides scope inf rows
    visited fuel :
  _parse_inf_recursively ws self fuel inf inf library_dict overrides scope []
    = Ok (rows, visited) →
  Forall (λ e, is_Some (PATH e) ∧
               DSC e = path_name ws (self_dsc self) ∧
               COMPONENT e = Some (as_posix ws inf) ∧
               ∀ l, l ∈ LIBRARIES_USED e →
                    ∃ e1, e1 ∈ rows ∧ PATH e1 = Some l) rows.
Proof.
  intros Hrun.
  apply parse_inf_recursively_traversal in Hrun
    as (nodes & (Hp & _ & _ & Hrec & Hcl) & _); [|apply not_elem_of_nil].
  simpl in Hp. apply Forall_forall. intros e He.
  apply list_elem_of_lookup in He as (i & Hi).
  destruct (Forall2_lookup_r _ _ _ _ _ Hrec Hi) as (n & Hni & Hn).
  apply node_record_fields in Hn as (libs & Hlibs & HD & HP & HC & HL).
  split; [by rewrite HP|]. split; [done|]. split; [done|].
  intros l Hl. rewrite HL in Hl.
  apply list_elem_of_fmap in Hl as (nl & -> & Hnl).
  assert (Hin : nl ∈ nodes ++ [inf]).
  { rewrite <- Hp. eapply Hcl; [|done|done]. by eapply list_elem_of_lookup_2. }
  apply list_elem_of_lookup in Hin as (j & Hj).
  destruct (Forall2_lookup_l _ _ _ _ _ Hrec Hj) as (e1 & He1 & Hr1).
  apply node_record_fields in Hr1 as (? & _ & _ & HP1 & _).
  exists e1. split; [by eapply list_elem_of_lookup_2|done].
Qed.

Lemma built_entries ws self dscp components groups :
  (∀ c, c ∈ components → c ∈ Components dscp) →
  built ws self (ScopedLibraryDict dscp) components groups →
  Forall (λ e, is_Some (PATH e) ∧
               DSC e = path_name ws (self_dsc self) ∧
               (∃ c, c ∈ Components dscp ∧
                     COMPONENT e = Some (as_posix ws c.1.1)) ∧
               ∀ l, l ∈ LIBRARIES_USED e →
                    ∃ e1, e1 ∈ concat groups.*2 ∧ PATH e1 = Some l)
    (concat groups.*2).
Proof.
  intros Hsub Hb.
  induction Hb as [|inf scope ov rest groups Hlib _ IH
                   |inf scope ov rest groups infp rows visited _ Hlib Hrun _ IH].
  - constructor.
  - apply IH. intros c Hc. apply Hsub. by right.
  - rewrite fmap_cons. cbn [concat snd]. apply Forall_app. split.
    + apply component_group_entries in Hrun.
      eapply Forall_impl; [exact Hrun|].
      intros e (HP & HD & HC & HL). split; [done|]. split; [done|]. split.
      * exists (inf, scope, ov). split; [apply Hsub; by left|done].
      * intros l Hl. destruct (HL l Hl) as (e1 & He1 & HP1).
        exists e1. split; [apply elem_of_app; by left|done].
    + eapply Forall_impl; [apply IH; intros c Hc; apply Hsub; by right|].
      intros e (HP & HD & HC & HL). split; [done|]. split; [done|].
      split; [done|].
      intros l Hl. destruct (HL l Hl) as (e1 & He1 & HP1).
      exists e1. split; [apply elem_of_app; by right|done].
Qed.

Lemma build_inf_table_entries ws self dscp entries :
  _build_inf_table ws self dscp = Ok entries →
  Forall (λ e, is_Some (PATH e) ∧
               DSC e = path_name ws (self_dsc self) ∧
               (COMPONENT e = None ∨
                ∃ c, c ∈ Components dscp ∧
                     COMPONENT e = Some (as_posix ws c.1.1)) ∧
               ∀ l, l ∈ LIBRARIES_USED e →
                    ∃ e1, e1 ∈ entries ∧ PATH e1 = Some l) entries.
Proof.
  unfold _build_inf_table. intros Hb.
  apply bind_Ok in Hb as (raw & Hraw & Hb). injection Hb as <-.
  apply build_components_built in Hraw as (groups & Hg & ->). simpl.
  apply (built_entries ws self dscp _ _ (λ c Hc, Hc)) in Hg.
  apply Forall_fmap. eapply Forall_impl; [exact Hg|].
  intros e (HP & HD & HC & HL). simpl.
  destruct (move_entry_fields e) as (HP' & HD' & HL' & HC').
  rewrite HP', HD', HL'. split; [done|]. split; [done|]. split.
  - destruct HC' as [->| ->]; auto.
  - intros l Hl. destruct (HL l Hl) as (e1 & He1 & HP1).
    exists (move_entry e1). split; [by apply list_elem_of_fmap_2|].
    by rewrite (proj1 (move_entry_fields e1)).
Qed.

(** ** [InstancedInfTable.parse], phase by phase *)

Lemma lift_bind {S A B} (m : res A) (k : A → st S B) (s : S) :
  (lift m ≫= k) s
  = match m with
    | Ok a => k a s
    | Raise e => (Raise e, s)
    | OutOfFuel => (OutOfFuel, s)
    end.
Proof. unfold mbind, st_bind, lift. by destruct m. Qed.

Lemma parse_build_raises ws self s dscp e :
  DscP ws (self_env self) (self_dsc self) = inr dscp →
  _build_inf_table ws self dscp = Raise e →
  InstancedInfTable_parse ws self s = (Raise e, s).
Proof.
  intros Hdsc Hb. unfold InstancedInfTable_parse.
  rewrite lift_bind, Hdsc. simpl. by rewrite lift_bind, Hb.
Qed.

Lemma parse_after_build ws self s dscp entries :
  DscP ws (self_env self) (self_dsc self) = inr dscp →
  _build_inf_table ws self dscp = Ok entries →
  InstancedInfTable_parse ws self s
  = (row ← SELECT_LATEST_ENVIRONMENT;
     env ← lift (subscript0 row);
     _ ← add_instanced_inf_entries env (map (relativized ws) entries);
     add_junction_entries env (map (relativized ws) entries)) s.
Proof.
  intros Hdsc Hb. unfold InstancedInfTable_parse.
  rewrite lift_bind, Hdsc. simpl. rewrite lift_bind, Hb.
  rewrite lift_bind, relativize_all; [done|].
  eapply Forall_impl; [by apply build_inf_table_entries|].
  by intros e (HP & _).
Qed.

Lemma parse_inserts ws self s dscp entries rows0 envs renv :
  DscP ws (self_env self) (self_dsc self) = inr dscp →
  _build_inf_table ws self dscp = Ok entries →
  instanced_inf s = Some rows0 →
  environment s = Some envs → latest envs = Some renv →
  room_for (length entries) s →
  instanced_inf (InstancedInfTable_parse ws self s).2
  = Some (rows0 ++ inserted (env_id renv) (last_id s)
                     (map (relativized ws) entries)).
Proof.
  intros Hdsc Hb Hrows Henvs Hlatest Hroom.
  rewrite (parse_after_build _ _ _ _ _ Hdsc Hb).
  assert (Hsel : SELECT_LATEST_ENVIRONMENT s = (Ok (Some (env_id renv)), s))
    by (unfold SELECT_LATEST_ENVIRONMENT; by rewrite Henvs, Hlatest).
  rewrite (st_bind_run _ _ _ _ _ Hsel), lift_bind. simpl.
  rewrite <- (length_map (relativized ws)) in Hroom.
  rewrite (st_bind_run _ _ _ _ _
             (add_instanced_inf_entries_run (env_id renv) _ _ _ Hrows Hroom)).
  destruct (add_junction_entries_frame (env_id renv)
              (map (relativized ws) entries)
              (set_instanced_inf
                 (Some (rows0 ++ inserted (env_id renv) (last_id s)
                                   (map (relativized ws) entries)))
                 (counter_after s (length (map (relativized ws) entries))) s))
    as [j ->].
  done.
Qed.

Lemma inserted_rows env seq entries :
  Forall2 (λ e r, ∃ n, r = to_row env n e) entries (inserted env seq entries).
Proof.
  revert seq. induction entries as [|e es IH]; intros seq; simpl;
    constructor; eauto.
Qed.

(** ** C10: only the path of an entry is made relative *)

Lemma inserted_app env seq l1 l2 :
  inserted env seq (l1 ++ l2)
  = inserted env seq l1 ++ inserted env (seq + Z.of_nat (length l1)) l2.
Proof.
  revert seq. induction l1 as [|e l1 IH]; intros seq.
  - simpl. by rewrite Z.add_0_r.
  - cbn [app inserted length]. rewrite IH. do 3 f_equal. lia.
Qed.

Lemma inserted_groups env seq (f : entry → entry)
    (groups : list (string * list entry)) :
  ∃ rss, concat rss = inserted env seq (map f (concat groups.*2)) ∧
         Forall2 (λ (g : string * list entry) rs,
                    Forall2 (λ e r, ∃ n, r = to_row env n (f e)) g.2 rs)
           groups rss.
Proof.
  revert seq. induction groups as [|g groups IH]; intros seq.
  - exists []. split; [done|constructor].
  - destruct (IH (seq + Z.of_nat (length (map f g.2)))%Z)
      as (rss & Hc & Hall).
    exists (inserted env seq (map f g.2) :: rss). split.
    + rewrite fmap_cons. cbn [concat]. by rewrite map_app, inserted_app, Hc.
    + constructor; [|done].
      apply (proj1 (Forall2_fmap_l f (λ e r, ∃ n, r = to_row env n e)
                      g.2 _)).
      apply inserted_rows.
Qed.

Lemma built_groups ws self library_dict components groups :
  built ws self library_dict components groups →
  Forall (λ g : string * list entry,
            Forall (λ e, is_Some (PATH e) ∧
                         COMPONENT e = Some (as_posix ws g.1)) g.2) groups.
Proof.
  induction 1 as [|inf scope ov rest groups Hlib _ IH
                  |inf scope ov rest groups infp rows visited _ Hlib Hrun _ IH].
  - constructor.
  - done.
  - constructor; [|done]. simpl.
    apply component_group_entries in Hrun.
    eapply Forall_impl; [exact Hrun|]. by intros e (HP & _ & HC & _).
Qed.

(** C10.  Of the rows [InstancedInfTable.parse] inserts when ids are left
    for them, one per entry of the row list and in its order, the path
    column is the entry's posix path,
    replaced by what [GetEdk2RelativePathFromAbsolutePath] makes of it when
    it is absolute; the component column is the entry's component field as
    [_build_inf_table] left it.  The rows come in groups, one for every
    declared component that is expanded, holding the rows of the traversal
    that starts at that component: in the group of a component, the row of
    the component itself has a null component column, and every other row
    has the posix form of the path under which the platform description
    declares that very component, absolute or not.  So a component declared
    by an absolute path has a relative path in its own row and the absolute
    one in the component column of its library rows, as the second part shows
    on two components that link the same library. *)
Theorem C10_only_path_relativized :
  (∀ (ws : Workspace) (self : InstancedInfTable) (s : Store)
     (dscp : DscParser) (entries : list entry)
     (rows0 : list instanced_inf_row) (envs : list environment_row)
     (renv : environment_row),
     DscP ws (self_env self) (self_dsc self) = inr dscp →
     _build_inf_table ws self dscp = Ok entries →
     instanced_inf s = Some rows0 →
     environment s = Some envs → latest envs = Some renv →
     room_for (length entries) s →
     ∃ (groups : list (string * list entry))
       (new_rows : list (list instanced_inf_row)),
       built ws self (ScopedLibraryDict dscp) (Components dscp) groups ∧
       instanced_inf (InstancedInfTable_parse ws self s).2
       = Some (rows0 ++ concat new_rows) ∧
       Forall2 (λ e r,
                  col_component r = COMPONENT e ∧
                  (COMPONENT e = None ∨
                   ∃ c, c ∈ Components dscp ∧
                        COMPONENT e = Some (as_posix ws c.1.1)) ∧
                  ∃ p, PATH e = Some p ∧
                       col_path r
                       = if is_absolute ws p
                         then GetEdk2RelativePathFromAbsolutePath ws p
                         else Some p)
               entries (concat new_rows) ∧
       Forall2 (λ (g : string * list entry) rows,
                  Forall2 (λ e r,
                             ∃ p, PATH e = Some p ∧
                                  col_path r
                                  = (if is_absolute ws p
                                     then GetEdk2RelativePathFromAbsolutePath
                                            ws p
                                     else Some p) ∧
                                  col_component r
                                  = if decide (p = as_posix ws g.1) then None
                                    else Some (as_posix ws g.1))
                    g.2 rows)
               groups new_rows) ∧
  (instanced_inf (InstancedInfTable_parse Cases.two_absolute_components
                    Demo.table Demo.fresh_store).2
   = Some [{| col_id := 1; col_env := 1; col_dsc := "Test.dsc";
              col_path := Some "Pkg/LibA.inf"; col_name := "LibA";
              col_arch := "IA32";
              col_component := Some "/ws/Pkg/Comp1.inf" |};
           {| col_id := 2; col_env := 1; col_dsc := "Test.dsc";
              col_path := Some "Pkg/Comp1.inf"; col_name := "Comp1";
              col_arch := "IA32"; col_component := None |};
           {| col_id := 3; col_env := 1; col_dsc := "Test.dsc";
              col_path := Some "Pkg/LibA.inf"; col_name := "LibA";
              col_arch := "IA32";
              col_component := Some "/ws/Pkg/Comp2.inf" |};
           {| col_id := 4; col_env := 1; col_dsc := "Test.dsc";
              col_path := Some "Pkg/Comp2.inf"; col_name := "Comp2";
              col_arch := "IA32"; col_component := None |}]).
Proof.
  split; [|vm_compute; reflexivity].
  intros ws self s dscp entries rows0 envs renv Hdsc Hb Hrows Henvs Hlatest
    Hroom.
  pose proof (parse_inserts _ _ _ _ _ _ _ _ Hdsc Hb Hrows Henvs Hlatest Hroom)
    as Hins.
  pose proof (build_inf_table_entries _ _ _ _ Hb) as Hentries.
  unfold _build_inf_table in Hb.
  apply bind_Ok in Hb as (raw & Hraw & Hb). injection Hb as <-.
  apply build_components_built in Hraw as (groups & Hg & ->).
  cbn [app] in *.
  destruct (inserted_groups (env_id renv) (last_id s)
              (λ e, relativized ws (move_entry e)) groups)
    as (new_rows & Hc & Hall).
  rewrite <- (map_map move_entry (relativized ws)) in Hc.
  rewrite <- Hc in Hins.
  exists groups, new_rows. split; [done|]. split; [done|]. split.
  - pose proof (inserted_rows (env_id renv) (last_id s)
                  (map (relativized ws) (map move_entry (concat groups.*2))))
      as Hgen.
    rewrite <- Hc in Hgen.
    apply Forall2_fmap_l in Hgen.
    assert (Hweak : Forall (λ e,
              is_Some (PATH e) ∧
              (COMPONENT e = None ∨
               ∃ c, c ∈ Components dscp ∧
                    COMPONENT e = Some (as_posix ws c.1.1)))
              (map move_entry (concat groups.*2))).
    { eapply Forall_impl; [exact Hentries|]. by intros e (HP & _ & HC & _). }
    revert Hgen Hweak. generalize (concat new_rows).
    generalize (map move_entry (concat groups.*2)). clear.
    induction 1 as [|e r es rs [n ->] _ IH]; intros Hall; [constructor|].
    apply Forall_cons in Hall as [(HP & HC) Hall].
    constructor; [|by apply IH].
    destruct (relativized_fields ws e) as (_ & HC' & _ & _ & _ & HP').
    simpl. split; [done|]. split; [done|].
    destruct HP as [p Hp]. exists p. split; [done|]. by apply HP'.
  - apply built_groups in Hg.
    revert Hg. clear -Hall.
    induction Hall as [|g rs gs rss Hrs _ IH]; intros Hg; [constructor|].
    apply Forall_cons in Hg as [Hg Hgs]. constructor; [|by apply IH].
    revert Hg. clear -Hrs.
    induction Hrs as [|e r es rs [n ->] _ IH]; intros Hg; [constructor|].
    apply Forall_cons in Hg as [([p Hp] & HC) Hg]. constructor; [|by apply IH].
    exists p. split; [done|].
    destruct (relativized_fields ws (move_entry e))
      as (_ & HC' & _ & _ & _ & HP').
    destruct (move_entry_fields e) as (HPm & _).
    simpl. split.
    + apply HP'. by rewrite HPm.
    + rewrite HC'. unfold move_entry. rewrite Hp, HC.
      case_decide as Heq; case_decide as Heq'; simpl; congruence.
Qed.

Lemma C10_only_path_relativized_witness :
  ∃ (groups : list (string * list entry))
    (new_rows : list (list instanced_inf_row)),
    instanced_inf (InstancedInfTable_parse Cases.two_absolute_components
                     Demo.table Demo.fresh_store).2
    = Some ([] ++ concat new_rows) ∧
    Forall2 (λ (g : string * list entry) rows,
               Forall2 (λ e r,
                          ∃ p, PATH e = Some p ∧
                               col_path r
                               = (if Demo.starts_with_slash p
                                  then Demo.strip_ws p else Some p) ∧
                               col_component r
                               = if decide (p = g.1) then None
                                 else Some g.1)
                 g.2 rows)
            groups new_rows ∧
    groups.*1 = ["/ws/Pkg/Comp1.inf"; "/ws/Pkg/Comp2.inf"].
Proof.
  destruct (proj1 C10_only_path_relativized Cases.two_absolute_components
              Demo.table Demo.fresh_store Cases.two_absolute_components_dsc
              (default [] (match _build_inf_table
                                   Cases.two_absolute_components Demo.table
                                   Cases.two_absolute_components_dsc with
                           | Ok entries => Some entries
                           | _ => None
                           end))
              [] [{| env_id := 1; env_date := 100 |}]
              {| env_id := 1; env_date := 100 |})
    as (groups & new_rows & Hg & Hrows & _ & Hown).
  - reflexivity.
  - vm_compute. reflexivity.
  - reflexivity.
  - reflexivity.
  - reflexivity.
  - vm_compute. discriminate.
  - exists groups, new_rows. split; [exact Hrows|]. split; [exact Hown|].
    clear -Hg.
    inversion Hg as [|? ? ? ? ? Hlib|? ? ? ? ? ? ? ? ? ? ? Hg1];
      [vm_compute in Hlib; discriminate Hlib|subst].
    inversion Hg1 as [|? ? ? ? ? Hlib|? ? ? ? ? ? ? ? ? ? ? Hg2];
      [vm_compute in Hlib; discriminate Hlib|subst].
    by inversion Hg2.
Defined.

(** ** C5: looking up the row of a library *)

Lemma inserted_elem env seq entries e :
  e ∈ entries → ∃ n, to_row env n e ∈ inserted env seq entries.
Proof.
  revert seq. induction entries as [|x xs IH]; intros seq Hin;
    [by apply elem_of_nil in Hin|].
  apply elem_of_cons in Hin as [->|Hin]; simpl.
  - eexists. by left.
  - destruct (IH (seq + 1)%Z Hin) as [n Hn]. exists n. by right.
Qed.

Lemma lookup_id_found rows env path dsc r :
  r ∈ rows → row_matches env path dsc r →
  ∃ r0, head (matching_rows rows env path dsc) = Some r0 ∧
        r0 ∈ rows ∧ row_matches env path dsc r0 ∧
        lookup_id rows env path dsc = Ok (col_id r0) ∧
        1 ≤ length (matching_rows rows env path dsc).
Proof.
  intros Hin Hm.
  assert (Hr : r ∈ matching_rows rows env path dsc)
    by (by apply list_elem_of_filter).
  unfold lookup_id.
  destruct (matching_rows rows env path dsc) as [|r0 rest] eqn:Hmatch;
    [by apply elem_of_nil in Hr|].
  assert (H0 : r0 ∈ matching_rows rows env path dsc)
    by (rewrite Hmatch; by left).
  apply list_elem_of_filter in H0 as [Hm0 Hin0].
  exists r0. simpl. split; [done|]. split; [done|]. split; [done|].
  split; [done|lia].
Qed.

Lemma first_match rows env path dsc r :
  r ∈ rows → row_matches env path dsc r →
  ∃ before r0 after,
    rows = before ++ r0 :: after ∧
    Forall (λ r', ¬ row_matches env path dsc r') before ∧
    row_matches env path dsc r0 ∧
    head (filter (row_matches env path dsc) rows) = Some r0.
Proof.
  intros Hin Hm. induction rows as [|x rows IH];
    [by apply elem_of_nil in Hin|].
  destruct (decide (row_matches env path dsc x)) as [Hx|Hx].
  - exists [], x, rows. split; [done|]. split; [constructor|].
    split; [done|]. by rewrite filter_cons_True.
  - apply elem_of_cons in Hin as [->|Hin]; [done|].
    destruct (IH Hin) as (before & r0 & after & -> & Hb & H0 & Hhead).
    exists (x :: before), r0, after. split; [done|].
    split; [by constructor|]. split; [done|].
    by rewrite filter_cons_False.
Qed.

(** C5 (as the code has it).  While [InstancedInfTable.parse] inserts the
    junction rows, the table [instanced_inf] is the one it has when [parse]
    ends.  With ids left for the rows of all entries, for every entry and every library path the entry lists that is not
    absolute, that table has at least one row with the environment id, the
    library path and the platform-description file name, and [GET_ROW_ID],
    run on the store [parse] leaves or on any store with that table, answers
    the id of the first such row: no row before it in the table has the
    three values.  Nothing makes the row the only one. *)
Theorem C5_library_lookup_finds_row (ws : Workspace)
    (self : InstancedInfTable) (s : Store) (dscp : DscParser)
    (entries : list entry) (rows0 : list instanced_inf_row)
    (envs : list environment_row) (renv : environment_row) :
  DscP ws (self_env self) (self_dsc self) = inr dscp →
  _build_inf_table ws self dscp = Ok entries →
  instanced_inf s = Some rows0 →
  environment s = Some envs → latest envs = Some renv →
  room_for (length entries) s →
  ∃ rows,
    instanced_inf (InstancedInfTable_parse ws self s).2 = Some rows ∧
    ∀ e library,
      e ∈ entries → library ∈ LIBRARIES_USED e →
      is_absolute ws library = false →
      ∃ before r after,
        rows = before ++ r :: after ∧
        Forall (λ r', ¬ (col_env r' = env_id renv ∧
                         col_path r' = Some library ∧
                         col_dsc r' = DSC e)) before ∧
        col_env r = env_id renv ∧ col_path r = Some library ∧
        col_dsc r = DSC e ∧
        GET_ROW_ID (env_id renv) (Some library) (DSC e)
          (InstancedInfTable_parse ws self s).2
        = (Ok (Some (col_id r)), (InstancedInfTable_parse ws self s).2) ∧
        ∀ s', instanced_inf s' = Some rows →
              GET_ROW_ID (env_id renv) (Some library) (DSC e) s'
              = (Ok (Some (col_id r)), s').
Proof.
  intros Hdsc Hb Hrows Henvs Hlatest Hroom.
  pose proof (parse_inserts _ _ _ _ _ _ _ _ Hdsc Hb Hrows Henvs Hlatest Hroom)
    as Hins.
  eexists. split; [exact Hins|].
  intros e library He Hlib Habs.
  pose proof (build_inf_table_entries _ _ _ _ Hb) as Hentries.
  rewrite Forall_forall in Hentries.
  destruct (Hentries e He) as (_ & HD & _ & HL).
  destruct (HL library Hlib) as (e1 & He1 & HP1).
  destruct (Hentries e1 He1) as (_ & HD1 & _).
  destruct (inserted_elem (env_id renv) (last_id s)
              (map (relativized ws) entries) (relativized ws e1))
    as [n Hn]; [by apply list_elem_of_fmap_2|].
  destruct (relativized_fields ws e1) as (HDr & _ & _ & _ & _ & HPr).
  specialize (HPr library HP1). rewrite Habs in HPr.
  destruct (first_match
              (rows0 ++ inserted (env_id renv) (last_id s)
                          (map (relativized ws) entries))
              (env_id renv) (Some library) (DSC e)
              (to_row (env_id renv) n (relativized ws e1)))
    as (before & r0 & after & Hsplit & Hbefore &
        (Henv0 & _ & Hpath0 & Hdsc0) & Hhead).
  - apply elem_of_app. by right.
  - unfold row_matches. simpl. rewrite HPr, HDr, HD1, HD. eauto.
  - exists before, r0, after. split; [done|]. split.
    { eapply Forall_impl; [exact Hbefore|]. simpl.
      intros r' Hnot (H1 & H2 & H3). apply Hnot. unfold row_matches. eauto. }
    split; [done|]. split; [done|]. split; [done|].
    assert (Hget : ∀ s', instanced_inf s'
                         = Some (rows0 ++ inserted (env_id renv) (last_id s)
                                            (map (relativized ws) entries)) →
              GET_ROW_ID (env_id renv) (Some library) (DSC e) s'
              = (Ok (Some (col_id r0)), s')).
    { intros s' Hs'. unfold GET_ROW_ID. by rewrite Hs', Hhead. }
    split; [by apply Hget|exact Hget].
Qed.

Lemma C5_library_lookup_finds_row_witness :
  ∃ rows r,
    instanced_inf (InstancedInfTable_parse Demo.diamond Demo.table
                     Demo.fresh_store).2 = Some rows ∧
    r ∈ rows ∧ col_path r = Some "Pkg/LibD.inf" ∧
    GET_ROW_ID 1 (Some "Pkg/LibD.inf") "Test.dsc"
      (InstancedInfTable_parse Demo.diamond Demo.table Demo.fresh_store).2
    = (Ok (Some (col_id r)),
       (InstancedInfTable_parse Demo.diamond Demo.table Demo.fresh_store).2).
Proof.
  destruct (C5_library_lookup_finds_row Demo.diamond Demo.table
              Demo.fresh_store Demo.diamond_dsc _ [] _ _
              eq_refl eq_refl eq_refl eq_refl eq_refl)
    as (rows & Hrows & Hfind).
  - vm_compute. discriminate.
  - destruct (Hfind
                {| DSC := "Test.dsc"; PATH := Some "Pkg/LibA.inf"; GUID := "";
                   NAME := "LibA"; COMPONENT := Some "Pkg/Comp.inf";
                   MODULE_TYPE := "BASE"; ARCH := "IA32"; SOURCES_USED := [];
                   LIBRARIES_USED := ["Pkg/LibD.inf"]; PROTOCOLS_USED := [];
                   GUIDS_USED := []; PPIS_USED := []; PCDS_USED := [] |}
                "Pkg/LibD.inf")
      as (before & r & after & Hsplit & _ & _ & Hpath & _ & Hget & _).
    + right. left.
    + left.
    + reflexivity.
    + exists rows, r. split; [exact Hrows|]. split.
      * rewrite Hsplit. apply elem_of_app. right. left.
      * split; [exact Hpath|exact Hget].
Defined.

(** C5, as stated, fails: the two components below link the same library
    instance, so when [parse] looks up the row of the library for the edge of
    either component, two rows have that environment id, path and
    platform-description file name. *)
Lemma C5_counterexample :
  ∃ entries rows e,
    _build_inf_table Demo.shared_library Demo.table Demo.shared_library_dsc
    = Ok entries ∧
    e ∈ entries ∧ "Pkg/LibA.inf" ∈ LIBRARIES_USED e ∧
    instanced_inf (InstancedInfTable_parse Demo.shared_library Demo.table
                     Demo.fresh_store).2 = Some rows ∧
    length (matching_rows rows 1 (Some "Pkg/LibA.inf") (DSC e)) = 2 ∧
    ∃ r1 r2,
      r1 ∈ rows ∧ r2 ∈ rows ∧ col_id r1 ≠ col_id r2 ∧
      (col_env r1 = 1%Z ∧ col_path r1 = Some "Pkg/LibA.inf" ∧
       col_dsc r1 = DSC e) ∧
      (col_env r2 = 1%Z ∧ col_path r2 = Some "Pkg/LibA.inf" ∧
       col_dsc r2 = DSC e).
Proof.
  eexists _, _, _. split; [vm_compute; reflexivity|].
  split; [right; left|]. split; [left|].
  split; [vm_compute; reflexivity|]. split; [vm_compute; reflexivity|].
  eexists _, _. split; [left|]. split; [right; right; left|].
  split; [discriminate|]. split; repeat split.
Qed.

(** ** C4: rows and edges of a library needed twice *)

Lemma mapM_length {A B} (f : A → res B) (xs : list A) (ys : list B) :
  mapM f xs = Ok ys → length ys = length xs.
Proof. intros Hm. apply mapM_Ok, Forall2_length in Hm. done. Qed.

Lemma edges_of_length rows env e x :
  edges_of rows env e = Ok x →
  length x = length (SOURCES_USED e) + length (LIBRARIES_USED e).
Proof.
  unfold edges_of. intros Hx.
  apply bind_Ok in Hx as (inf_id & _ & Hx).
  apply bind_Ok in Hx as (libs & Hlibs & Hx). injection Hx as <-.
  apply mapM_length in Hlibs.
  rewrite length_app, Hlibs. unfold source_edges. by rewrite length_map.
Qed.

Lemma relativized_used ws e :
  SOURCES_USED (relativized ws e) = SOURCES_USED e ∧
  LIBRARIES_USED (relativized ws e) = LIBRARIES_USED e.
Proof.
  unfold relativized. destruct (PATH e) as [p|]; [|done].
  by destruct (is_absolute ws p).
Qed.

(** C4 (as the code has it).  In the traversal of one component every
    visited INF has one record, and the record lists all the library
    instances the INF resolves to, those already visited included.  When
    [InstancedInfTable.parse] succeeds, the junction table has received, for
    every entry of the row list and in its order, one row per source and one
    row per listed library, the latter pointing at the row the lookup of the
    library finds.  So a library needed by two libraries of a component has
    a single row, and each of the two has its own edge to it. *)
Theorem C4_one_row_and_an_edge_per_consumer :
  (∀ (ws : Workspace) (self : InstancedInfTable) (fuel : nat) (inf : string)
     (library_dict : gmap string string) (overrides : override_dict)
     (scope : string) (rows : list entry) (visited : list string),
     _parse_inf_recursively ws self fuel inf inf library_dict overrides scope []
       = Ok (rows, visited) →
     ∃ nodes,
       NoDup nodes ∧
       Forall2 (λ n r,
                  ∃ libs,
                    node_libraries ws self library_dict overrides scope n
                    = Ok libs ∧
                    PATH r = Some (as_posix ws n) ∧
                    LIBRARIES_USED r = map (as_posix ws) libs ∧
                    ∀ l, l ∈ libs → l ∈ nodes)
               nodes rows) ∧
  (∀ (ws : Workspace) (self : InstancedInfTable) (s s' : Store)
     (rows0 : list instanced_inf_row) (j0 : list junction_row),
     instanced_inf s = Some rows0 → junction s = Some j0 →
     InstancedInfTable_parse ws self s = (Ok tt, s') →
     ∃ dscp entries env rows edges,
       DscP ws (self_env self) (self_dsc self) = inr dscp ∧
       _build_inf_table ws self dscp = Ok entries ∧
       instanced_inf s' = Some rows ∧
       junction s' = Some (j0 ++ concat edges) ∧
       Forall2 (λ e x,
                  edges_of rows env (relativized ws e) = Ok x ∧
                  length x
                  = length (SOURCES_USED e) + length (LIBRARIES_USED e))
               entries edges).
Proof.
  split.
  - intros ws self fuel inf library_dict overrides scope rows visited Hrun.
    apply parse_inf_recursively_traversal in Hrun
      as (nodes & (Hp & Hnd & _ & Hrec & Hcl) & _); [|apply not_elem_of_nil].
    simpl in Hp. exists (nodes ++ [inf]). split; [done|].
    assert (Hrec' :
      Forall2 (λ n r,
                 n ∈ nodes ++ [inf] ∧
                 node_record ws self inf library_dict overrides scope n = Ok r)
        (nodes ++ [inf]) rows).
    { apply Forall2_same_length_lookup_2; [by eapply Forall2_length|].
      intros i n r Hn Hr. split; [by eapply list_elem_of_lookup_2|].
      exact (Forall2_lookup_lr _ _ _ _ _ _ Hrec Hn Hr). }
    eapply Forall2_impl; [exact Hrec'|].
    intros n r [Hn Hr]. simpl in Hr.
    apply node_record_fields in Hr as (libs & Hlibs & _ & HP & _ & HL).
    exists libs. split; [done|]. split; [done|]. split; [done|].
    intros l Hl. rewrite <- Hp. by eapply Hcl.
  - intros ws self s s' rows0 j0 Hrows Hj Hrun.
    destruct (DscP ws (self_env self) (self_dsc self)) as [e|dscp] eqn:Hdsc.
    { unfold InstancedInfTable_parse in Hrun.
      rewrite lift_bind, Hdsc in Hrun. done. }
    destruct (_build_inf_table ws self dscp) as [entries|e|] eqn:Hb.
    2,3: unfold InstancedInfTable_parse in Hrun;
         rewrite lift_bind, Hdsc in Hrun; simpl in Hrun;
         rewrite lift_bind, Hb in Hrun; done.
    rewrite (parse_after_build _ _ _ _ _ Hdsc Hb) in Hrun.
    apply st_bind_Ok in Hrun as (row & s0 & Hsel & Hrun).
    assert (s0 = s) as ->.
    { unfold SELECT_LATEST_ENVIRONMENT in Hsel.
      destruct (environment s); by injection Hsel as _ <-. }
    apply st_bind_Ok in Hrun as (env & s0 & Henv & Hrun).
    unfold lift in Henv. injection Henv as _ <-.
    apply st_bind_Ok in Hrun as ([] & s1 & Hins & Hrun).
    apply (add_instanced_inf_entries_Ok _ _ _ _ _ Hrows) in Hins
      as (rows & seq' & ->).
    eapply add_junction_entries_Ok in Hrun as (edges & Hedges & ->);
      [|reflexivity|exact Hj].
    exists dscp, entries, env. eexists _, edges.
    split; [done|]. split; [done|]. split; [reflexivity|].
    split; [reflexivity|].
    apply Forall2_fmap_l in Hedges.
    eapply Forall2_impl; [exact Hedges|].
    intros e x Hx. simpl in Hx. split; [done|].
    apply edges_of_length in Hx.
    destruct (relativized_used ws e) as [Hs Hl]. by rewrite Hx, Hs, Hl.
Qed.

Lemma diamond_parse_run :
  InstancedInfTable_parse Demo.diamond Demo.table Demo.fresh_store
  = (Ok tt,
     (InstancedInfTable_parse Demo.diamond Demo.table Demo.fresh_store).2).
Proof. vm_compute. reflexivity. Qed.

Lemma C4_one_row_and_an_edge_per_consumer_witness :
  ∃ entries edges,
    _build_inf_table Demo.diamond Demo.table Demo.diamond_dsc = Ok entries ∧
    junction (InstancedInfTable_parse Demo.diamond Demo.table
                Demo.fresh_store).2 = Some (concat edges) ∧
    length edges = length entries.
Proof.
  destruct (proj2 C4_one_row_and_an_edge_per_consumer Demo.diamond Demo.table
              Demo.fresh_store _ [] [] eq_refl eq_refl diamond_parse_run)
    as (dscp & entries & env & rows & edges & Hdsc & Hb & _ & Hj & Hall).
  injection Hdsc as <-.
  exists entries, edges. split; [exact Hb|]. split; [exact Hj|].
  apply Forall2_length in Hall. by rewrite Hall.
Defined.

(** C4, as stated, fails: in the component below two libraries need the same
    third one.  After [parse] the third library has one row, with id 1, and
    the junction table has two rows that point at it, one from each of the
    two libraries (ids 2 and 3): the edge of the second consumer is there. *)
Lemma C4_counterexample :
  let s' := (InstancedInfTable_parse Demo.diamond Demo.table
               Demo.fresh_store).2 in
  ∃ rows edges,
    instanced_inf s' = Some rows ∧ junction s' = Some edges ∧
    (col_id <$> filter (λ r, col_path r = Some "Pkg/LibD.inf") rows) = [1%Z] ∧
    (col_path <$> filter (λ r, col_id r = 2%Z ∨ col_id r = 3%Z) rows)
    = [Some "Pkg/LibA.inf"; Some "Pkg/LibB.inf"] ∧
    filter (λ j, table2 j = "instanced_inf" ∧ key2 j = SInt 1) edges
    = [{| table1 := "instanced_inf"; key1 := SInt 2;
          table2 := "instanced_inf"; key2 := SInt 1 |};
       {| table1 := "instanced_inf"; key1 := SInt 3;
          table2 := "instanced_inf"; key2 := SInt 1 |}].
Proof.
  cbv zeta. eexists _, _.
  split; [vm_compute; reflexivity|]. split; [vm_compute; reflexivity|].
  split; [vm_compute; reflexivity|]. split; vm_compute; reflexivity.
Qed.

(** ** C2: a library class nothing is mapped to *)

Lemma lib_to_instance_unresolved dsc cls scope arch module library_dict
    overrides :
  unpack_scope scope = Ok (arch, module) →
  ov_classes overrides !! cls = None →
  library_dict !! (arch +:+ "." +:+ module +:+ "." +:+ cls) = None →
  library_dict !! ("common." +:+ module +:+ "." +:+ cls) = None →
  library_dict !! (arch +:+ "." +:+ cls) = None →
  library_dict !! ("common." +:+ cls) = None →
  _lib_to_instance dsc cls scope library_dict overrides
  = Raise (RuntimeError (cannot_find dsc cls scope)).
Proof.
  intros Hs Hov H1 H2 H3 H4. unfold _lib_to_instance.
  rewrite Hs. simpl. by rewrite Hov, H1, H2, H3, H4.
Qed.

Lemma built_member ws self library_dict components groups inf scope overrides
    infp :
  built ws self library_dict components groups →
  (inf, scope, overrides) ∈ components →
  InfP ws inf = inr infp → Dict infp !! "LIBRARY_CLASS" = None →
  ∃ rows visited,
    _parse_inf_recursively ws self (enough_fuel library_dict overrides) inf inf
      library_dict overrides (component_scope infp scope) []
    = Ok (rows, visited).
Proof.
  intros Hb Hin Hinfp Hlib.
  induction Hb as [|inf' scope' ov' rest groups Hlib' _ IH
                   |inf' scope' ov' rest groups infp' rows visited Hinfp' _
                      Hrun _ IH].
  - by apply elem_of_nil in Hin.
  - apply elem_of_cons in Hin as [[= <- <- <-]|Hin]; [|by apply IH].
    unfold declares_library_class in Hlib'. rewrite Hinfp in Hlib'.
    apply bool_decide_eq_true in Hlib' as [x Hx]. congruence.
  - apply elem_of_cons in Hin as [[= <- <- <-]|Hin]; [|by apply IH].
    rewrite Hinfp in Hinfp'. injection Hinfp' as <-. eauto.
Qed.

Lemma reach_expanded ws self library_dict overrides scope inf n
    (nodes : list string) :
  (∀ m libs l, m ∈ nodes →
     node_libraries ws self library_dict overrides scope m = Ok libs →
     l ∈ libs → l ∈ nodes) →
  (∀ m, m ∈ nodes →
     ∃ libs, node_libraries ws self library_dict overrides scope m = Ok libs) →
  inf ∈ nodes →
  reach ws self library_dict overrides scope inf n → n ∈ nodes.
Proof.
  intros Hcl Hok Hroot. induction 1 as [|m libs l _ IH Hlibs Hl]; [done|].
  by eapply Hcl.
Qed.

Lemma build_components_app ws self library_dict before rest inf_entries :
  build_components ws self library_dict (before ++ rest) inf_entries
  = (rows ← build_components ws self library_dict before inf_entries;
     build_components ws self library_dict rest rows).
Proof.
  revert inf_entries.
  induction before as [|[[inf scope] overrides] before IH]; intros inf_entries;
    [done|].
  cbn [app build_components].
  destruct (call (InfP ws inf)) as [infp| |]; cbn [mbind res_bind];
    [|done|done].
  case_decide; [apply IH|].
  generalize (_parse_inf_recursively ws self
                (enough_fuel library_dict overrides) inf inf library_dict
                overrides (component_scope infp scope) []).
  intros [[rows visited]| |]; cbn [mbind res_bind]; [apply IH|done|done].
Qed.

(** C2.  When a library class needed by an INF in the tree of a declared
    component has no override and none of the four keys of its scope in the
    library map, [_lib_to_instance] raises a [RuntimeError] whose message is
    "Cannot find library class [CLASS] for scope [SCOPE] when evaluating DSC"
    with the class, the scope and the platform description in the three
    places; no row list is built, and [InstancedInfTable.parse] raises and
    leaves the store as it found it: no row of that platform description is
    written, so none can be committed.  When the INF is the component
    itself, the components declared before it expand and the classes the INF
    lists before this one resolve, the error [parse] raises is this very
    [RuntimeError]. *)
Theorem C2_unresolved_class_is_fatal (ws : Workspace)
    (self : InstancedInfTable) (s : Store) (dscp : DscParser)
    (inf scope : string) (overrides : override_dict) (infp : InfParser)
    (arch module n : string) (infp_n : InfParser) (lib cls : string) :
  DscP ws (self_env self) (self_dsc self) = inr dscp →
  (inf, scope, overrides) ∈ Components dscp →
  InfP ws inf = inr infp → Dict infp !! "LIBRARY_CLASS" = None →
  unpack_scope (component_scope infp scope) = Ok (arch, module) →
  reach ws self (ScopedLibraryDict dscp) overrides (component_scope infp scope)
    inf n →
  InfP ws n = inr infp_n →
  lib ∈ get_libraries infp_n (self_arch self) →
  first (split " " lib) = Ok cls →
  ov_classes overrides !! lower cls = None →
  ScopedLibraryDict dscp !! (arch +:+ "." +:+ module +:+ "." +:+ lower cls)
    = None →
  ScopedLibraryDict dscp !! ("common." +:+ module +:+ "." +:+ lower cls)
    = None →
  ScopedLibraryDict dscp !! (arch +:+ "." +:+ lower cls) = None →
  ScopedLibraryDict dscp !! ("common." +:+ lower cls) = None →
  let message :=
    "Cannot find library class [" +:+ lower cls +:+ "] for scope ["
      +:+ component_scope infp scope +:+ "] when evaluating "
      +:+ self_dsc self in
  _lib_to_instance (self_dsc self) (lower cls) (component_scope infp scope)
    (ScopedLibraryDict dscp) overrides
  = Raise (RuntimeError message) ∧
  (∃ e, _build_inf_table ws self dscp = Raise e ∧
        InstancedInfTable_parse ws self s = (Raise e, s)) ∧
  (n = inf →
   ∀ (before after : list (string * string * override_dict))
     (rows_before : list entry) (libs_before libs_after insts : list string),
     Components dscp = before ++ (inf, scope, overrides) :: after →
     build_components ws self (ScopedLibraryDict dscp) before []
     = Ok rows_before →
     get_libraries infp_n (self_arch self)
     = libs_before ++ lib :: libs_after →
     mapM (resolve_library self (component_scope infp scope)
             (ScopedLibraryDict dscp) overrides) libs_before = Ok insts →
     _build_inf_table ws self dscp = Raise (RuntimeError message) ∧
     InstancedInfTable_parse ws self s = (Raise (RuntimeError message), s)).
Proof.
  intros Hdsc Hc Hinfp Hlib Hscope Hreach Hn Hlibn Hcls Hov H1 H2 H3 H4 message.
  pose proof (lib_to_instance_unresolved (self_dsc self) _ _ _ _ _ _
                Hscope Hov H1 H2 H3 H4) as Hraise.
  change (cannot_find (self_dsc self) (lower cls) (component_scope infp scope))
    with message in Hraise.
  split; [done|]. split.
  - destruct (_build_inf_table ws self dscp) as [entries|e|] eqn:Hb.
    + exfalso. unfold _build_inf_table in Hb.
      apply bind_Ok in Hb as (raw & Hraw & _).
      apply build_components_built in Hraw as (groups & Hg & _).
      destruct (built_member _ _ _ _ _ _ _ _ _ Hg Hc Hinfp Hlib)
        as (rows & visited & Hrun).
      apply parse_inf_recursively_traversal in Hrun
        as (nodes & (Hp & _ & _ & Hrec & Hcl) & _); [|apply not_elem_of_nil].
      simpl in Hp.
      assert (Hok : ∀ m, m ∈ nodes ++ [inf] →
                ∃ libs, node_libraries ws self (ScopedLibraryDict dscp)
                          overrides (component_scope infp scope) m = Ok libs).
      { intros m Hm. apply list_elem_of_lookup in Hm as (i & Hi).
        destruct (Forall2_lookup_l _ _ _ _ _ Hrec Hi) as (r & _ & Hr).
        apply node_record_fields in Hr as (libs & Hlibs & _). eauto. }
      assert (Hnn : n ∈ nodes ++ [inf]).
      { eapply reach_expanded; [|exact Hok| |exact Hreach].
        - intros m libs l Hm Hlibs Hl. rewrite <- Hp. by eapply Hcl.
        - apply elem_of_app. right. by left. }
      destruct (Hok n Hnn) as [libs Hlibs].
      unfold node_libraries in Hlibs. rewrite Hn in Hlibs. simpl in Hlibs.
      unfold library_instances_of in Hlibs.
      apply bind_Ok in Hlibs as (resolved & Hres & _).
      apply mapM_Ok in Hres.
      apply list_elem_of_lookup in Hlibn as (i & Hi).
      destruct (Forall2_lookup_l _ _ _ _ _ Hres Hi) as (inst & _ & Hinst).
      unfold resolve_library in Hinst. rewrite Hcls in Hinst. simpl in Hinst.
      by rewrite Hraise in Hinst.
    + eexists. split; [done|]. by eapply parse_build_raises.
    + by apply build_inf_table_terminates in Hb.
  - intros -> before after rows_before libs_before libs_after insts
      Hcomponents Hbefore Hlibs Hinsts.
    rewrite Hinfp in Hn. injection Hn as <-.
    assert (Hb : _build_inf_table ws self dscp = Raise (RuntimeError message)).
    { unfold _build_inf_table.
      rewrite Hcomponents, build_components_app, Hbefore. simpl.
      rewrite Hinfp. simpl.
      rewrite decide_False by (rewrite Hlib; by intros [? ?]).
      unfold enough_fuel. cbn [_parse_inf_recursively].
      rewrite ?Hinfp. simpl. unfold library_instances_of.
      rewrite Hlibs.
      rewrite (mapM_raise _ libs_before lib libs_after (RuntimeError message));
        [done| |].
      - apply mapM_Ok in Hinsts. clear -Hinsts.
        induction Hinsts; constructor; eauto.
      - unfold resolve_library. rewrite Hcls. simpl. exact Hraise. }
    split; [done|]. by eapply parse_build_raises.
Qed.

Lemma C2_unresolved_class_is_fatal_witness :
  InstancedInfTable_parse Demo.missing_library Demo.table Demo.fresh_store
  = (Raise (RuntimeError
              ("Cannot find library class [" +:+ "testcls" +:+ "] for scope ["
                 +:+ "x64.peim" +:+ "] when evaluating " +:+ "Pkg/Test.dsc")),
     Demo.fresh_store).
Proof.
  refine (proj2 (proj2 (proj2 (C2_unresolved_class_is_fatal
                   Demo.missing_library Demo.table
                   Demo.fresh_store Demo.missing_library_dsc
                   "Pkg/TestDriver1.inf" "x64" Demo.no_overrides _
                   "x64" "peim" "Pkg/TestDriver1.inf" _ "TestCls" "TestCls"
                   eq_refl _ eq_refl eq_refl eq_refl _ eq_refl _ eq_refl
                   eq_refl eq_refl eq_refl eq_refl eq_refl))
                 eq_refl [] [] [] [] [] [] eq_refl eq_refl eq_refl eq_refl)).
  - left.
  - apply reach_root.
  - left.
Defined.

(** The run of the test [test_missing_library]: the message of the error. *)
Example missing_library_error :
  InstancedInfTable_parse Demo.missing_library Demo.table Demo.fresh_store
  = (Raise (RuntimeError
              "Cannot find library class [testcls] for scope [x64.peim] when evaluating Pkg/Test.dsc"),
     Demo.fresh_store).
Proof. vm_compute. reflexivity. Qed.

(** * Further properties of the modelled code *)

(** ** [InstancedInfTable.parse] only appends *)














(** ** The outcome of [InstancedInfTable.parse] *)

Lemma mapM_Ok_intro {A B} (f : A → res B) (xs : list A) :
  (∀ x, x ∈ xs → ∃ y, f x = Ok y) → ∃ ys, mapM f xs = Ok ys.
Proof.
  induction xs as [|x xs IH]; intros Hf; simpl; [by eexists|].
  destruct (Hf x) as [y Hy]; [by left|].
  destruct IH as [ys Hys]; [intros z Hz; apply Hf; by right|].
  rewrite Hy. simpl. rewrite Hys. simpl. by eexists.
Qed.

Lemma lookup_fwd env path dsc s rows {B} (k : Z → db B) id :
  instanced_inf s = Some rows →
  lookup_id rows env path dsc = Ok id →
  (row ← GET_ROW_ID env path dsc; used_inf_id ← lift (subscript0 row);
   k used_inf_id) s = k id s.
Proof.
  intros Hs Hid. unfold mbind at 1, st_bind at 1, GET_ROW_ID. rewrite Hs.
  rewrite lift_bind. unfold lookup_id, matching_rows in Hid. by rewrite Hid.
Qed.

Lemma lookup_miss env path dsc s rows {B} (k : Z → db B) e :
  instanced_inf s = Some rows →
  lookup_id rows env path dsc = Raise e →
  (row ← GET_ROW_ID env path dsc; used_inf_id ← lift (subscript0 row);
   k used_inf_id) s = (Raise e, s).
Proof.
  intros Hs Hid. unfold mbind at 1, st_bind at 1, GET_ROW_ID. rewrite Hs.
  rewrite lift_bind. unfold lookup_id, matching_rows in Hid. by rewrite Hid.
Qed.

Lemma lookup_id_outcome rows env path dsc :
  (∃ id, lookup_id rows env path dsc = Ok id) ∨
  lookup_id rows env path dsc = Raise none_not_subscriptable.
Proof.
  unfold lookup_id. destruct (head _); simpl; eauto.
Qed.

Lemma library_loop_run rows env inf_id e s j0 libs :
  instanced_inf s = Some rows → junction s = Some j0 →
  library_edges rows env inf_id e = Ok libs →
  for_each (LIBRARIES_USED e)
    (λ library,
       row ← GET_ROW_ID env (Some library) (DSC e);
       used_inf_id ← lift (subscript0 row);
       INSERT_JUNCTION_ROW "instanced_inf" (SInt inf_id)
         "instanced_inf" (SInt used_inf_id)) s
  = (Ok tt, set_junction (Some (j0 ++ libs)) s).
Proof.
  unfold library_edges. generalize (LIBRARIES_USED e) as libraries.
  intros libraries. revert s j0 libs.
  induction libraries as [|l ls IH]; intros s j0 libs Hrows Hj Hlibs;
    simpl in *.
  - injection Hlibs as <-. rewrite app_nil_r. destruct s; simpl in *. by subst.
  - apply bind_Ok in Hlibs as (edge & Hedge & Hlibs).
    apply bind_Ok in Hedge as (used & Hused & Hedge). injection Hedge as <-.
    apply bind_Ok in Hlibs as (rest & Hrest & Hlibs). injection Hlibs as <-.
    unfold mbind at 1, st_bind at 1.
    rewrite (lookup_fwd _ _ _ _ _ _ _ Hrows Hused).
    unfold INSERT_JUNCTION_ROW at 1. rewrite Hj.
    erewrite IH; [|done|reflexivity|exact Hrest].
    by rewrite set_junction_twice, <- (assoc_L (++)).
Qed.

Lemma add_junction_entries_run env entries s rows j0 edges :
  instanced_inf s = Some rows → junction s = Some j0 →
  Forall2 (λ e x, edges_of rows env e = Ok x) entries edges →
  add_junction_entries env entries s
  = (Ok tt, set_junction (Some (j0 ++ concat edges)) s).
Proof.
  unfold add_junction_entries. intros Hrows Hj Hall. revert s j0 Hrows Hj.
  induction Hall as [|e x es xs Hx _ IH]; intros s j0 Hrows Hj; simpl.
  - rewrite app_nil_r. destruct s; simpl in *. by subst.
  - unfold edges_of in Hx.
    apply bind_Ok in Hx as (inf_id & Hid & Hx).
    apply bind_Ok in Hx as (libs & Hlibs & Hx). injection Hx as <-.
    unfold mbind at 1, st_bind at 1.
    rewrite (lookup_fwd _ _ _ _ _ _ _ Hrows Hid).
    unfold mbind at 1, st_bind at 1.
    rewrite (source_loop_run _ _ _ _ Hj).
    erewrite library_loop_run; [|done|reflexivity|exact Hlibs].
    erewrite IH; [|done|reflexivity].
    by rewrite !set_junction_twice, <- !(assoc_L (++)).
Qed.

(** With both tables there, the junction loop ends normally or on a lookup
    that found no row. *)
Lemma for_each_outcome {A} (xs : list A) (body : A → db unit) s :
  tables_exist s →
  (∀ x s, tables_exist s →
     tables_exist (body x s).2 ∧
     ((body x s).1 = Ok tt ∨ (body x s).1 = Raise none_not_subscriptable)) →
  tables_exist (for_each xs body s).2 ∧
  ((for_each xs body s).1 = Ok tt ∨
   (for_each xs body s).1 = Raise none_not_subscriptable).
Proof.
  intros Hs Hbody. revert s Hs.
  induction xs as [|x xs IH]; intros s Hs; simpl; [auto|].
  unfold mbind, st_bind. destruct (Hbody x s Hs) as [Ht Hr].
  destruct (body x s) as [[[]| |] s1]; simpl in *; [by apply IH| |].
  - split; [done|]. destruct Hr as [Hr|Hr]; [done|by right].
  - by destruct Hr.
Qed.

Lemma tables_exist_insert_junction t1 k1 t2 k2 s :
  tables_exist s →
  tables_exist (INSERT_JUNCTION_ROW t1 k1 t2 k2 s).2 ∧
  (INSERT_JUNCTION_ROW t1 k1 t2 k2 s).1 = Ok tt.
Proof.
  intros [Hi [j Hj]]. unfold INSERT_JUNCTION_ROW. rewrite Hj. simpl.
  split; [|done]. split; [done|]. simpl. eauto.
Qed.

Lemma lookup_then_outcome env path dsc (k : Z → db unit) s :
  tables_exist s →
  (∀ id s, tables_exist s →
     tables_exist (k id s).2 ∧
     ((k id s).1 = Ok tt ∨ (k id s).1 = Raise none_not_subscriptable)) →
  let m := (row ← GET_ROW_ID env path dsc; id ← lift (subscript0 row); k id) in
  tables_exist (m s).2 ∧
  ((m s).1 = Ok tt ∨ (m s).1 = Raise none_not_subscriptable).
Proof.
  intros Hs Hk. cbv zeta. destruct Hs as [[rows Hrows] Hj].
  destruct (lookup_id_outcome rows env path dsc) as [[id Hid]|Hmiss].
  - rewrite (lookup_fwd _ _ _ _ _ _ _ Hrows Hid). apply Hk. split; eauto.
  - rewrite (lookup_miss _ _ _ _ _ _ _ Hrows Hmiss). simpl.
    split; [split; eauto|by right].
Qed.

Lemma add_junction_entries_outcome env entries s :
  tables_exist s →
  (add_junction_entries env entries s).1 = Ok tt ∨
  (add_junction_entries env entries s).1 = Raise none_not_subscriptable.
Proof.
  intros Hs. unfold add_junction_entries.
  apply for_each_outcome; [done|]. clear s Hs. intros e s Hs.
  apply (lookup_then_outcome env (PATH e) (DSC e)); [done|].
  clear s Hs. intros inf_id s Hs.
  unfold mbind, st_bind.
  destruct (for_each_outcome (SOURCES_USED e)
              (λ source, INSERT_JUNCTION_ROW "instanced_inf" (SInt inf_id)
                           "source" (SText source)) s Hs) as [Ht Hr].
  { intros x s0 Hs0.
    destruct (tables_exist_insert_junction "instanced_inf" (SInt inf_id)
                "source" (SText x) s0 Hs0). auto. }
  destruct (for_each (SOURCES_USED e) _ s) as [[[]| |] s1]; simpl in *.
  - apply for_each_outcome; [done|]. intros l s2 Hs2.
    apply (lookup_then_outcome env (Some l) (DSC e)); [done|].
    intros used s3 Hs3.
    destruct (tables_exist_insert_junction "instanced_inf" (SInt inf_id)
                "instanced_inf" (SInt used) s3 Hs3). auto.
  - split; [done|]. destruct Hr as [Hr|Hr]; [done|by right].
  - by destruct Hr.
Qed.

(** After the rows are in, with both tables there, [parse] ends normally or
    on a lookup that found no row. *)
Lemma parse_outcome ws self s dscp entries rows0 j0 envs renv :
  DscP ws (self_env self) (self_dsc self) = inr dscp →
  _build_inf_table ws self dscp = Ok entries →
  instanced_inf s = Some rows0 → junction s = Some j0 →
  environment s = Some envs → latest envs = Some renv →
  room_for (length entries) s →
  (InstancedInfTable_parse ws self s).1 = Ok tt ∨
  (InstancedInfTable_parse ws self s).1 = Raise none_not_subscriptable.
Proof.
  intros Hdsc Hb Hrows Hj Henvs Hlatest Hroom.
  rewrite <- (length_map (relativized ws)) in Hroom.
  rewrite (parse_after_build _ _ _ _ _ Hdsc Hb).
  assert (Hsel : SELECT_LATEST_ENVIRONMENT s = (Ok (Some (env_id renv)), s))
    by (unfold SELECT_LATEST_ENVIRONMENT; by rewrite Henvs, Hlatest).
  rewrite (st_bind_run _ _ _ _ _ Hsel), lift_bind. simpl.
  rewrite (st_bind_run _ _ _ _ _
             (add_instanced_inf_entries_run _ _ _ _ Hrows Hroom)).
  apply add_junction_entries_outcome. split; simpl; eauto.
Qed.

(** What a normal end of [parse] says about the lookups. *)
Lemma parse_Ok_edges ws self s s' dscp entries rows0 j0 envs renv :
  DscP ws (self_env self) (self_dsc self) = inr dscp →
  _build_inf_table ws self dscp = Ok entries →
  instanced_inf s = Some rows0 → junction s = Some j0 →
  environment s = Some envs → latest envs = Some renv →
  room_for (length entries) s →
  InstancedInfTable_parse ws self s = (Ok tt, s') →
  ∃ edges,
    Forall2 (λ e x,
               edges_of (rows0 ++ inserted (env_id renv) (last_id s)
                                    (map (relativized ws) entries))
                 (env_id renv) (relativized ws e) = Ok x) entries edges ∧
    junction s' = Some (j0 ++ concat edges).
Proof.
  intros Hdsc Hb Hrows Hj Henvs Hlatest Hroom Hrun.
  rewrite <- (length_map (relativized ws)) in Hroom.
  rewrite (parse_after_build _ _ _ _ _ Hdsc Hb) in Hrun.
  assert (Hsel : SELECT_LATEST_ENVIRONMENT s = (Ok (Some (env_id renv)), s))
    by (unfold SELECT_LATEST_ENVIRONMENT; by rewrite Henvs, Hlatest).
  rewrite (st_bind_run _ _ _ _ _ Hsel), lift_bind in Hrun. simpl in Hrun.
  rewrite (st_bind_run _ _ _ _ _
             (add_instanced_inf_entries_run _ _ _ _ Hrows Hroom)) in Hrun.
  eapply add_junction_entries_Ok in Hrun as (edges & Hedges & ->);
    [|reflexivity|exact Hj].
  exists edges. split; [|done]. by apply Forall2_fmap_l in Hedges.
Qed.

Lemma Forall2_choice {A B} (P : A → B → Prop) (xs : list A) :
  (∀ x, x ∈ xs → ∃ y, P x y) → ∃ ys, Forall2 P xs ys.
Proof.
  induction xs as [|x xs IH]; intros HP; [exists []; constructor|].
  destruct (HP x) as [y Hy]; [by left|].
  destruct IH as [ys Hys]; [intros z Hz; apply HP; by right|].
  exists (y :: ys). by constructor.
Qed.

Lemma inserted_inv env seq entries r :
  r ∈ inserted env seq entries → ∃ n e, e ∈ entries ∧ r = to_row env n e.
Proof.
  revert seq. induction entries as [|x xs IH]; intros seq Hr; simpl in Hr;
    [by apply elem_of_nil in Hr|].
  apply elem_of_cons in Hr as [->|Hr].
  - eexists _, x. split; [by left|done].
  - destruct (IH _ Hr) as (n & e & He & ->). exists n, e. split; [by right|done].
Qed.

Lemma inserted_length env seq entries :
  length (inserted env seq entries) = length entries.
Proof.
  revert seq. induction entries as [|x xs IH]; intros seq; simpl; [done|].
  by rewrite IH.
Qed.

(** The row of a listed library is in the table when its path is not
    absolute. *)
Lemma library_row_present ws self dscp entries env seq rows0 e l :
  _build_inf_table ws self dscp = Ok entries →
  e ∈ entries → l ∈ LIBRARIES_USED e → is_absolute ws l = false →
  ∃ r, r ∈ rows0 ++ inserted env seq (map (relativized ws) entries) ∧
       row_matches env (Some l) (DSC e) r.
Proof.
  intros Hb He Hl Habs.
  pose proof (build_inf_table_entries _ _ _ _ Hb) as Hentries.
  rewrite Forall_forall in Hentries.
  destruct (Hentries e He) as (_ & HD & _ & HL).
  destruct (HL l Hl) as (e1 & He1 & HP1).
  destruct (Hentries e1 He1) as (_ & HD1 & _).
  destruct (inserted_elem env seq (map (relativized ws) entries)
              (relativized ws e1)) as [n Hn]; [by apply list_elem_of_fmap_2|].
  destruct (relativized_fields ws e1) as (HDr & _ & _ & _ & _ & HPr).
  specialize (HPr l HP1). rewrite Habs in HPr.
  eexists. split; [apply elem_of_app; right; exact Hn|].
  unfold row_matches. simpl. rewrite HPr, HDr, HD1, HD. eauto.
Qed.

(** ** X2: when [InstancedInfTable.parse] succeeds *)

(** X2.  With both tables created, an environment row present and ids left
    below the last rowid for as many rows as the row list has entries,
    [InstancedInfTable.parse] ends normally on every row list whose absolute
    paths can all be made relative and whose listed library paths are not
    absolute: no lookup misses.  It has then written one row per entry and,
    for every entry, one junction row per source and per listed library. *)
Theorem X2_parse_succeeds (ws : Workspace) (self : InstancedInfTable)
    (s : Store) (dscp : DscParser) (entries : list entry)
    (rows0 : list instanced_inf_row) (j0 : list junction_row)
    (envs : list environment_row) (renv : environment_row) :
  DscP ws (self_env self) (self_dsc self) = inr dscp →
  _build_inf_table ws self dscp = Ok entries →
  instanced_inf s = Some rows0 → junction s = Some j0 →
  environment s = Some envs → latest envs = Some renv →
  (∀ e p, e ∈ entries → PATH e = Some p → is_absolute ws p = true →
          is_Some (GetEdk2RelativePathFromAbsolutePath ws p)) →
  (∀ e l, e ∈ entries → l ∈ LIBRARIES_USED e → is_absolute ws l = false) →
  room_for (length entries) s →
  ∃ s' new edges,
    InstancedInfTable_parse ws self s = (Ok tt, s') ∧
    instanced_inf s' = Some (rows0 ++ new) ∧ length new = length entries ∧
    junction s' = Some (j0 ++ concat edges) ∧
    Forall2 (λ e x, length x
                    = length (SOURCES_USED e) + length (LIBRARIES_USED e))
      entries edges.
Proof.
  intros Hdsc Hb Hrows Hj Henvs Hlatest Hrel Hlibs Hroom.
  rewrite <- (length_map (relativized ws)) in Hroom.
  set (rows := rows0 ++ inserted (env_id renv) (last_id s)
                         (map (relativized ws) entries)).
  assert (Hedges : ∃ edges,
            Forall2 (λ e x, edges_of rows (env_id renv) (relativized ws e)
                            = Ok x) entries edges).
  { apply Forall2_choice. intros e He.
    pose proof (build_inf_table_entries _ _ _ _ Hb) as Hentries.
    rewrite Forall_forall in Hentries.
    destruct (Hentries e He) as ([p Hp] & _).
    destruct (relativized_fields ws e) as (HD & _ & HL & _ & _ & HP).
    specialize (HP p Hp).
    assert (Hq : ∃ q, PATH (relativized ws e) = Some q).
    { rewrite HP. destruct (is_absolute ws p) eqn:Habs; [|eauto].
      destruct (Hrel e p He Hp Habs) as [q Hq]. eauto. }
    destruct Hq as [q Hq].
    destruct (inserted_elem (env_id renv) (last_id s)
                (map (relativized ws) entries) (relativized ws e))
      as [n Hn]; [by apply list_elem_of_fmap_2|].
    destruct (lookup_id_found rows (env_id renv)
                (PATH (relativized ws e)) (DSC (relativized ws e))
                (to_row (env_id renv) n (relativized ws e)))
      as (r0 & _ & _ & _ & Hid & _).
    { apply elem_of_app. by right. }
    { unfold row_matches. simpl. rewrite Hq. eauto. }
    unfold edges_of. rewrite Hid. simpl.
    destruct (mapM_Ok_intro
                (λ library,
                   used_inf_id ← lookup_id rows (env_id renv) (Some library)
                                   (DSC (relativized ws e));
                   Ok {| table1 := "instanced_inf"; key1 := SInt (col_id r0);
                         table2 := "instanced_inf";
                         key2 := SInt used_inf_id |})
                (LIBRARIES_USED (relativized ws e))) as [libs Hl].
    { intros l Hl. rewrite HL in Hl. rewrite HD.
      destruct (library_row_present ws self dscp entries (env_id renv)
                  (last_id s) rows0 e l Hb He Hl (Hlibs e l He Hl))
        as (r & Hr & Hm).
      destruct (lookup_id_found _ _ _ _ _ Hr Hm) as (r1 & _ & _ & _ & Hid1 & _).
      fold rows in Hid1. rewrite Hid1. simpl. by eexists. }
    unfold library_edges. rewrite Hl. simpl. by eexists. }
  destruct Hedges as [edges Hedges].
  eexists _, _, edges.
  split.
  { rewrite (parse_after_build _ _ _ _ _ Hdsc Hb).
    assert (Hsel : SELECT_LATEST_ENVIRONMENT s = (Ok (Some (env_id renv)), s))
      by (unfold SELECT_LATEST_ENVIRONMENT; by rewrite Henvs, Hlatest).
    rewrite (st_bind_run _ _ _ _ _ Hsel), lift_bind. simpl.
    rewrite (st_bind_run _ _ _ _ _
               (add_instanced_inf_entries_run _ _ _ _ Hrows Hroom)).
    apply add_junction_entries_run with (rows := rows); [done|exact Hj|].
    by apply Forall2_fmap_l. }
  simpl. split; [reflexivity|].
  split; [by rewrite inserted_length, length_map|].
  split; [reflexivity|].
  eapply Forall2_impl; [exact Hedges|].
  intros e x Hx. simpl in Hx. apply edges_of_length in Hx.
  destruct (relativized_used ws e) as [Hs Hl]. by rewrite Hx, Hs, Hl.
Qed.

Lemma absolute_component_facts :
  ∃ entries,
    _build_inf_table Demo.absolute_component Demo.table
      Demo.absolute_component_dsc = Ok entries ∧
    Forall (λ e, ∀ p, PATH e = Some p →
                      is_absolute Demo.absolute_component p = true →
                      is_Some (GetEdk2RelativePathFromAbsolutePath
                                 Demo.absolute_component p)) entries ∧
    Forall (λ e, Forall (λ l, is_absolute Demo.absolute_component l = false)
                   (LIBRARIES_USED e)) entries.
Proof.
  eexists. split; [vm_compute; reflexivity|]. split.
  - repeat constructor; intros p [= <-] Habs; vm_compute in Habs;
      try discriminate Habs; vm_compute; eauto.
  - repeat constructor.
Qed.

Lemma X2_parse_succeeds_witness :
  ∃ s', InstancedInfTable_parse Demo.absolute_component Demo.table
          Demo.fresh_store = (Ok tt, s').
Proof.
  destruct absolute_component_facts as (entries & Hb & Hrel & Hlibs).
  rewrite Forall_forall in Hrel, Hlibs.
  destruct (X2_parse_succeeds Demo.absolute_component Demo.table
              Demo.fresh_store Demo.absolute_component_dsc entries [] []
              _ _ eq_refl Hb eq_refl eq_refl eq_refl eq_refl)
    as (s' & _ & _ & Hrun & _).
  - intros e p He. by apply Hrel.
  - intros e l He Hl. specialize (Hlibs e He).
    rewrite Forall_forall in Hlibs. by apply Hlibs.
  - vm_compute in Hb. injection Hb as <-. vm_compute. discriminate.
  - by exists s'.
Defined.

(** ** X3, X4: rows written by a [parse] that raises *)

Lemma parse_written ws self s dscp entries rows0 envs renv :
  DscP ws (self_env self) (self_dsc self) = inr dscp →
  _build_inf_table ws self dscp = Ok entries →
  instanced_inf s = Some rows0 →
  environment s = Some envs → latest envs = Some renv →
  room_for (length entries) s →
  ∃ new, instanced_inf (InstancedInfTable_parse ws self s).2
         = Some (rows0 ++ new) ∧
         length new = length entries.
Proof.
  intros Hdsc Hb Hrows Henvs Hlatest Hroom. eexists.
  split; [by eapply parse_inserts|].
  by rewrite inserted_length, length_map.
Qed.

(** X3.  The library paths an entry lists are not made relative, only the
    entry's own path is.  So when an entry lists an absolute library path
    that no row carries (no earlier row has it and no entry's path is made
    relative to it), [InstancedInfTable.parse] raises the [TypeError] of
    subscripting [None] at the lookup of that library, after it has written
    a row for every entry (ids being left for them). *)
Theorem X3_absolute_library_path_raises (ws : Workspace)
    (self : InstancedInfTable) (s : Store) (dscp : DscParser)
    (entries : list entry) (rows0 : list instanced_inf_row)
    (j0 : list junction_row) (envs : list environment_row)
    (renv : environment_row) (e : entry) (l : string) :
  DscP ws (self_env self) (self_dsc self) = inr dscp →
  _build_inf_table ws self dscp = Ok entries →
  instanced_inf s = Some rows0 → junction s = Some j0 →
  environment s = Some envs → latest envs = Some renv →
  e ∈ entries → l ∈ LIBRARIES_USED e → is_absolute ws l = true →
  (∀ e1 p, e1 ∈ entries → PATH e1 = Some p → is_absolute ws p = true →
           GetEdk2RelativePathFromAbsolutePath ws p ≠ Some l) →
  Forall (λ r, col_path r ≠ Some l) rows0 →
  room_for (length entries) s →
  (InstancedInfTable_parse ws self s).1 = Raise none_not_subscriptable ∧
  ∃ new, instanced_inf (InstancedInfTable_parse ws self s).2
         = Some (rows0 ++ new) ∧
         length new = length entries.
Proof.
  intros Hdsc Hb Hrows Hj Henvs Hlatest He Hl Habs Hrel Hrows0 Hroom.
  split; [|by eapply parse_written].
  destruct (parse_outcome ws self s dscp entries rows0 j0 envs renv)
    as [Hok|Hraise]; try done.
  exfalso.
  destruct (InstancedInfTable_parse ws self s) as [r s'] eqn:Hrun.
  simpl in Hok. subst r.
  destruct (parse_Ok_edges _ _ _ _ _ _ _ _ _ _ Hdsc Hb Hrows Hj Henvs Hlatest
              Hroom Hrun) as (edges & Hedges & _).
  apply list_elem_of_lookup in He as (i & Hi).
  destruct (Forall2_lookup_l _ _ _ _ _ Hedges Hi) as (x & _ & Hx).
  unfold edges_of in Hx.
  apply bind_Ok in Hx as (inf_id & _ & Hx).
  apply bind_Ok in Hx as (libs & Hlibs & _).
  unfold library_edges in Hlibs. apply mapM_Ok in Hlibs.
  rewrite (proj1 (proj2 (proj2 (relativized_fields ws e)))) in Hlibs.
  apply list_elem_of_lookup in Hl as (k & Hk).
  destruct (Forall2_lookup_l _ _ _ _ _ Hlibs Hk) as (edge & _ & Hedge).
  apply bind_Ok in Hedge as (used & Hused & _).
  unfold lookup_id in Hused.
  destruct (head (matching_rows _ _ _ _)) as [r|] eqn:Hhead; [|done].
  apply head_Some_elem_of in Hhead.
  apply list_elem_of_filter in Hhead as [(_ & _ & Hpath & _) Hin].
  apply elem_of_app in Hin as [Hin|Hin].
  - rewrite Forall_forall in Hrows0. by apply (Hrows0 r Hin).
  - apply inserted_inv in Hin as (n & e1' & He1' & ->).
    apply list_elem_of_fmap in He1' as (e1 & -> & He1).
    simpl in Hpath.
    pose proof (build_inf_table_entries _ _ _ _ Hb) as Hentries.
    rewrite Forall_forall in Hentries.
    destruct (Hentries e1 He1) as ([p Hp] & _).
    rewrite (proj2 (proj2 (proj2 (proj2 (proj2 (relativized_fields ws e1)))))
               p Hp) in Hpath.
    destruct (is_absolute ws p) eqn:Hpabs.
    + by apply (Hrel e1 p He1 Hp Hpabs).
    + injection Hpath as ->. congruence.
Qed.

(** X4.  When the absolute path of an entry cannot be made relative
    ([GetEdk2RelativePathFromAbsolutePath] gives [None]), the row is written
    with a null path, the lookup of the entry's own row finds nothing, and
    [InstancedInfTable.parse] raises the [TypeError] of subscripting [None],
    after it has written a row for every entry (ids being left for them). *)
Theorem X4_unrelativizable_path_raises (ws : Workspace)
    (self : InstancedInfTable) (s : Store) (dscp : DscParser)
    (entries : list entry) (rows0 : list instanced_inf_row)
    (j0 : list junction_row) (envs : list environment_row)
    (renv : environment_row) (e : entry) (p : string) :
  DscP ws (self_env self) (self_dsc self) = inr dscp →
  _build_inf_table ws self dscp = Ok entries →
  instanced_inf s = Some rows0 → junction s = Some j0 →
  environment s = Some envs → latest envs = Some renv →
  e ∈ entries → PATH e = Some p → is_absolute ws p = true →
  GetEdk2RelativePathFromAbsolutePath ws p = None →
  room_for (length entries) s →
  (InstancedInfTable_parse ws self s).1 = Raise none_not_subscriptable ∧
  ∃ new, instanced_inf (InstancedInfTable_parse ws self s).2
         = Some (rows0 ++ new) ∧
         length new = length entries ∧
         ∃ r, r ∈ new ∧ col_path r = None.
Proof.
  intros Hdsc Hb Hrows Hj Henvs Hlatest He Hp Habs Hnone Hroom.
  pose proof (proj2 (proj2 (proj2 (proj2 (proj2 (relativized_fields ws e)))))
                p Hp) as Hpath.
  rewrite Habs, Hnone in Hpath.
  split.
  - destruct (parse_outcome ws self s dscp entries rows0 j0 envs renv)
      as [Hok|Hraise]; try done.
    exfalso.
    destruct (InstancedInfTable_parse ws self s) as [r s'] eqn:Hrun.
    simpl in Hok. subst r.
    destruct (parse_Ok_edges _ _ _ _ _ _ _ _ _ _ Hdsc Hb Hrows Hj Henvs
                Hlatest Hroom Hrun) as (edges & Hedges & _).
    apply list_elem_of_lookup in He as (i & Hi).
    destruct (Forall2_lookup_l _ _ _ _ _ Hedges Hi) as (x & _ & Hx).
    unfold edges_of in Hx.
    apply bind_Ok in Hx as (inf_id & Hid & _).
    rewrite Hpath in Hid. unfold lookup_id in Hid.
    destruct (head (matching_rows _ _ _ _)) as [r|] eqn:Hhead; [|done].
    apply head_Some_elem_of in Hhead.
    apply list_elem_of_filter in Hhead as [(_ & [q Hq] & _) _]. done.
  - eexists. split; [by eapply parse_inserts|].
    split; [by rewrite inserted_length, length_map|].
    destruct (inserted_elem (env_id renv) (last_id s)
                (map (relativized ws) entries) (relativized ws e))
      as [n Hn]; [by apply list_elem_of_fmap_2|].
    eexists. split; [exact Hn|]. done.
Qed.

Lemma absolute_library_facts :
  ∃ entries e,
    _build_inf_table Cases.absolute_library Demo.table
      Cases.absolute_library_dsc = Ok entries ∧
    e ∈ entries ∧ "/ws/Pkg/LibA.inf" ∈ LIBRARIES_USED e ∧
    Forall (λ e1, ∀ p, PATH e1 = Some p →
                       is_absolute Cases.absolute_library p = true →
                       GetEdk2RelativePathFromAbsolutePath
                         Cases.absolute_library p
                       ≠ Some "/ws/Pkg/LibA.inf") entries.
Proof.
  eexists _, _. split; [vm_compute; reflexivity|].
  split; [right; left|]. split; [left|].
  repeat constructor; intros p [= <-] Habs; vm_compute in Habs;
    try discriminate Habs; vm_compute; discriminate.
Qed.

Lemma X3_absolute_library_path_raises_witness :
  (InstancedInfTable_parse Cases.absolute_library Demo.table
     Demo.fresh_store).1 = Raise none_not_subscriptable ∧
  ∃ new, instanced_inf (InstancedInfTable_parse Cases.absolute_library
                          Demo.table Demo.fresh_store).2 = Some new ∧
         length new = 2.
Proof.
  destruct absolute_library_facts as (entries & e & Hb & He & Hl & Hrel).
  rewrite Forall_forall in Hrel.
  destruct (X3_absolute_library_path_raises Cases.absolute_library Demo.table
              Demo.fresh_store Cases.absolute_library_dsc entries [] []
              _ _ e "/ws/Pkg/LibA.inf"
              eq_refl Hb eq_refl eq_refl eq_refl eq_refl He Hl eq_refl)
    as (Hraise & new & Hnew & Hlen).
  - intros e1 p He1. by apply Hrel.
  - constructor.
  - vm_compute in Hb. injection Hb as <-. vm_compute. discriminate.
  - split; [exact Hraise|]. exists new. split; [exact Hnew|].
    rewrite Hlen. vm_compute in Hb. injection Hb as <-. reflexivity.
Defined.

Lemma outside_component_facts :
  ∃ entries e,
    _build_inf_table Cases.outside_component Demo.table
      Cases.outside_component_dsc = Ok entries ∧
    e ∈ entries ∧ PATH e = Some "/elsewhere/Comp.inf".
Proof.
  eexists _, _. split; [vm_compute; reflexivity|]. split; [left|reflexivity].
Qed.

Lemma X4_unrelativizable_path_raises_witness :
  (InstancedInfTable_parse Cases.outside_component Demo.table
     Demo.fresh_store).1 = Raise none_not_subscriptable ∧
  ∃ new r, instanced_inf (InstancedInfTable_parse Cases.outside_component
                            Demo.table Demo.fresh_store).2 = Some new ∧
           r ∈ new ∧ col_path r = None.
Proof.
  destruct outside_component_facts as (entries & e & Hb & He & Hp).
  destruct (X4_unrelativizable_path_raises Cases.outside_component Demo.table
              Demo.fresh_store Cases.outside_component_dsc entries [] []
              _ _ e "/elsewhere/Comp.inf"
              eq_refl Hb eq_refl eq_refl eq_refl eq_refl He Hp eq_refl eq_refl)
    as (Hraise & new & Hnew & _ & r & Hr & Hnull).
  - vm_compute in Hb. injection Hb as <-. vm_compute. discriminate.
  - split; [exact Hraise|]. exists new, r. repeat split; assumption.
Defined.

(** ** X21: no id left for a row *)





(** On that store one row is written, under the last rowid. *)
Example last_rowid_given_out :
  col_id <$> default [] (instanced_inf
                           (InstancedInfTable_parse Demo.diamond Demo.table
                              Cases.nearly_full_store).2)
  = [MAX_ROWID].
Proof. vm_compute. reflexivity. Qed.

(** ** X5: no environment to tag the rows with *)

(** X5.  [InstancedInfTable.parse] builds the row list before it asks for
    the environment.  When the row list is built and the environment table
    has no row, it raises the [TypeError] of subscripting [None]; when the
    table does not exist, the store's error.  In both cases nothing has been
    written. *)
Theorem X5_no_environment (ws : Workspace) (self : InstancedInfTable)
    (s : Store) (dscp : DscParser) (entries : list entry) :
  DscP ws (self_env self) (self_dsc self) = inr dscp →
  _build_inf_table ws self dscp = Ok entries →
  (environment s = Some [] →
     InstancedInfTable_parse ws self s = (Raise none_not_subscriptable, s)) ∧
  (environment s = None →
     InstancedInfTable_parse ws self s
     = (Raise (OperationalError "no such table: environment"), s)).
Proof.
  intros Hdsc Hb. rewrite (parse_after_build _ _ _ _ _ Hdsc Hb).
  split; intros Henv; unfold mbind at 1, st_bind at 1,
    SELECT_LATEST_ENVIRONMENT; rewrite Henv; simpl; [|done].
  by rewrite lift_bind.
Qed.

Lemma X5_no_environment_witness :
  InstancedInfTable_parse Demo.diamond Demo.table Demo.empty_store
  = (Raise (OperationalError "no such table: environment"), Demo.empty_store).
Proof.
  destruct (X5_no_environment Demo.diamond Demo.table Demo.empty_store
              Demo.diamond_dsc _ eq_refl eq_refl) as [_ Hnone].
  by apply Hnone.
Defined.

(** ** X6: a platform description without components to expand *)

Lemma build_components_all_libraries ws self library_dict components
    inf_entries :
  Forall (λ c : string * string * override_dict,
            declares_library_class ws c.1.1 = true) components →
  build_components ws self library_dict components inf_entries = Ok inf_entries.
Proof.
  induction 1 as [|[[inf scope] ov] rest Hlib _ IH]; cbn [build_components];
    [done|].
  unfold declares_library_class in Hlib. simpl in Hlib.
  destruct (InfP ws inf) as [e|infp]; [done|]. simpl.
  apply bool_decide_eq_true in Hlib. by rewrite decide_True.
Qed.

(** X6.  When the platform description declares no component, or only
    components whose INF declares a library class, the row list is empty and
    [InstancedInfTable.parse], given an environment row, ends normally
    without writing anything; the tables [instanced_inf] and [junction] need
    not even exist. *)
Theorem X6_no_component_to_expand (ws : Workspace)
    (self : InstancedInfTable) (s : Store) (dscp : DscParser)
    (envs : list environment_row) (renv : environment_row) :
  DscP ws (self_env self) (self_dsc self) = inr dscp →
  Forall (λ c : string * string * override_dict,
            declares_library_class ws c.1.1 = true) (Components dscp) →
  _build_inf_table ws self dscp = Ok [] ∧
  (environment s = Some envs → latest envs = Some renv →
   InstancedInfTable_parse ws self s = (Ok tt, s)).
Proof.
  intros Hdsc Hall.
  assert (Hb : _build_inf_table ws self dscp = Ok []).
  { unfold _build_inf_table.
    by rewrite (build_components_all_libraries _ _ _ _ _ Hall). }
  split; [done|]. intros Henvs Hlatest.
  rewrite (parse_after_build _ _ _ _ _ Hdsc Hb).
  unfold mbind at 1, st_bind at 1, SELECT_LATEST_ENVIRONMENT.
  rewrite Henvs, Hlatest. simpl. by rewrite lift_bind.
Qed.

Lemma X6_no_component_to_expand_witness :
  InstancedInfTable_parse Cases.only_library Demo.table Cases.no_tables_store
  = (Ok tt, Cases.no_tables_store).
Proof.
  refine (proj2 (X6_no_component_to_expand Cases.only_library Demo.table
                   Cases.no_tables_store Cases.only_library_dsc _ _ eq_refl _)
            eq_refl eq_refl).
  repeat constructor.
Defined.

(** ** X7: the environment the rows are tagged with *)

Lemma latest_spec rows :
  match latest rows with
  | None => rows = []
  | Some r => r ∈ rows ∧ ∀ r', r' ∈ rows → (env_date r' ≤ env_date r)%Z
  end.
Proof.
  unfold latest. induction rows as [|x rows IH] using rev_ind; [done|].
  rewrite foldl_app. simpl.
  destruct (foldl _ None rows) as [b|].
  - destruct IH as [Hb Hmax].
    destruct (env_date b <? env_date x)%Z eqn:Hlt.
    + apply Z.ltb_lt in Hlt. split.
      * apply elem_of_app. right. by left.
      * intros r' [Hr'| ->%list_elem_of_singleton]%elem_of_app; [|lia].
        specialize (Hmax r' Hr'). lia.
    + apply Z.ltb_ge in Hlt. split.
      * apply elem_of_app. by left.
      * intros r' [Hr'| ->%list_elem_of_singleton]%elem_of_app; [auto|lia].
  - subst rows. split; [by left|].
    intros r' ->%list_elem_of_singleton. lia.
Qed.

Lemma add_instanced_inf_entries_tagged env entries s rows0 :
  instanced_inf s = Some rows0 →
  ∃ new, instanced_inf (add_instanced_inf_entries env entries s).2
         = Some (rows0 ++ new) ∧
         Forall (λ r, col_env r = env) new.
Proof.
  unfold add_instanced_inf_entries. revert s rows0.
  induction entries as [|e es IH]; intros s rows0 Hs.
  - exists []. simpl. by rewrite app_nil_r.
  - cbn [for_each]. unfold mbind at 1, st_bind at 1.
    unfold INSERT_INSTANCED_INF_ROW at 1. rewrite Hs.
    destruct (MAX_ROWID <=? _)%Z.
    + exists []. simpl. by rewrite app_nil_r.
    + match goal with
      | |- context [for_each es _ ?s1] =>
          destruct (IH s1 _ eq_refl) as (new & Hnew & Hall)
      end.
      eexists (_ :: new). split.
      * rewrite Hnew. by rewrite <- (assoc_L (++)).
      * by constructor.
Qed.

Lemma parse_inserts_tagged ws self s dscp entries rows0 envs renv :
  DscP ws (self_env self) (self_dsc self) = inr dscp →
  _build_inf_table ws self dscp = Ok entries →
  instanced_inf s = Some rows0 →
  environment s = Some envs → latest envs = Some renv →
  ∃ new, instanced_inf (InstancedInfTable_parse ws self s).2
         = Some (rows0 ++ new) ∧
         Forall (λ r, col_env r = env_id renv) new.
Proof.
  intros Hdsc Hb Hrows Henvs Hlatest.
  rewrite (parse_after_build _ _ _ _ _ Hdsc Hb).
  assert (Hsel : SELECT_LATEST_ENVIRONMENT s = (Ok (Some (env_id renv)), s))
    by (unfold SELECT_LATEST_ENVIRONMENT; by rewrite Henvs, Hlatest).
  rewrite (st_bind_run _ _ _ _ _ Hsel), lift_bind. simpl.
  destruct (add_instanced_inf_entries_tagged (env_id renv)
              (map (relativized ws) entries) s rows0 Hrows)
    as (new & Hnew & Hall).
  exists new. split; [|done]. unfold mbind, st_bind.
  destruct (add_instanced_inf_entries _ _ s) as [[[]| |] s1]; [|done|done].
  destruct (add_junction_entries_frame (env_id renv)
              (map (relativized ws) entries) s1) as [j ->].
  done.
Qed.

(** X7.  Every row [InstancedInfTable.parse] inserts carries the id of one
    environment row, and no environment row has a later date than that one. *)
Theorem X7_rows_tagged_with_latest_environment (ws : Workspace)
    (self : InstancedInfTable) (s : Store) (dscp : DscParser)
    (entries : list entry) (rows0 : list instanced_inf_row)
    (envs : list environment_row) :
  DscP ws (self_env self) (self_dsc self) = inr dscp →
  _build_inf_table ws self dscp = Ok entries →
  instanced_inf s = Some rows0 →
  environment s = Some envs → envs ≠ [] →
  ∃ renv new,
    renv ∈ envs ∧
    (∀ r', r' ∈ envs → (env_date r' ≤ env_date renv)%Z) ∧
    instanced_inf (InstancedInfTable_parse ws self s).2
    = Some (rows0 ++ new) ∧
    Forall (λ r, col_env r = env_id renv) new.
Proof.
  intros Hdsc Hb Hrows Henvs Hne.
  pose proof (latest_spec envs) as Hl.
  destruct (latest envs) as [renv|] eqn:Hlatest; [|done].
  destruct Hl as [Hin Hmax].
  destruct (parse_inserts_tagged _ _ _ _ _ _ _ _ Hdsc Hb Hrows Henvs Hlatest)
    as (new & Hnew & Hall).
  by exists renv, new.
Qed.

Lemma X7_rows_tagged_with_latest_environment_witness :
  ∃ renv new,
    renv ∈ Cases.three_environments ∧
    (∀ r', r' ∈ Cases.three_environments →
           (env_date r' ≤ env_date renv)%Z) ∧
    instanced_inf (InstancedInfTable_parse Demo.diamond Demo.table
                     Cases.three_environments_store).2 = Some ([] ++ new) ∧
    Forall (λ r, col_env r = env_id renv) new.
Proof.
  apply (X7_rows_tagged_with_latest_environment Demo.diamond Demo.table
           Cases.three_environments_store Demo.diamond_dsc _ []
           Cases.three_environments eq_refl eq_refl eq_refl eq_refl).
  discriminate.
Defined.

(** On that store the rows carry the id of the second environment row. *)
Example rows_tagged_with_second_environment :
  col_env <$> default [] (instanced_inf
                            (InstancedInfTable_parse Demo.diamond Demo.table
                               Cases.three_environments_store).2)
  = [2; 2; 2; 2]%Z.
Proof. vm_compute. reflexivity. Qed.

(** ** X8: a scope without a module type *)

Lemma split_nonempty sep s : ∃ w ws, split sep s = w :: ws.
Proof.
  induction s as [|c s (w & ws & IH)]; simpl; [eauto|].
  case_decide; [eauto|]. rewrite IH. eauto.
Qed.

Lemma lib_to_instance_scope_without_dot dsc cls scope library_dict overrides :
  occurs "." scope = false →
  _lib_to_instance dsc cls scope library_dict overrides
  = Raise (ValueError "not enough values to unpack (expected 2, got 1)").
Proof.
  intros Hs. unfold _lib_to_instance, unpack_scope.
  by rewrite (split_dotless _ _ Hs).
Qed.

Lemma resolve_library_scope_without_dot self scope library_dict overrides lib :
  occurs "." scope = false →
  resolve_library self scope library_dict overrides lib
  = Raise (ValueError "not enough values to unpack (expected 2, got 1)").
Proof.
  intros Hs. unfold resolve_library.
  destruct (split_nonempty " " lib) as (w & ws' & ->). simpl.
  by apply lib_to_instance_scope_without_dot.
Qed.

(** X8.  [_lib_to_instance] splits the scope before it looks anything up: on
    a scope without a dot it raises the [ValueError] of unpacking one value
    into two names, override or not.  A
    component whose INF has no [MODULE_TYPE] keeps the scope of its
    [Components] section, so if that INF needs any library class, its
    expansion raises this [ValueError]. *)
Theorem X8_scope_without_module_type :
  (∀ (dsc cls scope : string) (library_dict : gmap string string)
     (overrides : override_dict),
     occurs "." scope = false →
     _lib_to_instance dsc cls scope library_dict overrides
     = Raise (ValueError "not enough values to unpack (expected 2, got 1)")) ∧
  (∀ (ws : Workspace) (self : InstancedInfTable) (fuel : nat)
     (inf component scope : string) (library_dict : gmap string string)
     (overrides : override_dict) (visited : list string) (infp : InfParser)
     (lib : string) (libs : list string),
     InfP ws inf = inr infp →
     Dict infp !! "MODULE_TYPE" = None →
     occurs "." scope = false →
     get_libraries infp (self_arch self) = lib :: libs →
     _parse_inf_recursively ws self (S fuel) inf component library_dict
       overrides (component_scope infp scope) visited
     = Raise (ValueError "not enough values to unpack (expected 2, got 1)")).
Proof.
  split; [apply lib_to_instance_scope_without_dot|].
  intros ws self fuel inf component scope library_dict overrides visited infp
    lib libs Hinfp Hmt Hscope Hlibs.
  assert (Hcs : component_scope infp scope = scope)
    by (unfold component_scope; by rewrite Hmt).
  cbn [_parse_inf_recursively]. rewrite Hinfp, Hcs. simpl.
  unfold library_instances_of. rewrite Hlibs. cbn [mapM].
  by rewrite (resolve_library_scope_without_dot _ _ _ _ _ Hscope).
Qed.

Lemma X8_scope_without_module_type_witness :
  _parse_inf_recursively
    (Demo.workspace [("Pkg/Untyped.inf", Cases.untyped_driver)]
       Demo.diamond_dsc)
    Demo.table 5 "Pkg/Untyped.inf" "Pkg/Untyped.inf" ∅ Cases.with_override
    "ia32" []
  = Raise (ValueError "not enough values to unpack (expected 2, got 1)").
Proof.
  exact (proj2 X8_scope_without_module_type
           (Demo.workspace [("Pkg/Untyped.inf", Cases.untyped_driver)]
              Demo.diamond_dsc)
           Demo.table 4 "Pkg/Untyped.inf" "Pkg/Untyped.inf" "ia32" ∅
           Cases.with_override [] Cases.untyped_driver "ClsA" []
           eq_refl eq_refl eq_refl eq_refl).
Defined.

(** ** X9: NULL library instances *)

Lemma node_libraries_nulls ws self library_dict overrides scope n libs nulls :
  node_libraries ws self library_dict overrides scope n = Ok libs →
  ov_NULL overrides = Some nulls →
  ∀ l, l ∈ nulls → l ≠ n → l ∈ libs.
Proof.
  unfold node_libraries, library_instances_of. intros Hlibs Hnull l Hl Hne.
  apply bind_Ok in Hlibs as (infp & _ & Hlibs).
  apply bind_Ok in Hlibs as (resolved & _ & Hlibs).
  rewrite Hnull in Hlibs. simpl in Hlibs. injection Hlibs as <-.
  apply elem_of_app. right. by apply list_elem_of_filter.
Qed.

Lemma node_libraries_parts ws self library_dict overrides scope n libs nulls :
  node_libraries ws self library_dict overrides scope n = Ok libs →
  ov_NULL overrides = Some nulls →
  ∃ infp resolved,
    InfP ws n = inr infp ∧
    Forall2 (λ lib inst,
               resolve_library self scope library_dict overrides lib = Ok inst)
      (get_libraries infp (self_arch self)) resolved ∧
    libs = resolved ++ filter (λ l, l ≠ n) nulls.
Proof.
  unfold node_libraries, library_instances_of. intros Hlibs Hnull.
  apply bind_Ok in Hlibs as (infp & Hinfp & Hlibs).
  apply bind_Ok in Hlibs as (resolved & Hres & Hlibs).
  rewrite Hnull in Hlibs. simpl in Hlibs. injection Hlibs as <-.
  exists infp, resolved. split; [|split; [|done]].
  - by destruct (InfP ws n) as [e|infp']; simplify_eq/=.
  - by apply mapM_Ok.
Qed.

(** X9.  The NULL library instances of a component's override block are
    added to the library instances of every INF of the component's tree
    except to themselves: every one of them gets a row, and the record of
    every INF of the tree, libraries included, lists the instances its own
    library classes resolve to, followed by the NULL instances other than
    that INF, in the order of the override block, and nothing else.  So the
    record of a NULL instance lists the other NULL instances only, besides
    what its classes resolve to. *)
Theorem X9_null_libraries (ws : Workspace) (self : InstancedInfTable)
    (fuel : nat) (inf : string) (library_dict : gmap string string)
    (overrides : override_dict) (scope : string) (rows : list entry)
    (visited nulls : list string) :
  _parse_inf_recursively ws self fuel inf inf library_dict overrides scope []
    = Ok (rows, visited) →
  ov_NULL overrides = Some nulls →
  ∃ nodes,
    Forall2 (λ n r,
               PATH r = Some (as_posix ws n) ∧
               (∀ l, l ∈ nulls → l ≠ n → as_posix ws l ∈ LIBRARIES_USED r) ∧
               ∃ infp resolved,
                 InfP ws n = inr infp ∧
                 Forall2 (λ lib inst,
                            resolve_library self scope library_dict overrides
                              lib = Ok inst)
                   (get_libraries infp (self_arch self)) resolved ∧
                 LIBRARIES_USED r
                 = map (as_posix ws) resolved
                   ++ map (as_posix ws) (filter (λ l, l ≠ n) nulls))
      nodes rows ∧
    ∀ l, l ∈ nulls → l ∈ nodes.
Proof.
  intros Hrun Hnull.
  apply parse_inf_recursively_traversal in Hrun
    as (nodes & (Hp & _ & _ & Hrec & Hcl) & _); [|apply not_elem_of_nil].
  simpl in Hp. exists (nodes ++ [inf]). split.
  - eapply Forall2_impl; [exact Hrec|].
    intros n r Hr. simpl in Hr.
    apply node_record_fields in Hr as (libs & Hlibs & _ & HP & _ & HL).
    split; [done|]. split.
    + intros l Hl Hne. rewrite HL.
      apply list_elem_of_fmap_2. by eapply node_libraries_nulls.
    + destruct (node_libraries_parts _ _ _ _ _ _ _ _ Hlibs Hnull)
        as (infp & resolved & Hinfp & Hres & ->).
      exists infp, resolved. split; [done|]. split; [done|].
      by rewrite HL, map_app.
  - intros l Hl.
    assert (Hroot : inf ∈ nodes ++ [inf])
      by (apply elem_of_app; right; by left).
    destruct (decide (l = inf)) as [->|Hne]; [done|].
    pose proof Hroot as Hroot'.
    apply list_elem_of_lookup in Hroot' as (i & Hi).
    destruct (Forall2_lookup_l _ _ _ _ _ Hrec Hi) as (r & _ & Hr).
    apply node_record_fields in Hr as (libs & Hlibs & _).
    rewrite <- Hp. eapply Hcl; [exact Hroot|exact Hlibs|].
    by eapply node_libraries_nulls.
Qed.

Lemma X9_null_libraries_witness :
  ∃ nodes rows,
    Forall2 (λ n r,
               PATH r = Some n ∧
               (∀ l, l ∈ ["Pkg/Null1.inf"; "Pkg/Null2.inf"] → l ≠ n →
                     l ∈ LIBRARIES_USED r) ∧
               ∃ infp resolved,
                 InfP Cases.null_workspace n = inr infp ∧
                 Forall2 (λ lib inst,
                            resolve_library Demo.table "ia32.dxe_driver" ∅
                              Cases.null_overrides lib = Ok inst)
                   (get_libraries infp ["IA32"]) resolved ∧
                 LIBRARIES_USED r
                 = map (as_posix Cases.null_workspace) resolved
                   ++ map (as_posix Cases.null_workspace)
                        (filter (λ l, l ≠ n)
                           ["Pkg/Null1.inf"; "Pkg/Null2.inf"]))
      nodes rows ∧
    length rows = 3.
Proof.
  destruct (X9_null_libraries Cases.null_workspace Demo.table 4
              "Pkg/Comp.inf" ∅ Cases.null_overrides "ia32.dxe_driver" _ _ _
              eq_refl eq_refl) as (nodes & Hall & _).
  eexists nodes, _. split; [exact Hall|reflexivity].
Defined.

(** The records of that component: each NULL instance lists the other one,
    the component lists both. *)
Example null_instances_list_each_other :
  match _parse_inf_recursively Cases.null_workspace Demo.table 4
          "Pkg/Comp.inf" "Pkg/Comp.inf" ∅ Cases.null_overrides
          "ia32.dxe_driver" [] with
  | Ok (rows, _) => map (λ r, (PATH r, LIBRARIES_USED r)) rows
  | _ => []
  end
  = [(Some "Pkg/Null2.inf", ["Pkg/Null1.inf"]);
     (Some "Pkg/Null1.inf", ["Pkg/Null2.inf"]);
     (Some "Pkg/Comp.inf", ["Pkg/Null1.inf"; "Pkg/Null2.inf"])].
Proof. vm_compute. reflexivity. Qed.

(** ** X10, X11, X12: registering, and the two passes of [Edk2DB.parse] *)

Lemma Edk2DB_parse_schedule o :
  Edk2DB_parse o = for_each (schedule (_parsers o)) run_step o.
Proof.
  rewrite Edk2DB_parse_passes. unfold schedule.
  change ([EnsureJunction] ++ map CreateTables (_parsers o) ++ ?l)
    with ((EnsureJunction :: map CreateTables (_parsers o)) ++ l).
  rewrite for_each_app. unfold mbind, st_bind.
  rewrite schema_pass_schedule.
  destruct (for_each _ run_step o) as [[[]| |] o1]; [|done|done].
  apply populate_pass_schedule.
Qed.

(** X10.  [register] keeps what is registered and appends, so generators
    registered by several calls run in the order of the calls;
    [clear_parsers] forgets them all without touching the connection, and a
    [parse] with nothing registered runs the junction statement only. *)
Theorem X10_register_and_clear (o : Edk2DB)
    (ps qs : list TableGenerator) :
  let o' := register qs (register ps (clear_parsers o)) in
  connection o' = connection o ∧
  Edk2DB_parse o' = for_each (schedule (ps ++ qs)) run_step o' ∧
  Edk2DB_parse (register qs (register ps o))
  = for_each (schedule (_parsers o ++ ps ++ qs)) run_step
      (register qs (register ps o)) ∧
  Edk2DB_parse (clear_parsers (register ps o))
  = on_connection CREATE_JUNCTION_TABLE (clear_parsers (register ps o)).
Proof.
  cbv zeta. split; [done|]. split; [apply Edk2DB_parse_schedule|]. split.
  - rewrite Edk2DB_parse_schedule. simpl. by rewrite (assoc_L (++)).
  - unfold Edk2DB_parse. simpl. unfold mbind, st_bind.
    by destruct (on_connection CREATE_JUNCTION_TABLE _) as [[[]| |] o1].
Qed.

Lemma on_connection_parsers {A} (m : db A) o :
  _parsers (on_connection m o).2 = _parsers o.
Proof. unfold on_connection. by destruct (m _). Qed.

Lemma populate_pass_committed parsers o o' :
  populate_pass parsers o = (Ok tt, o') →
  _parsers o' = _parsers o ∧
  (committed (connection o) = current (connection o) ∨ parsers ≠ [] →
   committed (connection o') = current (connection o')).
Proof.
  unfold populate_pass. revert o.
  induction parsers as [|p ps IH]; intros o Hrun; simpl in Hrun.
  - injection Hrun as <-. split; [done|]. by intros [H|H].
  - apply st_bind_Ok in Hrun as ([] & o2 & Hbody & Hrun).
    apply st_bind_Ok in Hbody as ([] & o1 & Hparse & Hcommit).
    unfold commit in Hcommit. injection Hcommit as <-.
    destruct (IH _ Hrun) as [Hps Hc]. split.
    + rewrite Hps. simpl.
      pose proof (on_connection_parsers (parse p) o) as Hpp.
      by rewrite Hparse in Hpp.
    + intros _. apply Hc. by left.
Qed.

Lemma schema_pass_parsers parsers o o' r :
  schema_pass parsers o = (r, o') → _parsers o' = _parsers o.
Proof.
  unfold schema_pass, mbind, st_bind.
  pose proof (on_connection_parsers CREATE_JUNCTION_TABLE o) as Hj.
  destruct (on_connection CREATE_JUNCTION_TABLE o) as [[[]| |] o1];
    simpl in Hj.
  2, 3: by intros [= _ <-].
  rewrite <- Hj. clear Hj o. revert o1.
  induction parsers as [|p ps IH]; intros o1; simpl.
  - by intros [= _ <-].
  - unfold mbind, st_bind.
    pose proof (on_connection_parsers (create_tables p) o1) as Hp.
    destruct (on_connection (create_tables p) o1) as [[[]| |] o2];
      simpl in Hp.
    2, 3: by intros [= _ <-].
    intros Hrun. rewrite <- Hp. by apply IH.
Qed.

(** X11.  When [Edk2DB.parse] ends normally with at least one generator
    registered, nothing is left pending: the committed store is the store
    the connection sees, and the registered generators are still the same. *)
Theorem X11_parse_leaves_nothing_pending (o o' : Edk2DB) :
  Edk2DB_parse o = (Ok tt, o') → _parsers o ≠ [] →
  committed (connection o') = current (connection o') ∧
  _parsers o' = _parsers o.
Proof.
  intros Hrun Hne. rewrite Edk2DB_parse_passes in Hrun.
  apply st_bind_Ok in Hrun as ([] & o1 & Hschema & Hpop).
  destruct (populate_pass_committed _ _ _ Hpop) as [Hps Hc].
  split; [apply Hc; by right|].
  rewrite Hps. by eapply schema_pass_parsers.
Qed.

Lemma succeeding_parse_run :
  Edk2DB_parse (register [Demo.Succeeding] (Edk2DB_init Demo.empty_store))
  = (Ok tt,
     (Edk2DB_parse (register [Demo.Succeeding]
                      (Edk2DB_init Demo.empty_store))).2).
Proof. vm_compute. reflexivity. Qed.

Lemma X11_parse_leaves_nothing_pending_witness :
  let o' := (Edk2DB_parse (register [Demo.Succeeding]
                             (Edk2DB_init Demo.empty_store))).2 in
  committed (connection o') = current (connection o').
Proof.
  refine (proj1 (X11_parse_leaves_nothing_pending _ _ succeeding_parse_run _)).
  discriminate.
Defined.

(** X12.  The schema pass comes first for all generators: when
    [create_tables] of a registered generator raises, [Edk2DB.parse] raises
    that error and no generator has populated anything, not even those
    registered before it; the connection sees what the schema statements
    run so far have made.  A generator that inherits [create_tables] from
    [TableGenerator] raises [NotImplementedError] there. *)
Theorem X12_create_tables_error_comes_first (o o1 : Edk2DB)
    (before after : list TableGenerator) (p : TableGenerator) (e : exn)
    (s2 : Store) :
  _parsers o = before ++ p :: after →
  schema_pass before o = (Ok tt, o1) →
  create_tables p (current (connection o1)) = (Raise e, s2) →
  ∃ o2, Edk2DB_parse o = (Raise e, o2) ∧
        current (connection o2) = s2 ∧
        Edk2DB_parse o = schema_pass (_parsers o) o.
Proof.
  intros Hps Hbefore Hp.
  assert (Hschema : ∃ o2, schema_pass (_parsers o) o = (Raise e, o2) ∧
                          current (connection o2) = s2).
  { rewrite Hps. unfold schema_pass in *.
    unfold mbind at 1, st_bind at 1. unfold mbind at 1, st_bind at 1 in Hbefore.
    destruct (on_connection CREATE_JUNCTION_TABLE o) as [[[]| |] oj];
      [|done|done].
    rewrite for_each_app. rewrite (st_bind_run _ _ _ _ _ Hbefore). simpl.
    unfold mbind, st_bind, on_connection. rewrite Hp. eauto. }
  destruct Hschema as (o2 & Hschema & Hcur).
  exists o2. rewrite Edk2DB_parse_passes.
  rewrite (st_bind_raise _ _ _ _ _ Hschema). auto.
Qed.

Lemma X12_create_tables_error_comes_first_witness :
  ∃ o2,
    Edk2DB_parse (register [Demo.Succeeding; TableGenerator_base]
                    (Edk2DB_init Demo.empty_store))
    = (Raise NotImplementedError, o2) ∧
    junction (current (connection o2)) = Some [].
Proof.
  destruct (X12_create_tables_error_comes_first
              (register [Demo.Succeeding; TableGenerator_base]
                 (Edk2DB_init Demo.empty_store))
              _ [Demo.Succeeding] [] TableGenerator_base NotImplementedError
              _ eq_refl eq_refl eq_refl) as (o2 & Hrun & Hcur & _).
  exists o2. split; [exact Hrun|]. by rewrite Hcur.
Defined.

(** ** X13: what the two generators need to be constructed *)

(** X13.  [InstancedFvTable] needs the key [FLASH_DEFINITION] that
    [InstancedInfTable] does without: on an environment with the platform,
    the architectures and the target but no flash definition, the first
    raises [KeyError] and the second is constructed. *)
Theorem X13_fv_table_needs_flash_definition (env : gmap string string)
    (dsc target_arch target : string) :
  env !! "ACTIVE_PLATFORM" = Some dsc →
  env !! "TARGET_ARCH" = Some target_arch →
  env !! "TARGET" = Some target →
  (env !! "FLASH_DEFINITION" = None →
     InstancedFvTable_init {[ "env" := env ]}
     = Raise (KeyError "FLASH_DEFINITION") ∧
     ∃ t, __init__ {[ "env" := env ]} = Ok t) ∧
  (∀ fdf, env !! "FLASH_DEFINITION" = Some fdf →
     InstancedFvTable_init {[ "env" := env ]}
     = Ok {| fv_env := env; fv_dsc := dsc; fv_fdf := fdf;
             fv_arch := split " " target_arch; fv_target := target |}).
Proof.
  intros Hdsc Harch Htarget.
  unfold InstancedFvTable_init, __init__, getitem.
  rewrite !lookup_singleton_eq. simpl. rewrite Hdsc. simpl.
  split.
  - intros ->. simpl. split; [done|].
    rewrite Harch. simpl. rewrite Htarget. simpl. by eexists.
  - intros fdf ->. simpl. rewrite Harch. simpl. by rewrite Htarget.
Qed.

Lemma X13_fv_table_needs_flash_definition_witness :
  InstancedFvTable_init {[ "env" := self_env Demo.table ]}
  = Raise (KeyError "FLASH_DEFINITION").
Proof.
  apply (proj1 (X13_fv_table_needs_flash_definition (self_env Demo.table)
                  "Pkg/Test.dsc" "IA32" "DEBUG" eq_refl eq_refl eq_refl)).
  reflexivity.
Defined.

(** ** X14: the path recorded for an entry of a firmware volume *)

Lemma lower_app a b : lower (a +:+ b) = lower a +:+ lower b.
Proof. induction a as [|c a IH]; simpl; [done|]. by rewrite IH. Qed.

Lemma prefix_app p x : String.prefix p (p +:+ x) = true.
Proof.
  induction p as [|c p IH]; simpl; [by destruct x|].
  destruct (ascii_dec c c); [done|congruence].
Qed.

Lemma after_first_app sep a rest :
  occurs sep a = false →
  after_first sep (a +:+ String sep rest) = Some rest.
Proof.
  induction a as [|c a IH]; simpl.
  - intros _. by rewrite decide_True.
  - case_decide; [done|]. intros Ha. by apply IH.
Qed.

Lemma after_first_none sep s : occurs sep s = false → after_first sep s = None.
Proof.
  induction s as [|c s IH]; simpl; [done|].
  case_decide; [done|]. intros Hs. by apply IH.
Qed.

(** X14.  An entry of [Infs] that does not begin with [RuleOverride], in any
    spelling of the letters' case, is recorded by its posix form when it is
    not absolute.  Of one that does, what follows its first space is taken
    instead: [RuleOverride=RULE path] is recorded as [path]; without any
    space the entry is taken whole. *)
Theorem X14_rule_override_is_stripped (w : FdfWorkspace) :
  (∀ inf,
     String.prefix "ruleoverride" (lower inf) = false →
     is_absolute (fdf_workspace w) inf = false →
     fv_inf w inf = Ok (as_posix (fdf_workspace w) inf)) ∧
  (∀ tag rule path,
     lower tag = "ruleoverride" → occurs " " (tag +:+ rule) = false →
     is_absolute (fdf_workspace w) path = false →
     fv_inf w (tag +:+ rule +:+ " " +:+ path)
     = Ok (as_posix (fdf_workspace w) path)) ∧
  (∀ inf,
     String.prefix "ruleoverride" (lower inf) = true →
     occurs " " inf = false →
     is_absolute (fdf_workspace w) inf = false →
     fv_inf w inf = Ok (as_posix (fdf_workspace w) inf)).
Proof.
  split; [|split].
  - intros inf Hp Habs. unfold fv_inf. by rewrite Hp, Habs.
  - intros tag rule path Htag Hsp Habs.
    assert (Heq : tag +:+ rule +:+ " " +:+ path
                  = (tag +:+ rule) +:+ String " " path).
    { clear. induction tag as [|c tag IH]; [done|].
      change (String c (tag +:+ rule +:+ " " +:+ path)
              = String c ((tag +:+ rule) +:+ String " " path)).
      by rewrite IH. }
    unfold fv_inf, split_once_last.
    rewrite (lower_app tag), Htag, prefix_app.
    rewrite Heq, (after_first_app _ _ _ Hsp). simpl. by rewrite Habs.
  - intros inf Hp Hsp Habs. unfold fv_inf, split_once_last.
    rewrite Hp, (after_first_none _ _ Hsp). simpl. by rewrite Habs.
Qed.

Lemma X14_rule_override_is_stripped_witness :
  fv_inf Cases.flash_workspace "RuleOverride=ACPITABLE Pkg/B.inf"
  = Ok "Pkg/B.inf".
Proof.
  exact (proj1 (proj2 (X14_rule_override_is_stripped Cases.flash_workspace))
           "RuleOverride" "=ACPITABLE" "Pkg/B.inf" eq_refl eq_refl eq_refl).
Defined.

(** ** X15: what [InstancedFvTable.parse] writes *)

Lemma largest_rowid_app rows1 rows2 :
  largest_rowid (rows1 ++ rows2)
  = Z.max (largest_rowid rows1) (largest_rowid rows2).
Proof.
  unfold largest_rowid. induction rows1 as [|r rows1 IH]; simpl.
  - assert (0 ≤ foldr (λ row m, Z.max (rowid row) m) 0 rows2)%Z; [|lia].
    induction rows2 as [|r rows2 IH2]; simpl; lia.
  - rewrite IH. lia.
Qed.

Lemma fv_junction_loop fv_id infs s j0 :
  junction s = Some j0 →
  for_each infs
    (λ inf, INSERT_JUNCTION_ROW "instanced_fv" (SInt fv_id) "inf" (SText inf)) s
  = (Ok tt, set_junction (Some (j0 ++ fv_edges fv_id infs)) s).
Proof.
  unfold fv_edges. revert s j0.
  induction infs as [|x xs IH]; intros s j0 Hj; simpl.
  - rewrite app_nil_r. destruct s; simpl in *. by subst.
  - unfold mbind, st_bind. unfold INSERT_JUNCTION_ROW at 1. rewrite Hj.
    erewrite IH by done. by rewrite set_junction_twice, <- (assoc_L (++)).
Qed.

Lemma sequence_lookup_update name k rows :
  sequence_lookup name (sequence_update name k rows) = Some k.
Proof.
  induction rows as [|r rows IH]; simpl; [by rewrite decide_True|].
  repeat case_match; simplify_eq/=; rewrite ?decide_True, ?decide_False by done;
    done.
Qed.

Lemma add_fv_run w self env fv s rows j0 infs :
  other_tables s !! "instanced_fv" = Some rows →
  junction s = Some j0 →
  mapM (fv_inf w) fv.2 = Ok infs →
  room_for_fv 1 s →
  ∃ n s',
    add_fv w self env fv s = (Ok tt, s') ∧
    (largest_rowid rows < n)%Z ∧
    last_fv_id s' = (last_fv_id s + 1)%Z ∧
    other_tables s' !! "instanced_fv"
    = Some (rows ++ [fv_row env n fv.1
                       (path_name (fdf_workspace w) (fv_fdf self))
                       (fv_fdf self)]) ∧
    junction s' = Some (j0 ++ fv_edges n infs) ∧
    environment s' = environment s ∧ instanced_inf s' = instanced_inf s.
Proof.
  intros Hrows Hj Hinfs Hroom. unfold add_fv.
  rewrite lift_bind, Hinfs.
  unfold mbind, st_bind. unfold INSERT_INSTANCED_FV_ROW at 1. rewrite Hrows.
  unfold room_for_fv, last_fv_id in Hroom. rewrite Hrows in Hroom.
  simpl in Hroom.
  set (last := Z.max (largest_rowid rows)
                 (default 0%Z (sequence_lookup "instanced_fv"
                                 (default [] (other_tables s
                                                !! "sqlite_sequence"))))) in *.
  destruct (Z.leb_spec MAX_ROWID last) as [Hfull|_]; [lia|].
  erewrite fv_junction_loop by exact Hj.
  exists (1 + last)%Z.
  eexists. split; [reflexivity|]. split; [lia|].
  unfold last_fv_id. simpl.
  rewrite lookup_insert_eq. rewrite lookup_insert_ne by done.
  rewrite lookup_insert_eq. rewrite Hrows. simpl.
  rewrite sequence_lookup_update, largest_rowid_app. simpl.
  split; [|done].
  change (Z.max (largest_rowid rows) _ + 1)%Z with (last + 1)%Z.
  assert (0 ≤ largest_rowid rows)%Z
    by (clear; unfold largest_rowid; induction rows; simpl; lia).
  subst last. lia.
Qed.

(** X15.  With the table [instanced_fv], the junction table and an
    environment row present, ids left below the last rowid for as many rows
    as there are firmware volumes, and every entry of every firmware volume
    having a path to record, [InstancedFvTable.parse] ends normally.  It has
    then appended to [instanced_fv] one row per firmware volume, in the
    order of [FVs], under ids that are pairwise different and larger than
    every id the table had, and to the junction table, volume after volume,
    one row per entry of the volume: from the volume's row id to the
    recorded path. *)
Theorem X15_fv_parse_writes (w : FdfWorkspace) (self : InstancedFvTable)
    (s : Store) (fdfp : FdfParser) (rows0 : list (list sqlval))
    (j0 : list junction_row) (envs : list environment_row)
    (renv : environment_row) (recorded : list (list string)) :
  FdfP w (fv_env self) (fv_fdf self) = inr fdfp →
  environment s = Some envs → latest envs = Some renv →
  other_tables s !! "instanced_fv" = Some rows0 →
  junction s = Some j0 →
  Forall2 (λ fv infs, mapM (fv_inf w) fv.2 = Ok infs) (FVs fdfp) recorded →
  room_for_fv (length (FVs fdfp)) s →
  ∃ s' ids,
    InstancedFvTable_parse w self s = (Ok tt, s') ∧
    length ids = length (FVs fdfp) ∧
    NoDup ids ∧ Forall (λ n, (largest_rowid rows0 < n)%Z) ids ∧
    fv_rows s'
    = rows0 ++ zip_with (λ n fv, fv_row (env_id renv) n fv.1
                                   (path_name (fdf_workspace w) (fv_fdf self))
                                   (fv_fdf self)) ids (FVs fdfp) ∧
    junction s' = Some (j0 ++ concat (zip_with fv_edges ids recorded)) ∧
    instanced_inf s' = instanced_inf s.
Proof.
  intros Hfdf Henvs Hlatest Hrows Hj Hrec Hroom.
  unfold InstancedFvTable_parse. rewrite lift_bind, Hfdf. simpl.
  assert (Hsel : SELECT_LATEST_ENVIRONMENT s = (Ok (Some (env_id renv)), s))
    by (unfold SELECT_LATEST_ENVIRONMENT; by rewrite Henvs, Hlatest).
  rewrite (st_bind_run _ _ _ _ _ Hsel), lift_bind. simpl.
  clear Hfdf Hsel Henvs Hlatest. unfold fv_rows.
  revert s rows0 j0 Hrows Hj Hroom.
  induction Hrec as [|fv infs fvs recorded Hinfs _ IH];
    intros s rows0 j0 Hrows Hj Hroom.
  - exists s, []. simpl. rewrite Hrows, Hj, !app_nil_r.
    repeat split; try done; constructor.
  - unfold room_for_fv in Hroom. cbn [length] in Hroom.
    destruct (add_fv_run w self (env_id renv) fv s rows0 j0 infs Hrows Hj
                Hinfs)
      as (n & s1 & Hrun & Hn & Hlast & Hrows1 & Hj1 & He1 & Hi1);
      [unfold room_for_fv; lia|].
    destruct (IH s1 _ _ Hrows1 Hj1)
      as (s' & ids & Hrest & Hlen & Hnd & Hall & Hfv & Hjn & Hinst);
      [unfold room_for_fv; rewrite Hlast; lia|].
    rewrite largest_rowid_app in Hall.
    exists s', (n :: ids). simpl.
    split; [by rewrite (st_bind_run _ _ _ _ _ Hrun)|].
    split; [by rewrite Hlen|]. split; [|split; [|split; [|split]]].
    + constructor; [|done]. intros Hin.
      rewrite Forall_forall in Hall. specialize (Hall n Hin).
      unfold largest_rowid at 2 in Hall. simpl in Hall. lia.
    + constructor; [done|]. eapply Forall_impl; [exact Hall|].
      simpl. intros k Hk. lia.
    + rewrite Hfv. by rewrite <- (assoc_L (++)).
    + rewrite Hjn. by rewrite <- (assoc_L (++)).
    + congruence.
Qed.

Lemma X15_fv_parse_writes_witness :
  ∃ s' ids,
    InstancedFvTable_parse Cases.flash_workspace Cases.fv_table
      Cases.flash_store = (Ok tt, s') ∧
    length ids = 2 ∧
    junction s'
    = Some (concat (zip_with fv_edges ids
                      [["Pkg/A.inf"; "Pkg/B.inf"; "Pkg/C.inf"];
                       ["Pkg/Sec.inf"]])).
Proof.
  destruct (X15_fv_parse_writes Cases.flash_workspace Cases.fv_table
              Cases.flash_store Cases.flash [] [] _ _
              [["Pkg/A.inf"; "Pkg/B.inf"; "Pkg/C.inf"]; ["Pkg/Sec.inf"]]
              eq_refl eq_refl eq_refl eq_refl eq_refl)
    as (s' & ids & Hrun & Hlen & _ & _ & _ & Hj & _).
  - repeat constructor.
  - vm_compute. discriminate.
  - exists s', ids. split; [exact Hrun|]. split; [exact Hlen|exact Hj].
Defined.

(** The run on that flash description. *)
Example flash_run :
  let s' := (InstancedFvTable_parse Cases.flash_workspace Cases.fv_table
               Cases.flash_store).2 in
  fv_rows s'
  = [fv_row 1 1 "FVMAIN" "Test.fdf" "Pkg/Test.fdf";
     fv_row 1 2 "FVSEC" "Test.fdf" "Pkg/Test.fdf"] ∧
  junction s'
  = Some (fv_edges 1 ["Pkg/A.inf"; "Pkg/B.inf"; "Pkg/C.inf"]
          ++ fv_edges 2 ["Pkg/Sec.inf"]).
Proof. vm_compute. split; reflexivity. Qed.

(** ** X16: the path [InfTable._parse_file] records *)

Lemma prefix_split p s :
  String.prefix p s = true → ∃ rest, s = p +:+ rest.
Proof.
  revert s. induction p as [|c p IH]; intros s Hp; simpl in *; [by exists s|].
  destruct s as [|d s]; [done|]. simpl in Hp.
  destruct (ascii_dec c d) as [->|]; [|done].
  destruct (IH _ Hp) as [rest ->]. by exists rest.
Qed.

Lemma string_drop_app a b : string_drop (String.length a) (a +:+ b) = b.
Proof. induction a as [|c a IH]; simpl; [done|exact IH]. Qed.

Lemma string_app_length (a b : string) :
  String.length (a +:+ b) = String.length a + String.length b.
Proof. induction a as [|x a IH]; simpl; [done|]. by f_equal. Qed.

Lemma find_index_nil sub :
  find_index sub "" = if String.prefix sub "" then Some 0 else None.
Proof. reflexivity. Qed.

Lemma find_index_cons sub c s :
  find_index sub (String c s)
  = if String.prefix sub (String c s) then Some 0
    else S <$> find_index sub s.
Proof. reflexivity. Qed.

Lemma find_index_Some sub s i :
  find_index sub s = Some i →
  ∃ before after, s = before +:+ sub +:+ after ∧ String.length before = i.
Proof.
  revert i. induction s as [|c s IH]; intros i.
  - rewrite find_index_nil. destruct (String.prefix sub "") eqn:Hp; [|done].
    intros [= <-]. apply prefix_split in Hp as [rest Hrest].
    by exists "", rest.
  - rewrite find_index_cons.
    destruct (String.prefix sub (String c s)) eqn:Hp.
    + intros [= <-]. apply prefix_split in Hp as [rest Hrest].
      by exists "", rest.
    + destruct (find_index sub s) as [i'|] eqn:Hf; [|done].
      intros [= <-]. destruct (IH _ eq_refl) as (before & after & -> & <-).
      by exists (String c before), after.
Qed.

Lemma find_index_first sub s i before after :
  find_index sub s = Some i → s = before +:+ sub +:+ after →
  i ≤ String.length before.
Proof.
  revert i before. induction s as [|c s IH]; intros i before.
  - rewrite find_index_nil. destruct (String.prefix sub ""); [|done].
    intros [= <-] _. lia.
  - rewrite find_index_cons.
    destruct (String.prefix sub (String c s)) eqn:Hp.
    + intros [= <-] _. lia.
    + destruct (find_index sub s) as [i'|] eqn:Hf; [|done].
      intros [= <-] Hs. destruct before as [|d before].
      * change (String c s = sub +:+ after) in Hs.
        by rewrite Hs, prefix_app in Hp.
      * change (String c s = String d (before +:+ sub +:+ after)) in Hs.
        injection Hs as _ Hs. simpl. apply le_n_S. by eapply IH.
Qed.

Lemma find_index_None sub s before after :
  find_index sub s = None → s ≠ before +:+ sub +:+ after.
Proof.
  revert before. induction s as [|c s IH]; intros before.
  - rewrite find_index_nil. destruct (String.prefix sub "") eqn:Hp; [done|]. intros _ Hs.
    destruct before; [|done]. change ("" = sub +:+ after) in Hs.
    by rewrite Hs, prefix_app in Hp.
  - rewrite find_index_cons.
    destruct (String.prefix sub (String c s)) eqn:Hp; [done|].
    destruct (find_index sub s) eqn:Hf; [done|]. intros _ Hs.
    destruct before as [|d before].
    + change (String c s = sub +:+ after) in Hs.
      by rewrite Hs, prefix_app in Hp.
    + change (String c s = String d (before +:+ sub +:+ after)) in Hs.
      injection Hs as _ Hs. by eapply IH.
Qed.

Lemma slice_from_nat i s : slice_from (Z.of_nat i) s = string_drop i s.
Proof.
  unfold slice_from. destruct (Z.ltb_spec (Z.of_nat i) 0); [lia|].
  by rewrite Nat2Z.id.
Qed.

Lemma slice_from_last front c :
  slice_from (-1) (front +:+ String c "") = String c "".
Proof.
  unfold slice_from. change (-1 <? 0)%Z with true. cbv iota.
  rewrite string_app_length. simpl String.length.
  replace (Z.to_nat _) with (String.length front) by lia.
  apply string_drop_app.
Qed.

(** X16.  When the INF lies in a package with a non-empty name,
    [_parse_file] records the posix path from the FIRST place where the
    package name occurs in it: anything before that place is dropped, and a
    later occurrence of the name stays inside the recorded path.  Were the
    name not to occur in the path, [find] gives -1 and the recorded path is
    the last character of the path alone. *)
Theorem X16_path_from_first_occurrence (w : InfWorkspace)
    (filename pkg : string) (d : InfDocument) :
  ParseFile w filename = inr d →
  GetContainingPackage w (document_Path d) = Some pkg →
  pkg ≠ "" →
  let posix := as_posix (inf_workspace w) in
  let path := posix (document_Path d) in
  ∃ data, _parse_file w filename = Ok data ∧
    ((∃ before after,
        path = before +:+ pkg +:+ after ∧
        (∀ before' after', path = before' +:+ pkg +:+ after' →
           String.length before ≤ String.length before') ∧
        data_PATH data = posix (pkg +:+ after))
     ∨ ((∀ before after, path ≠ before +:+ pkg +:+ after) ∧
        (path = "" → data_PATH data = posix "") ∧
        (∀ front c, path = front +:+ String c "" →
           data_PATH data = posix (String c "")))).
Proof.
  intros Hparse Hpkg Hne posix path. unfold _parse_file.
  rewrite Hparse. simpl. rewrite Hpkg.
  destruct pkg as [|c k]; [done|]. eexists. split; [reflexivity|].
  simpl data_PATH. subst posix path.
  set (posix := as_posix (inf_workspace w)).
  set (path := posix (document_Path d)). unfold find.
  destruct (find_index (String c k) path) as [i|] eqn:Hf.
  - left. destruct (find_index_Some _ _ _ Hf) as (before & after & Hs & Hi).
    exists before, after. split; [exact Hs|]. split.
    + intros before' after' Hs'. rewrite Hi. by eapply find_index_first.
    + rewrite slice_from_nat. rewrite Hs at 1. rewrite <- Hi.
      by rewrite string_drop_app.
  - right. split; [|split].
    + intros before after. by apply find_index_None.
    + by intros ->.
    + intros front x ->. by rewrite slice_from_last.
Qed.

Lemma X16_path_from_first_occurrence_witness :
  ∃ data, _parse_file Cases.inf_tree "/ws/Sub/SubPkg/Lib.inf" = Ok data ∧
    ((∃ before after,
        "/ws/Sub/SubPkg/Lib.inf" = before +:+ "SubPkg" +:+ after ∧
        (∀ before' after',
           "/ws/Sub/SubPkg/Lib.inf" = before' +:+ "SubPkg" +:+ after' →
           String.length before ≤ String.length before') ∧
        data_PATH data = "SubPkg" +:+ after)
     ∨ ((∀ before after,
           "/ws/Sub/SubPkg/Lib.inf" ≠ before +:+ "SubPkg" +:+ after) ∧
        ("/ws/Sub/SubPkg/Lib.inf" = "" → data_PATH data = "") ∧
        (∀ front c, "/ws/Sub/SubPkg/Lib.inf" = front +:+ String c "" →
           data_PATH data = String c ""))).
Proof.
  apply (X16_path_from_first_occurrence Cases.inf_tree
           "/ws/Sub/SubPkg/Lib.inf" "SubPkg"
           (Cases.inf_document "/ws/Sub/SubPkg/Lib.inf" "guid-lib" "ClsA"
              [] ["Lib.c"])).
  - vm_compute. reflexivity.
  - vm_compute. reflexivity.
  - discriminate.
Defined.

(** A package below a directory whose name begins with the package's name:
    the recorded path starts at that directory, not at the package. *)
Example path_from_directory_named_like_package :
  (data ← _parse_file Cases.inf_tree "/ws/MdePkg-dev/MdePkg/Lib.inf";
   Ok (data_PATH data)) = Ok "MdePkg-dev/MdePkg/Lib.inf" ∧
  (data ← _parse_file Cases.inf_tree "/ws/Sub/SubPkg/Lib.inf";
   Ok (data_PATH data)) = Ok "SubPkg/Lib.inf".
Proof. vm_compute. split; reflexivity. Qed.

(** ** X17, X18, X19: what [InfTable.parse] writes *)

Lemma junction_loop {A} t1 k1 t2 (key : A → sqlval) (xs : list A) s j0 :
  junction s = Some j0 →
  for_each xs (λ x, INSERT_JUNCTION_ROW t1 k1 t2 (key x)) s
  = (Ok tt,
     set_junction
       (Some (j0 ++ map (λ x, {| table1 := t1; key1 := k1; table2 := t2;
                                 key2 := key x |}) xs)) s).
Proof.
  revert s j0. induction xs as [|x xs IH]; intros s j0 Hj; simpl.
  - rewrite app_nil_r. destruct s; simpl in *. by subst.
  - unfold mbind, st_bind. unfold INSERT_JUNCTION_ROW at 1. rewrite Hj.
    erewrite IH by done. by rewrite set_junction_twice, <- (assoc_L (++)).
Qed.

Lemma add_inf_entries_run entries s rows j :
  other_tables s !! "inf" = Some rows →
  junction s = Some j →
  add_inf_entries entries s
  = (Ok tt,
     set_junction (Some (j ++ flat_map inf_edges entries))
       (set_other_tables
          (<["inf" := replaced rows entries]> (other_tables s)) s)).
Proof.
  unfold add_inf_entries. revert s rows j.
  induction entries as [|e es IH]; intros s rows j Hrows Hj.
  - simpl. rewrite app_nil_r, insert_id by done.
    destruct s; simpl in *. by subst.
  - cbn [for_each]. unfold mbind at 1, st_bind at 1.
    unfold mbind at 1, st_bind at 1. unfold INSERT_INF_ROW at 1.
    rewrite Hrows. unfold mbind at 1, st_bind at 1.
    erewrite junction_loop by exact Hj.
    erewrite junction_loop by reflexivity.
    erewrite IH; [|simpl; apply lookup_insert_eq|reflexivity].
    f_equal. simpl. rewrite insert_insert_eq.
    unfold inf_edges, set_junction, set_other_tables. simpl.
    by rewrite <- !(assoc_L (++)).
Qed.

Lemma mapM_Forall2 {A B} (f : A → res B) (xs : list A) (ys : list B) :
  Forall2 (λ x y, f x = Ok y) xs ys → mapM f xs = Ok ys.
Proof.
  induction 1 as [|x y xs ys Hxy _ IH]; simpl; [done|].
  rewrite Hxy. simpl. by rewrite IH.
Qed.

Lemma InfTable_parse_run w s entries rows j :
  Forall2 (λ file data, _parse_file w file = Ok data)
    (files_to_parse w) entries →
  other_tables s !! "inf" = Some rows →
  junction s = Some j →
  InfTable_parse w s
  = (Ok tt,
     set_junction (Some (j ++ flat_map inf_edges entries))
       (set_other_tables
          (<["inf" := replaced rows entries]> (other_tables s)) s)).
Proof.
  intros Hfiles Hrows Hj. unfold InfTable_parse.
  rewrite lift_bind. fold (files_to_parse w).
  rewrite (mapM_Forall2 _ _ _ Hfiles). by apply add_inf_entries_run.
Qed.

Lemma replaced_snoc rows es e :
  replaced rows (es ++ [e])
  = filter (λ row, head row ≠ inf_key e) (replaced rows es) ++ [inf_row e].
Proof. unfold replaced. by rewrite foldl_app. Qed.

Lemma inf_key_inj e e' : inf_key e = inf_key e' ↔ data_PATH e = data_PATH e'.
Proof. unfold inf_key. split; [by intros [= ->]|by intros ->]. Qed.

Lemma NoDup_upsert (k : option sqlval) (row0 : list sqlval) rows :
  head row0 = k → NoDup (head <$> rows) →
  NoDup (head <$> (filter (λ row, head row ≠ k) rows ++ [row0])).
Proof.
  intros Hk. induction rows as [|r rows IH]; intros Hnd.
  - simpl. apply NoDup_singleton.
  - rewrite fmap_cons in Hnd. apply NoDup_cons in Hnd as [Hr Hnd].
    rewrite filter_cons. case_decide as Hne; [|by apply IH].
    simpl. apply NoDup_cons. split; [|by apply IH].
    rewrite fmap_app, elem_of_app. intros [Hin|Hin].
    + apply Hr. apply list_elem_of_fmap in Hin as (r' & -> & Hin).
      apply list_elem_of_filter in Hin as [_ Hin].
      apply list_elem_of_fmap. by exists r'.
    + simpl in Hin. apply list_elem_of_singleton in Hin. congruence.
Qed.

Lemma replaced_NoDup rows es :
  NoDup (head <$> rows) → NoDup (head <$> replaced rows es).
Proof.
  intros Hnd. induction es as [|e es IH] using rev_ind; [done|].
  rewrite replaced_snoc. by apply NoDup_upsert.
Qed.

Lemma replaced_elem rows es row :
  row ∈ replaced rows es ↔
  (row ∈ rows ∧ ∀ e, e ∈ es → head row ≠ inf_key e) ∨
  ∃ before e after, es = before ++ e :: after ∧
    (data_PATH e ∉ data_PATH <$> after) ∧ row = inf_row e.
Proof.
  induction es as [|e es IH] using rev_ind.
  - simpl. split.
    + intros Hin. left. split; [done|]. intros e He. by inversion He.
    + intros [[Hin _]|(before & e & after & Hes & _)]; [done|].
      by destruct before.
  - rewrite replaced_snoc, elem_of_app, list_elem_of_filter, IH.
    rewrite list_elem_of_singleton. split.
    + intros [[Hne Hold]| ->];
        [destruct Hold as [[Hin Hall]|(before & e' & after & -> & Hnot & ->)]|].
      * left. split; [done|]. intros e0 He0.
        apply elem_of_app in He0 as [He0|He0]; [by apply Hall|].
        apply list_elem_of_singleton in He0. by subst.
      * right. exists before, e', (after ++ [e]). split.
        { by rewrite <- (assoc_L (++)). }
        split; [|done]. rewrite fmap_app, elem_of_app.
        intros [Hin|Hin]; [done|]. simpl in Hin.
        apply list_elem_of_singleton in Hin. apply Hne. simpl.
        by apply inf_key_inj.
      * right. exists es, e, []. split; [done|]. split; [|done].
        simpl. by intros Hin%elem_of_nil.
    + intros [[Hin Hall]|(before & e' & after & Hes & Hnot & ->)].
      * left. split.
        { apply Hall. apply elem_of_app. right. by left. }
        left. split; [done|]. intros e0 He0. apply Hall.
        apply elem_of_app. by left.
      * destruct after as [|x after _] using rev_ind.
        { symmetry in Hes. apply app_inj_tail in Hes as [-> ->]. by right. }
        rewrite app_comm_cons, (assoc_L (++)) in Hes.
        apply app_inj_tail in Hes as [-> <-].
        rewrite fmap_app, elem_of_app in Hnot. left. split.
        { simpl. intros Hk%inf_key_inj. apply Hnot. right.
          rewrite Hk. by left. }
        right. exists before, e', after. split; [done|]. split; [|done].
        intros Hin. apply Hnot. by left.
Qed.

Lemma filter_keep {A} (P : A → Prop) `{∀ x, Decision (P x)} (l : list A) :
  Forall P l → filter P l = l.
Proof.
  induction 1 as [|x l Hx _ IH]; [done|].
  rewrite filter_cons. rewrite decide_True by done. by rewrite IH.
Qed.

Lemma filter_drop {A} (P : A → Prop) `{∀ x, Decision (P x)} (l : list A) :
  Forall (λ x, ¬ P x) l → filter P l = [].
Proof.
  induction 1 as [|x l Hx _ IH]; [done|].
  rewrite filter_cons. by rewrite decide_False.
Qed.

Lemma replaced_distinct rows es :
  NoDup (data_PATH <$> es) →
  replaced rows es
  = filter (λ row, head row ∉ (inf_key <$> es)) rows ++ map inf_row es.
Proof.
  induction es as [|e es IH] using rev_ind; intros Hnd.
  - simpl. rewrite app_nil_r. symmetry. apply filter_keep.
    apply Forall_forall. intros row _. by intros Hin%elem_of_nil.
  - rewrite fmap_app in Hnd. apply NoDup_app in Hnd as (Hnd & Hnot & _).
    rewrite replaced_snoc, (IH Hnd), filter_app, (map_app inf_row).
    rewrite <- (assoc_L (++)). f_equal; [|f_equal].
    + rewrite list_filter_filter. apply list_filter_iff. intros row.
      rewrite fmap_app, elem_of_app. simpl. rewrite list_elem_of_singleton.
      tauto.
    + apply filter_keep. apply Forall_forall. intros row Hin.
      apply list_elem_of_In, in_map_iff in Hin as (e' & <- & Hin).
      simpl. intros Hk%inf_key_inj. apply (Hnot (data_PATH e')).
      * apply list_elem_of_fmap. exists e'. split; [done|].
        by apply list_elem_of_In.
      * rewrite Hk. simpl. by left.
Qed.

Lemma replaced_again rows es :
  NoDup (data_PATH <$> es) →
  replaced (replaced rows es) es = replaced rows es.
Proof.
  intros Hnd. rewrite !(replaced_distinct _ _ Hnd), filter_app.
  rewrite <- (assoc_L (++)). f_equal.
  - rewrite list_filter_filter. apply list_filter_iff. tauto.
  - rewrite (filter_drop _ (map inf_row es)); [done|].
    apply Forall_forall. intros row Hin.
    apply list_elem_of_In, in_map_iff in Hin as (e' & <- & Hin).
    intros Hnot. apply Hnot. apply list_elem_of_fmap. exists e'.
    split; [done|]. by apply list_elem_of_In.
Qed.

(** X17.  [InfTable.parse] on a database that has the tables [inf] and
    [junction], when every file parses: [path] stays a key of [inf] (rows
    with pairwise different paths before, pairwise different paths after);
    a row is in [inf] afterwards exactly when it was there and no parsed
    file has its path, or it is the row of the LAST parsed file with that
    path; the junction rows of every parsed file are appended, also those of
    a file whose [inf] row was replaced by a later file; nothing else is
    written, in particular not the table [library_class]. *)
Theorem X17_inf_rows_keyed_by_path (w : InfWorkspace) (s : Store)
    (entries : list inf_data) (rows : list (list sqlval))
    (j : list junction_row) :
  Forall2 (λ file data, _parse_file w file = Ok data)
    (files_to_parse w) entries →
  other_tables s !! "inf" = Some rows →
  junction s = Some j →
  ∃ s', InfTable_parse w s = (Ok tt, s') ∧
    junction s' = Some (j ++ flat_map inf_edges entries) ∧
    (NoDup (head <$> rows) → NoDup (head <$> inf_rows s')) ∧
    (∀ row, row ∈ inf_rows s' ↔
       (row ∈ rows ∧ ∀ e, e ∈ entries → head row ≠ inf_key e) ∨
       ∃ before e after, entries = before ++ e :: after ∧
         (data_PATH e ∉ data_PATH <$> after) ∧ row = inf_row e) ∧
    environment s' = environment s ∧
    instanced_inf s' = instanced_inf s ∧
    ∀ name, name ≠ "inf" → other_tables s' !! name = other_tables s !! name.
Proof.
  intros Hfiles Hrows Hj. eexists. split; [by eapply InfTable_parse_run|].
  unfold inf_rows. simpl. rewrite lookup_insert_eq. simpl.
  split; [done|]. split; [apply replaced_NoDup|].
  split; [apply replaced_elem|]. split; [done|]. split; [done|].
  intros name Hne. by rewrite lookup_insert_ne.
Qed.

Lemma inf_tree_parses :
  Forall2 (λ file data, _parse_file Cases.inf_tree file = Ok data)
    (files_to_parse Cases.inf_tree) Cases.inf_tree_entries.
Proof. repeat constructor; vm_compute; reflexivity. Qed.

Lemma X17_inf_rows_keyed_by_path_witness :
  ∃ s', InfTable_parse Cases.inf_tree Cases.stale_store = (Ok tt, s') ∧
    junction s' = Some ([] ++ flat_map inf_edges Cases.inf_tree_entries) ∧
    [SText "Pkg/Comp.inf"; SText "guid-comp"; SText ""; SText "BASE"]
      ∈ inf_rows s'.
Proof.
  destruct (X17_inf_rows_keyed_by_path Cases.inf_tree Cases.stale_store
              Cases.inf_tree_entries _ [] inf_tree_parses eq_refl eq_refl)
    as (s' & Hrun & Hj & _ & Hrows & _).
  exists s'. split; [exact Hrun|]. split; [exact Hj|].
  apply Hrows. right.
  eexists [], _, _. split; [reflexivity|]. split; [|reflexivity].
  vm_compute. intros Hin. inversion Hin as [|? ? ? Hin']. inversion Hin'.
Defined.

(** The table [inf] after that run. *)
Example stale_rows_replaced :
  inf_rows (InfTable_parse Cases.inf_tree Cases.stale_store).2
  = [[SText "Pkg/Gone.inf"; SText "guid-gone"; SText ""; SText "BASE"];
     [SText "Pkg/Comp.inf"; SText "guid-comp"; SText ""; SText "BASE"];
     [SText "SubPkg/Lib.inf"; SText "guid-lib"; SText "ClsA"; SText "Sub"]].
Proof. vm_compute. reflexivity. Qed.

(** X18.  Parsing an unchanged workspace a second time, when the parsed
    files have pairwise different recorded paths: the first run drops the
    rows of [inf] that have the path of a parsed file and appends one row
    per file; the second run leaves every table but [junction] as the first
    run left it, and appends the junction rows of every file once more. *)
Theorem X18_second_parse (w : InfWorkspace) (s : Store)
    (entries : list inf_data) (rows : list (list sqlval))
    (j : list junction_row) :
  Forall2 (λ file data, _parse_file w file = Ok data)
    (files_to_parse w) entries →
  NoDup (data_PATH <$> entries) →
  other_tables s !! "inf" = Some rows →
  junction s = Some j →
  ∃ s1 s2,
    InfTable_parse w s = (Ok tt, s1) ∧
    InfTable_parse w s1 = (Ok tt, s2) ∧
    inf_rows s1
    = filter (λ row, head row ∉ (inf_key <$> entries)) rows
      ++ map inf_row entries ∧
    junction s1 = Some (j ++ flat_map inf_edges entries) ∧
    other_tables s2 = other_tables s1 ∧
    junction s2
    = Some (j ++ flat_map inf_edges entries ++ flat_map inf_edges entries).
Proof.
  intros Hfiles Hnd Hrows Hj.
  eexists _, _. split; [by eapply InfTable_parse_run|]. split.
  - eapply InfTable_parse_run; [exact Hfiles| |reflexivity].
    simpl. apply lookup_insert_eq.
  - unfold inf_rows. simpl. rewrite lookup_insert_eq. simpl.
    split; [by apply replaced_distinct|]. split; [done|].
    split; [|by rewrite <- (assoc_L (++))].
    by rewrite insert_insert_eq, replaced_again.
Qed.

Lemma X18_second_parse_witness :
  ∃ s1 s2,
    InfTable_parse Cases.inf_tree Cases.stale_store = (Ok tt, s1) ∧
    InfTable_parse Cases.inf_tree s1 = (Ok tt, s2) ∧
    other_tables s2 = other_tables s1 ∧
    junction s2
    = Some ([] ++ flat_map inf_edges Cases.inf_tree_entries
               ++ flat_map inf_edges Cases.inf_tree_entries).
Proof.
  destruct (X18_second_parse Cases.inf_tree Cases.stale_store
              Cases.inf_tree_entries (inf_rows Cases.stale_store) []
              inf_tree_parses)
    as (s1 & s2 & H1 & H2 & _ & _ & Ht & Hj); [|reflexivity|reflexivity|].
  - vm_compute. repeat constructor.
    + intros Hin. inversion Hin as [|? ? ? Hin']. inversion Hin'.
    + intros Hin. inversion Hin.
  - exists s1, s2. split; [exact H1|]. split; [exact H2|].
    split; [exact Ht|exact Hj].
Defined.

Lemma parse_file_returns w file d :
  ParseFile w file = inr d → ∃ data, _parse_file w file = Ok data.
Proof. unfold _parse_file. intros ->. simpl. by eexists. Qed.

(** X19.  Every file is parsed before the first statement is run: when the
    INF parser raises on one file and on no other, [InfTable.parse] raises
    that error and has written nothing, whatever the other files hold and
    wherever the file comes in the listing. *)
Theorem X19_unparsable_file_writes_nothing (w : InfWorkspace) (s : Store)
    (before after : list string) (file : string) (e : exn) :
  files_to_parse w = before ++ file :: after →
  Forall (λ f, ∃ d, ParseFile w f = inr d) (before ++ after) →
  ParseFile w file = inl e →
  InfTable_parse w s = (Raise e, s).
Proof.
  intros Hfiles Hothers Hfile. unfold InfTable_parse.
  rewrite lift_bind. fold (files_to_parse w). rewrite Hfiles.
  rewrite (mapM_raise _ before file after e); [done| |].
  - apply Forall_app in Hothers as [Hbefore _].
    eapply Forall_impl; [exact Hbefore|]. simpl.
    intros f [d Hd]. by eapply parse_file_returns.
  - unfold _parse_file. by rewrite Hfile.
Qed.

Lemma X19_unparsable_file_writes_nothing_witness :
  InfTable_parse Cases.broken_tree Cases.stale_store
  = (Raise (ExternalError "/ws/Pkg/Broken.inf"), Cases.stale_store).
Proof.
  apply (X19_unparsable_file_writes_nothing Cases.broken_tree
           Cases.stale_store ["/ws/Pkg/Comp.inf"] ["/ws/Sub/SubPkg/Lib.inf"]
           "/ws/Pkg/Broken.inf").
  - vm_compute. reflexivity.
  - repeat constructor; eexists; vm_compute; reflexivity.
  - vm_compute. reflexivity.
Defined.

(** ** X20: [InfTable] registered with [Edk2DB] *)

Lemma CREATE_JUNCTION_TABLE_run s :
  CREATE_JUNCTION_TABLE s
  = (Ok tt, set_junction (Some (default [] (junction s))) s).
Proof.
  unfold CREATE_JUNCTION_TABLE. destruct s as [? ? ? [j|] ?]; reflexivity.
Qed.

Lemma create_if_absent_run name s :
  create_if_absent name s
  = (Ok tt,
     set_other_tables
       (<[name := default [] (other_tables s !! name)]> (other_tables s)) s).
Proof.
  unfold create_if_absent.
  destruct (other_tables s !! name) as [rows|] eqn:Hrows; simpl; [|done].
  rewrite insert_id by done. by destruct s.
Qed.

Lemma on_connection_run {A} (m : db A) o r s :
  m (current (connection o)) = (r, s) →
  on_connection m o
  = (r, {| _parsers := _parsers o;
           connection := {| committed := committed (connection o);
                            current := s;
                            closed := closed (connection o) |} |}).
Proof. unfold on_connection. by intros ->. Qed.

(** X20.  [InfTable] as the one generator registered with [Edk2DB], on any
    database file, when every file parses: [Edk2DB.parse] ends normally
    whether or not the tables were there, nothing is left pending, the
    junction rows of every file are appended, the rows of [inf] are the
    earlier ones with the parsed files' rows replacing and following them,
    and the table [library_class] exists afterwards with the rows it had
    (none on a new database): the generator creates it and never writes to
    it. *)
Theorem X20_inf_table_through_Edk2DB (w : InfWorkspace) (file : Store)
    (entries : list inf_data) :
  Forall2 (λ f data, _parse_file w f = Ok data) (files_to_parse w) entries →
  ∃ o', Edk2DB_parse (register [InfTable_generator w] (Edk2DB_init file))
        = (Ok tt, o') ∧
    committed (connection o') = current (connection o') ∧
    junction (current (connection o'))
    = Some (default [] (junction file) ++ flat_map inf_edges entries) ∧
    inf_rows (current (connection o')) = replaced (inf_rows file) entries ∧
    other_tables (current (connection o')) !! "library_class"
    = Some (default [] (other_tables file !! "library_class")) ∧
    environment (current (connection o')) = environment file ∧
    instanced_inf (current (connection o')) = instanced_inf file.
Proof.
  intros Hfiles. unfold Edk2DB_parse, register, Edk2DB_init.
  cbn [_parsers app for_each].
  erewrite st_bind_run;
    [|apply on_connection_run; apply CREATE_JUNCTION_TABLE_run].
  erewrite st_bind_run; cycle 1.
  { erewrite st_bind_run; [reflexivity|].
    apply on_connection_run. cbn [create_tables InfTable_generator].
    erewrite st_bind_run; [|apply create_if_absent_run].
    apply create_if_absent_run. }
  erewrite st_bind_run; cycle 1.
  { erewrite st_bind_run; [reflexivity|].
    apply on_connection_run. cbn [parse InfTable_generator].
    eapply InfTable_parse_run; [exact Hfiles| |reflexivity].
    cbn. rewrite lookup_insert_ne by done. apply lookup_insert_eq. }
  eexists. split; [reflexivity|]. cbn.
  split; [done|]. split; [done|]. unfold inf_rows. cbn.
  rewrite lookup_insert_eq. split; [done|].
  rewrite lookup_insert_ne by done. rewrite lookup_insert_eq.
  rewrite lookup_insert_ne by done. done.
Qed.

Lemma X20_inf_table_through_Edk2DB_witness :
  ∃ o', Edk2DB_parse (register [InfTable_generator Cases.inf_tree]
                        (Edk2DB_init Demo.empty_store))
        = (Ok tt, o') ∧
    committed (connection o') = current (connection o') ∧
    junction (current (connection o'))
    = Some ([] ++ flat_map inf_edges Cases.inf_tree_entries) ∧
    other_tables (current (connection o')) !! "library_class" = Some [].
Proof.
  destruct (X20_inf_table_through_Edk2DB Cases.inf_tree Demo.empty_store
              Cases.inf_tree_entries inf_tree_parses)
    as (o' & Hrun & Hc & Hj & _ & Hl & _).
  exists o'. split; [exact Hrun|]. split; [exact Hc|].
  split; [exact Hj|exact Hl].
Defined.

(** The database after that run. *)
Example inf_tree_database :
  let s' := current (connection
              (Edk2DB_parse (register [InfTable_generator Cases.inf_tree]
                               (Edk2DB_init Demo.empty_store))).2) in
  inf_rows s'
  = [[SText "Pkg/Comp.inf"; SText "guid-comp"; SText ""; SText "BASE"];
     [SText "SubPkg/Lib.inf"; SText "guid-lib"; SText "ClsA"; SText "Sub"]] ∧
  junction s'
  = Some [{| table1 := "inf"; key1 := SText "Pkg/Comp.inf";
             table2 := "library_class"; key2 := SText "ClsA" |};
          {| table1 := "inf"; key1 := SText "Pkg/Comp.inf";
             table2 := "source"; key2 := SText "Comp.c" |};
          {| table1 := "inf"; key1 := SText "SubPkg/Lib.inf";
             table2 := "source"; key2 := SText "Lib.c" |}].
Proof. vm_compute. split; reflexivity. Qed.
